(** * undocker3: layer-chain resolution and union extraction

    A shallow embedding of [undocker3.py] and [constants.py], and the
    properties of the program that its specification states.

    The program reads a Docker image archive, resolves an image reference
    to a top layer, follows the parent links of the layer metadata, and
    unpacks the layers base first into one output directory, deleting the
    paths named by whiteout entries after each layer. *)

From Stdlib Require Import ZArith Ascii String.
From stdpp Require Import base list strings gmap sorting.

(** ** Python strings *)

Module PyStr.

(** [s[n:]] *)
Fixpoint suffix_from (n : nat) (s : string) : string :=
  match n, s with
  | O, _ => s
  | S n', String _ s' => suffix_from n' s'
  | S _, EmptyString => EmptyString
  end.

(** [s.startswith(p)] *)
Definition startswith (p s : string) : bool := String.prefix p s.

(** [s.endswith("/")] *)
Fixpoint endswith_sep (s : string) : bool :=
  match s with
  | EmptyString => false
  | String c EmptyString => bool_decide (c = "/"%char)
  | String _ s' => endswith_sep s'
  end.

(** [p in s] *)
Fixpoint contains (p s : string) : bool :=
  String.prefix p s ||
  match s with
  | EmptyString => false
  | String _ s' => contains p s'
  end.

(** [s.replace(old, new)] for a non-empty [old]: the occurrences are
    found from the left and do not overlap.  [skip] counts the
    characters of an occurrence still to be passed over. *)
Fixpoint replace_from (skip : nat) (old new s : string) : string :=
  match s with
  | EmptyString => EmptyString
  | String c s' =>
      match skip with
      | S k => replace_from k old new s'
      | O =>
          if String.prefix old s
          then new +:+ replace_from (String.length old - 1) old new s'
          else String c (replace_from O old new s')
      end
  end.

Definition replace (old new s : string) : string := replace_from O old new s.

(** [s.split(":", 1)] read as a pair: [None] stands for the one-element
    list that Python returns when [s] holds no colon. *)
Fixpoint split_colon (s : string) : option (string * string) :=
  match s with
  | EmptyString => None
  | String c s' =>
      if bool_decide (c = ":"%char) then Some (EmptyString, s')
      else match split_colon s' with
           | Some (a, b) => Some (String c a, b)
           | None => None
           end
  end.

(** [sep.join(l)] *)
Definition join (sep : string) (l : list string) : string := String.concat sep l.

(** [repr(s)] of a [str] whose characters are code points below 256.
    The quote is the single one, unless [s] holds a single quote and
    no double quote; the quote in use and the backslash are escaped,
    tab, line feed and carriage return are written with their letter,
    and any other character that is not printable with its code in
    two hexadecimal digits. *)
Definition dquote : ascii := "034"%char.
Definition backslash : ascii := "092"%char.

Definition hex_digit (n : N) : ascii :=
  ascii_of_N (if (n <? 10)%N then 48 + n else 87 + n).

Definition printable (c : ascii) : bool :=
  let n := N_of_ascii c in
  (32 <=? n)%N && negb (n =? 127)%N &&
  negb ((128 <=? n)%N && (n <=? 160)%N) && negb (n =? 173)%N.

Definition escape (quote c : ascii) : string :=
  if bool_decide (c = quote) || bool_decide (c = backslash) then String backslash (String c "")
  else if bool_decide (c = "009"%char) then String backslash "t"
  else if bool_decide (c = "010"%char) then String backslash "n"
  else if bool_decide (c = "013"%char) then String backslash "r"
  else if printable c then String c ""
  else String backslash
         (String "x" (String (hex_digit (N_of_ascii c / 16))
                             (String (hex_digit (N_of_ascii c mod 16)) ""))).

Fixpoint escaped (quote : ascii) (s : string) : string :=
  match s with
  | EmptyString => EmptyString
  | String c s' => escape quote c +:+ escaped quote s'
  end.

Definition repr (s : string) : string :=
  let quote :=
    if contains "'" s && negb (contains (String dquote "") s) then dquote else "'"%char in
  String quote (escaped quote s +:+ String quote "").

(** [os.path.join(a, b)] of [posixpath]. *)
Definition path_join (a b : string) : string :=
  if startswith "/" b then b
  else if bool_decide (a = "") || endswith_sep a then a +:+ b
  else a +:+ "/" +:+ b.

End PyStr.

(** ** constants.py *)

Definition OWNER_READ_WRITE : Z := 448.   (* 0o700 *)
Definition DIRECTORY_MODE : Z := 16384.    (* 0o40000 *)
Definition OWNER_WRITE : Z := 130.         (* 0b10000010, that is 0o202 *)

(** [errno.ENOENT] *)
Definition ENOENT : Z := 2.

(** ** Data model *)

(** The entry kinds of [tarfile]; [TarInfo.isdir()] is [type == DIRTYPE]. *)
Inductive tartype := REGTYPE | DIRTYPE | SYMTYPE | LNKTYPE | OTHERTYPE.

Global Instance tartype_eq_dec : EqDecision tartype.
Proof. solve_decision. Defined.

(** One [TarInfo] object of a layer archive.  [member.path] is an alias
    of [member.name]. *)
Record TarInfo := mkTarInfo {
  name : string;
  type : tartype;
  mode : Z;
  uid : Z;
  gid : Z;
  uname : string;
  gname : string;
  mtime : Z;
  size : Z;
  linkname : string }.

Global Instance TarInfo_eq_dec : EqDecision TarInfo.
Proof. solve_decision. Defined.

Global Instance TarInfo_inhabited : Inhabited TarInfo :=
  populate (mkTarInfo "" REGTYPE 0 0 0 "" "" 0 0 "").

Definition isdir (t : TarInfo) : bool := bool_decide (type t = DIRTYPE).

(** [tarinfo.mode = m] *)
Definition set_mode (m : Z) (t : TarInfo) : TarInfo :=
  mkTarInfo (name t) (type t) m (uid t) (gid t) (uname t) (gname t)
            (mtime t) (size t) (linkname t).

(** A Python [dict] with string keys, in insertion order; the keys of a
    list that stands for a [dict] are distinct. *)
Definition dict (V : Type) : Type := list (string * V).

Fixpoint dict_get {V} (d : dict V) (k : string) : option V :=
  match d with
  | [] => None
  | (k', v) :: d' => if bool_decide (k' = k) then Some v else dict_get d' k
  end.

Definition dict_keys {V} (d : dict V) : list string := d.*1.

(** The decoded [<id>/json] document of a layer: the [parent] key and the
    keys that [find_layers] writes to the debug log. *)
Record LayerInfo := mkLayerInfo {
  parent : option string;
  info_os : option string;
  info_architecture : option string;
  info_author : option string;
  info_created : option string }.

(** The outer archive, as [main] reads it: the decoded [repositories]
    member when there is one, and for a layer id the decoded [<id>/json]
    member and the members of the nested [<id>/layer.tar]. *)
Record Image := mkImage {
  img_repositories : option (dict (dict string));
  img_json : gmap string LayerInfo;
  img_layer_tar : gmap string (list TarInfo) }.

(** The parsed command line. *)
Record Args := mkArgs {
  arg_ignore_errors : bool;
  arg_output : string;
  arg_layers : bool;
  arg_list : bool;
  arg_layer : option (list string);
  arg_no_whiteouts : bool;
  arg_image : option string }.

(** ** Exceptions, calls and records *)

Inductive exn :=
| KeyError (key : string)
| StopIteration
| RecursionError
| OSError (errno : Z)
| ExtractError (msg : string)
| SystemExit (code : Z).

Global Instance exn_eq_dec : EqDecision exn.
Proof. solve_decision. Defined.

(** What [TarFile.extractfile(name)] ends with when the archive holds no
    member [name]: the [KeyError] of [getmember]. *)
Definition not_found (name : string) : exn :=
  KeyError ("filename " +:+ PyStr.repr name +:+ " not found").

Inductive result (A : Type) :=
| Ok (a : A)
| Raise (e : exn).
Arguments Ok {A} a.
Arguments Raise {A} e.

(** The calls that leave the program: the methods that [TarFileOverrides]
    inherits from [tarfile.TarFile], and the [os] functions of [main]. *)
Inductive call :=
| TarExtract (errorlevel : Z) (t : TarInfo) (path : string)
             (set_attrs numeric_owner : bool)
| TarChown (t : TarInfo) (targetpath : string) (numeric_owner : bool)
| TarUtime (t : TarInfo) (targetpath : string)
| TarChmod (t : TarInfo) (targetpath : string)
| OsMkdir (path : string)
| OsUnlink (path : string).

Global Instance call_eq_dec : EqDecision call.
Proof. solve_decision. Defined.

(** What the program writes: [LOG] records, [print] lines, and the
    messages handed to [TarFile._dbg]. *)
Inductive record :=
| LogDebug (msg : string)
| LogInfo (msg : string)
| LogError (msg : string)
| Print (line : string)
| TarDbg (level : Z) (msg : string).

(** The environment of a run: a state [W] of the file system, the
    answer to each call (the new state, and the exception when the call
    raises), and [os.path.isdir]. *)
Class OS (W : Type) := {
  perform : call → W → W * option exn;
  os_path_isdir : string → W → bool }.

(** ** The state of a run and its monad *)

(** [members] is the list of [TarInfo] objects of the open layer archive,
    the one that [getmembers()] returns; an object is known by its
    position, so that an assignment to a field of an object is seen by
    every later read of it. *)
Record state (W : Type) := mkState {
  world : W;
  members : list TarInfo;
  calls : list call;
  records : list record }.
Arguments mkState {W}.
Arguments world {W}.
Arguments members {W}.
Arguments calls {W}.
Arguments records {W}.

Definition M (W A : Type) : Type := state W → state W * result A.

Global Instance M_ret {W} : MRet (M W) := λ A a s, (s, Ok a).

Global Instance M_bind {W} : MBind (M W) := λ A B k m s,
  match m s with
  | (s', Ok a) => k a s'
  | (s', Raise e) => (s', Raise e)
  end.

Definition raise {W A} (e : exn) : M W A := λ s, (s, Raise e).

(** [try: m except: h] where [h] re-raises what it does not handle. *)
Definition try_except {W A} (m : M W A) (h : exn → M W A) : M W A := λ s,
  match m s with
  | (s', Ok a) => (s', Ok a)
  | (s', Raise e) => h e s'
  end.

Section Run.
Context {W : Type} `{!OS W}.

Definition emit (r : record) : M W unit :=
  fun s => (mkState (world s) (members s) (calls s) (records s ++ [r]), Ok tt).

(** A call is written to [calls] and answered by the environment. *)
Definition do (c : call) : M W unit :=
  fun s =>
    let '(w, r) := perform c (world s) in
    (mkState w (members s) (calls s ++ [c]) (records s),
     match r with None => Ok tt | Some e => Raise e end).

Definition isdir_path (p : string) : M W bool :=
  fun s => (s, Ok (os_path_isdir p (world s))).

(** The object at position [r]. *)
Definition deref (r : nat) : M W TarInfo :=
  fun s => (s, Ok (members s !!! r)).

(** [tarinfo.mode = m] on the object at position [r]. *)
Definition assign_mode (r : nat) (m : Z) : M W unit :=
  fun s => (mkState (world s) (alter (set_mode m) r (members s))
                    (calls s) (records s), Ok tt).

(** Opening a layer archive: its members become the current objects. *)
Definition open_members (l : list TarInfo) : M W unit :=
  fun s => (mkState (world s) l (calls s) (records s), Ok tt).

Definition getmembers : M W (list TarInfo) :=
  fun s => (s, Ok (members s)).

End Run.

(** ** undocker3.py *)

Import PyStr.

(** The line feed of ['\n'.join]. *)
Definition nl : string := String "010"%char "".

Section Program.
Context {W : Type} `{!OS W}.

(** *** TarFileOverrides.extractall *)

(** [for tarinfo in members] (lines 42-50).  [refs] are the positions
    still to visit, [directories] the positions appended so far. *)
Fixpoint extract_members (errorlevel : Z) (path : string) (numeric_owner : bool)
    (refs : list nat) (directories : list nat) : M W (list nat) :=
  match refs with
  | [] => mret directories
  | r :: refs' =>
      tarinfo ← deref r;
      if isdir tarinfo then
        let directories := directories ++ [r] in
        let tarinfo := set_mode OWNER_READ_WRITE tarinfo in
        do (TarExtract errorlevel tarinfo path (negb (isdir tarinfo)) numeric_owner);;
        extract_members errorlevel path numeric_owner refs' directories
      else
        do (TarExtract errorlevel tarinfo path (negb (isdir tarinfo)) numeric_owner);;
        extract_members errorlevel path numeric_owner refs' directories
  end.

(** [directories.sort(key=lambda a: a.name)] (line 53).  The sort of
    Python is stable, and a stable sort has one result: the one of this
    insertion sort, which puts an object before the first object of
    the sorted rest whose name is not smaller. *)
Fixpoint insert_by_name (ms : list TarInfo) (r : nat) (l : list nat) : list nat :=
  match l with
  | [] => [r]
  | r' :: l' =>
      if String.leb (name (ms !!! r)) (name (ms !!! r'))
      then r :: l
      else r' :: insert_by_name ms r l'
  end.

Definition sort_by_name (ms : list TarInfo) (l : list nat) : list nat :=
  foldr (insert_by_name ms) [] l.

(** Lines 52-54: sort, then reverse. *)
Definition reverse_sorted (ms : list TarInfo) (directories : list nat) : list nat :=
  reverse (sort_by_name ms directories).

(** The body of the [try] of lines 59-64, for the object at [r]. *)
Definition set_attrs_body (path : string) (numeric_owner : bool) (r : nat) : M W unit :=
  tarinfo ← deref r;
  let dirpath := path_join path (name tarinfo) in
  do (TarChown tarinfo dirpath numeric_owner);;
  do (TarUtime tarinfo dirpath);;
  (if bool_decide (Z.land (mode tarinfo) DIRECTORY_MODE ≠ 0%Z)
   then assign_mode r (Z.lor (mode tarinfo) OWNER_WRITE)
   else mret tt);;
  tarinfo ← deref r;
  do (TarChmod tarinfo dirpath).

(** The handler of lines 65-69. *)
Definition set_attrs_handler (errorlevel : Z) (e : exn) : M W unit :=
  match e with
  | ExtractError msg =>
      if bool_decide (errorlevel > 1)%Z then raise e
      else emit (TarDbg 1%Z ("tarfile: " +:+ msg))
  | _ => raise e
  end.

(** [for tarinfo in directories] (lines 57-69). *)
Fixpoint set_directory_attrs (errorlevel : Z) (path : string) (numeric_owner : bool)
    (directories : list nat) : M W unit :=
  match directories with
  | [] => mret tt
  | r :: directories' =>
      try_except (set_attrs_body path numeric_owner r)
                 (set_attrs_handler errorlevel);;
      set_directory_attrs errorlevel path numeric_owner directories'
  end.

(** [extractall(path, members=None, numeric_owner=...)] on the open
    archive, whose [errorlevel] attribute is the first argument. *)
Definition extractall (errorlevel : Z) (path : string) (numeric_owner : bool) : M W unit :=
  ms ← getmembers;
  directories ← extract_members errorlevel path numeric_owner (seq 0 (length ms)) [];
  ms ← getmembers;
  set_directory_attrs errorlevel path numeric_owner (reverse_sorted ms directories).

(** *** find_layers *)

Definition log_key (k : string) (v : option string) : M W unit :=
  match v with
  | Some x => emit (LogDebug (k +:+ " = " +:+ x))
  | None => mret tt
  end.

(** The generator, run to its end by [list(...)].  Each level of the
    recursion is one more nested generator frame, on which the calls of
    the level ([extractfile], [json.load], [LOG.debug]) put theirs.
    [limit] is the number of levels that the recursion limit of the
    interpreter leaves room for, these calls included; a level beyond
    them ends with [RecursionError].
    [img.extractfile] raises [KeyError] for a member that the archive
    does not hold. *)
Fixpoint find_layers (limit : nat) (img : Image) (id : string) : M W (list string) :=
  match limit with
  | O => raise RecursionError
  | S limit' =>
      match img_json img !! id with
      | None => raise (not_found (id +:+ "/json"))
      | Some info =>
          emit (LogDebug ("layer = " +:+ id));;
          log_key "os" (info_os info);;
          log_key "architecture" (info_architecture info);;
          log_key "author" (info_author info);;
          log_key "created" (info_created info);;
          match parent info with
          | Some pid =>
              rest ← find_layers limit' img pid;
              mret (id :: rest)
          | None => mret [id]
          end
      end
  end.

(** *** main *)

(** Lines 144-149. *)
Fixpoint print_repos (repos : dict (dict string)) : M W unit :=
  match repos with
  | [] => mret tt
  | (name, tags) :: repos' =>
      emit (Print (name +:+ ": " +:+ join " " (dict_keys tags)));;
      print_repos repos'
  end.

(** Lines 151-157: [not args.image] holds for [None] and for [""]. *)
Definition select_image (args : Args) (repos : dict (dict string)) : M W string :=
  match arg_image args with
  | Some (String c i) => mret (String c i)
  | _ =>
      match dict_keys repos with
      | [k] => mret k
      | _ =>
          emit (LogError "No image name specified and multiple images contained in archive");;
          raise (SystemExit 1%Z)
      end
  end.

(** Lines 158-161. *)
Definition split_reference (repos : dict (dict string)) (image : string)
    : M W (string * string) :=
  match split_colon image with
  | Some (name, tag) => mret (name, tag)
  | None =>
      match dict_get repos image with
      | None => raise (KeyError image)
      | Some tags =>
          match dict_keys tags with
          | [] => raise StopIteration
          | tag :: _ => mret (image, tag)
          end
      end
  end.

(** Lines 163-169. *)
Definition lookup_top (repos : dict (dict string)) (name tag : string) : M W string :=
  match dict_get repos name ≫= λ tags, dict_get tags tag with
  | Some top => mret top
  | None =>
      emit (LogError ("failed to find image " +:+ name +:+ " with tag " +:+ tag));;
      raise (SystemExit 1%Z)
  end.

(** The test of line 194 and the path of lines 195-198. *)
Definition is_whiteout (path : string) : bool :=
  startswith ".wh." path || contains "/.wh." path.

Definition newpath_of (path : string) : string :=
  if startswith ".wh." path then suffix_from 4 path
  else replace "/.wh." "/" path.

(** Lines 193-206, for one member. *)
Definition whiteout (member : TarInfo) : M W unit :=
  let path := name member in
  if is_whiteout path then
    let newpath := newpath_of path in
    try_except
      (emit (LogInfo ("removing path " +:+ newpath));;
       do (OsUnlink path);;
       do (OsUnlink newpath))
      (λ err, match err with
              | OSError errno =>
                  if bool_decide (errno ≠ ENOENT) then raise err else mret tt
              | _ => raise err
              end)
  else mret tt.

(** [for member in layer.getmembers()] (line 192). *)
Fixpoint process_whiteouts (ms : list TarInfo) : M W unit :=
  match ms with
  | [] => mret tt
  | member :: ms' => whiteout member;; process_whiteouts ms'
  end.

(** The [errorlevel] that [main] opens a layer archive with (line 188). *)
Definition errorlevel_of (args : Args) : Z :=
  if arg_ignore_errors args then 0 else 1.

(** Lines 185-206: one selected layer. *)
Definition extract_layer (args : Args) (img : Image) (id : string) : M W unit :=
  emit (LogInfo ("extracting layer " +:+ id));;
  match img_layer_tar img !! id with
  | None => raise (not_found (id +:+ "/layer.tar"))
  | Some entries =>
      open_members entries;;
      extractall (errorlevel_of args) (arg_output args) false;;
      if arg_no_whiteouts args then mret tt
      else
        emit (LogInfo "processing whiteouts");;
        ms ← getmembers;
        process_whiteouts ms
  end.

(** [args.layer and id not in args.layer] (line 182). *)
Definition skipped (args : Args) (id : string) : bool :=
  match arg_layer args with
  | Some (x :: l) => negb (bool_decide (id ∈ x :: l))
  | _ => false
  end.

(** [for id in reversed(layers)] (lines 181-206); [ids] is the
    reversed list. *)
Fixpoint extract_layers (args : Args) (img : Image) (ids : list string) : M W unit :=
  match ids with
  | [] => mret tt
  | id :: ids' =>
      (if skipped args id then mret tt else extract_layer args img id);;
      extract_layers args img ids'
  end.

(** [main], from the opened archive on. *)
Definition main (limit : nat) (args : Args) (img : Image) : M W unit :=
  repos ← match img_repositories img with
          | Some repos => mret repos
          | None => raise (not_found "repositories")
          end;
  (if arg_list args then print_repos repos;; raise (SystemExit 0%Z) else mret tt);;
  image ← select_image args repos;
  '(name, tag) ← split_reference repos image;
  top ← lookup_top repos name tag;
  emit (LogInfo ("extracting image " +:+ name +:+ " (" +:+ top +:+ ")"));;
  layers ← find_layers limit img top;
  (if arg_layers args
   then emit (Print (join nl (reverse layers)));; raise (SystemExit 0%Z)
   else mret tt);;
  d ← isdir_path (arg_output args);
  (if d : bool then mret tt else do (OsMkdir (arg_output args)));;
  extract_layers args img (reverse layers).

End Program.

(** ** A file system to run the program on

    An instance of [OS] for concrete runs: a flat tree from normalised
    paths (relative to the working directory of the process) to nodes,
    and a list of paths whose attributes and directory entry the process
    may not change.  [tarfile] reports a failed [chown], [utime] or
    [chmod] as [ExtractError], and [TarFile.extract] lets an [OSError]
    through when [errorlevel] is positive. *)

Module Posix.

Inductive node :=
| Dir (perm : Z)
| File (perm : Z).

Record fs := mkFs {
  tree : gmap string node;
  immutable : list string }.

Definition EPERM : Z := 1.
Definition EEXIST : Z := 17.
Definition EISDIR : Z := 21.

(** The components of a path, split at ["/"]. *)
Fixpoint components (s : string) : list string :=
  match s with
  | EmptyString => [EmptyString]
  | String c s' =>
      if bool_decide (c = "/"%char) then EmptyString :: components s'
      else match components s' with
           | x :: l => String c x :: l
           | [] => [String c EmptyString]
           end
  end.

(** Empty and ["."] components name no step. *)
Definition norm (p : string) : string :=
  (if startswith "/" p then "/" else "") +:+
  join "/" (filter (λ c, c ≠ "" ∧ c ≠ ".") (components p)).

Definition frozen (w : fs) (p : string) : bool := bool_decide (p ∈ immutable w).

Definition put (p : string) (n : node) (w : fs) : fs :=
  mkFs (<[p := n]> (tree w)) (immutable w).

Definition attr (w : fs) (p msg : string) (f : fs → fs) : fs * option exn :=
  match tree w !! p with
  | None => (w, Some (ExtractError msg))
  | Some _ => if frozen w p then (w, Some (ExtractError msg)) else (f w, None)
  end.

Definition chmod (m : Z) (p : string) (w : fs) : fs :=
  match tree w !! p with
  | Some (Dir _) => put p (Dir (Z.land m 4095)) w
  | Some (File _) => put p (File (Z.land m 4095)) w
  | None => w
  end.

Definition extract (errorlevel : Z) (t : TarInfo) (p : string) (set_attrs : bool)
    (w : fs) : fs * option exn :=
  if isdir t then
    match tree w !! p with
    | None => (put p (Dir 448) w, None)
    | Some (Dir _) => (w, None)
    | Some (File _) =>
        (w, if bool_decide (errorlevel > 0)%Z then Some (OSError EEXIST) else None)
    end
  else
    match tree w !! p with
    | Some (Dir _) =>
        (w, if bool_decide (errorlevel > 0)%Z then Some (OSError EISDIR) else None)
    | _ => (put p (File (if set_attrs then Z.land (mode t) 4095 else 420)) w, None)
    end.

Definition unlink (p : string) (w : fs) : fs * option exn :=
  match tree w !! p with
  | None => (w, Some (OSError ENOENT))
  | Some (Dir _) => (w, Some (OSError EISDIR))
  | Some (File _) =>
      if frozen w p then (w, Some (OSError EPERM))
      else (mkFs (delete p (tree w)) (immutable w), None)
  end.

Definition mkdir (p : string) (w : fs) : fs * option exn :=
  match tree w !! p with
  | None => (put p (Dir 493) w, None)
  | Some _ => (w, Some (OSError EEXIST))
  end.

Definition run_call (c : call) (w : fs) : fs * option exn :=
  match c with
  | TarExtract errorlevel t path set_attrs _ =>
      extract errorlevel t (norm (path_join path (name t))) set_attrs w
  | TarChown _ p _ => attr w (norm p) "could not change owner" id
  | TarUtime _ p => attr w (norm p) "could not change modification time" id
  | TarChmod t p => attr w (norm p) "could not change mode" (chmod (mode t) (norm p))
  | OsMkdir p => mkdir (norm p) w
  | OsUnlink p => unlink (norm p) w
  end.

Definition path_isdir (p : string) (w : fs) : bool :=
  bool_decide (norm p = "") ||
  match tree w !! norm p with
  | Some (Dir _) => true
  | _ => false
  end.

Global Instance posix : OS fs := {|
  perform := run_call;
  os_path_isdir := path_isdir |}.

Definition start (w : fs) : state fs := mkState w [] [] [].

(** A regular file and a directory entry of a layer archive. *)
Definition reg (n : string) (m : Z) : TarInfo :=
  mkTarInfo n REGTYPE m 0 0 "root" "root" 0 0 "".
Definition dir (n : string) (m : Z) : TarInfo :=
  mkTarInfo n DIRTYPE m 0 0 "root" "root" 0 0 "".

End Posix.

(** ** Vocabulary of the properties *)

(** [chain img top ids]: [ids] starts at [top], each id is followed by
    the parent that its metadata names, and the last one has no parent. *)
Inductive chain (img : Image) : string → list string → Prop :=
| chain_base id info :
    img_json img !! id = Some info → parent info = None →
    chain img id [id]
| chain_step id info pid rest :
    img_json img !! id = Some info → parent info = Some pid →
    chain img pid rest →
    chain img id (id :: rest).

(** The id reached from [id] after [n] parent links. *)
Fixpoint nth_parent (img : Image) (n : nat) (id : string) : option string :=
  match n with
  | O => Some id
  | S n' =>
      match img_json img !! id with
      | Some info =>
          match parent info with
          | Some pid => nth_parent img n' pid
          | None => None
          end
      | None => None
      end
  end.

(** Following the links from [top] comes back to an id already visited. *)
Definition revisits (img : Image) (top : string) : Prop :=
  ∃ i j x, i < j ∧ nth_parent img i top = Some x ∧ nth_parent img j top = Some x.

(** The layer that a record announces: [LOG.info('extracting layer %s', id)]. *)
Definition announced (r : record) : option string :=
  match r with
  | LogInfo msg =>
      if PyStr.startswith "extracting layer " msg then Some (PyStr.suffix_from 17 msg) else None
  | _ => None
  end.

Definition layers_extracted (rs : list record) : list string := omap announced rs.

(** The recorded mode has the directory kind bit. *)
Definition dirbit (t : TarInfo) : Prop := Z.land (mode t) DIRECTORY_MODE ≠ 0%Z.

(** The object that [chmod] receives for a directory recorded as [t]. *)
Definition final (t : TarInfo) : TarInfo :=
  if decide (dirbit t) then set_mode (Z.lor (mode t) OWNER_WRITE) t else t.

(** The three calls of the second loop for a directory recorded as [m]. *)
Inductive attr_call (path : string) (numeric_owner : bool) (m : TarInfo) : call → Prop :=
| attr_chown : attr_call path numeric_owner m
                 (TarChown m (PyStr.path_join path (name m)) numeric_owner)
| attr_utime : attr_call path numeric_owner m
                 (TarUtime m (PyStr.path_join path (name m)))
| attr_chmod : attr_call path numeric_owner m
                 (TarChmod (final m) (PyStr.path_join path (name m))).

(** The name of the entry that a call is about. *)
Definition call_name (c : call) : string :=
  match c with
  | TarExtract _ t _ _ _ | TarChown t _ _ | TarUtime t _ | TarChmod t _ => name t
  | OsMkdir p | OsUnlink p => p
  end.

(** [a] is a directory above [d]: [d] is [a], a separator and a rest. *)
Definition is_ancestor (a d : string) : Prop := ∃ rest, d = a +:+ "/" +:+ rest.

(** What extraction may do to an object: leave it, or replace the mode of
    a directory whose mode has the kind bit. *)
Definition evolved (m m' : TarInfo) : Prop :=
  m' = m ∨ (isdir m ∧ dirbit m ∧ m' = set_mode (Z.lor (mode m) OWNER_WRITE) m).

(** The calls of the first loop. *)
Definition is_extract (c : call) : Prop :=
  match c with TarExtract _ _ _ _ _ => True | _ => False end.

(** Descending order of entry names, on positions and on calls. *)
Definition name_desc (ms : list TarInfo) : relation nat :=
  λ a b, String.le (name (ms !!! b)) (name (ms !!! a)).
Definition call_desc : relation call :=
  λ c1 c2, String.le (call_name c2) (call_name c1).

(** A program that announces no layer. *)
Definition quiet {W A} (m : M W A) : Prop :=
  ∀ s, layers_extracted (records (m s).1) = layers_extracted (records s).

(** The layers of [ids] that line 182 lets through. *)
Definition selected (args : Args) (ids : list string) : list string :=
  filter (λ id, skipped args id = false) ids.

(** The calls that a program adds when run from [s]. *)
Definition calls_of {W A} (m : M W A) (s : state W) : list call :=
  drop (length (calls s)) (calls (m s).1).

(** The state after the [unlink] calls [cs] of the whiteout [member],
    when they leave the file system as [w]. *)
Definition unlinked {W} (member : TarInfo) (s : state W) (w : W) (cs : list call) : state W :=
  mkState w (members s) (calls s ++ cs)
    (records s ++ [LogInfo ("removing path " +:+ newpath_of (name member))]).

(** The paths handed to [os.unlink], in the order of the calls. *)
Definition unlinked_paths (cs : list call) : list string :=
  omap (λ c, match c with OsUnlink p => Some p | _ => None end) cs.

(** A program that announces the layers of [l], in the order of [l], as
    far as it gets, and all of them when it ends without an exception. *)
Definition announces {W A} (m : M W A) (l : list string) : Prop :=
  ∀ s, (∃ k, layers_extracted (records (m s).1) =
             layers_extracted (records s) ++ take k l) ∧
       (∀ a, (m s).2 = Ok a →
             layers_extracted (records (m s).1) = layers_extracted (records s) ++ l).

(** ** Concrete images *)

Module Examples.

Import Posix.

Definition layer (p : option string) : LayerInfo := mkLayerInfo p None None None None.

(** An empty working directory. *)
Definition clean : fs := mkFs ∅ [].

(** The manifest [{"app": {"v1": "L3"}}] with the chain L3, L2, L1: the
    base layer writes [etc/foo], the top layer holds a whiteout for it. *)
Definition app_image : Image :=
  mkImage (Some [("app", [("v1", "L3")])])
    (list_to_map [("L3", layer (Some "L2")); ("L2", layer (Some "L1")); ("L1", layer None)])
    (list_to_map [("L1", [dir "etc" 16877; reg "etc/foo" 420]);
                  ("L2", [dir "etc" 493; reg "etc/bar" 420]);
                  ("L3", [reg "etc/.wh.foo" 420])]).

(** [undocker3.py -o output image] *)
Definition app_args (output image : string) : Args :=
  mkArgs false output false false None false (Some image).

Definition app_run (output image : string) (w : fs) : state fs * result unit :=
  main 10 (app_args output image) app_image (start w).

(** Two layers that name each other as parent. *)
Definition cycle_image : Image :=
  mkImage (Some [("loop", [("v1", "A")])])
    (list_to_map [("A", layer (Some "B")); ("B", layer (Some "A"))])
    ∅.

(** An open layer archive with one directory, recorded with mode
    [0o40700], and one with mode [0o755], which lacks the kind bit. *)
Definition srv_layer : state fs :=
  mkState clean [dir "srv" 16832; dir "opt" 493] [] [].

(** A working directory in which [out/srv] exists and may not be changed. *)
Definition locked : fs :=
  mkFs (list_to_map [("out", Dir 493); ("out/srv", Dir 448)]) ["out/srv"].

Definition locked_layer : state fs :=
  mkState locked [dir "srv" 16832; dir "opt" 493] [] [].

(** A working directory that holds [etc/foo], which may not be removed:
    the second [unlink] of the whiteout fails with [EPERM]. *)
Definition guarded : fs :=
  mkFs (list_to_map [("etc", Dir 493); ("etc/.wh.foo", File 420); ("etc/foo", File 420)])
       ["etc/foo"].

(** A working directory that holds the marker and no target. *)
Definition marker_only : fs :=
  mkFs (list_to_map [("etc", Dir 493); ("etc/.wh.foo", File 420)]) [].

Definition wh_foo : TarInfo := reg "etc/.wh.foo" 420.

End Examples.

(** ** Frames of a run *)

(** Every run of [m] relates the state it starts in to the state it ends in. *)
Definition ensures {W A} (R : relation (state W)) (m : M W A) : Prop :=
  ∀ s, R s (m s).1.

Definition is_debug (r : record) : Prop :=
  match r with LogDebug _ => True | _ => False end.

(** [s'] is [s] with debug records added and nothing else changed. *)
Definition logs_debug {W} : relation (state W) := λ s s',
  world s' = world s ∧ members s' = members s ∧ calls s' = calls s ∧
  ∃ rs, records s' = records s ++ rs ∧ Forall is_debug rs.

(** The paths handed to [os.mkdir], in the order of the calls. *)
Definition mkdir_paths (cs : list call) : list string :=
  omap (λ c, match c with OsMkdir p => Some p | _ => None end) cs.

(** The calls between [s] and [s'] do not show under [f]. *)
Definition same_on {W X} (f : list call → X) : relation (state W) := λ s s',
  f (calls s') = f (calls s).

(** The calls of [TarFile] methods. *)
Definition is_tar (c : call) : Prop :=
  match c with OsMkdir _ | OsUnlink _ => False | _ => True end.

(** The calls of [os.unlink]. *)
Definition is_unlink (c : call) : Prop :=
  match c with OsUnlink _ => True | _ => False end.

(** The objects of the open archive keep their names from [s] to [s']. *)
Definition same_names {W} : relation (state W) := λ s s',
  name <$> members s' = name <$> members s.

(** [p] is the path of a whiteout entry among [ms], or the path that
    lines 195-198 derive from it. *)
Definition whiteout_path (ms : list TarInfo) (p : string) : Prop :=
  ∃ m, m ∈ ms ∧ is_whiteout (name m) = true ∧ (p = name m ∨ p = newpath_of (name m)).

(** [p] is such a path for a layer archive of the image. *)
Definition image_whiteout_path (img : Image) (p : string) : Prop :=
  ∃ id entries, img_layer_tar img !! id = Some entries ∧ whiteout_path entries p.

(** From [s] to [s'], [unlink] was called on paths that satisfy [P] only. *)
Definition unlinks_only {W} (P : string → Prop) : relation (state W) := λ s s',
  ∃ ps, unlinked_paths (calls s') = unlinked_paths (calls s) ++ ps ∧ Forall P ps.

(** From [s] to [s'], the calls made satisfy [P]. *)
Definition calls_only {W} (P : call → Prop) : relation (state W) := λ s s',
  ∃ cs, calls s' = calls s ++ cs ∧ Forall P cs.

(** A call as [main] makes it for the command line [args]: what is
    written, is written to a path under [args.output]. *)
Definition output_call (args : Args) (c : call) : Prop :=
  match c with
  | TarExtract errorlevel _ path _ numeric_owner =>
      errorlevel = errorlevel_of args ∧ path = arg_output args ∧ numeric_owner = false
  | TarChown t p numeric_owner =>
      p = path_join (arg_output args) (name t) ∧ numeric_owner = false
  | TarUtime t p | TarChmod t p => p = path_join (arg_output args) (name t)
  | OsMkdir p => p = arg_output args
  | OsUnlink _ => True
  end.

(** Neither a call nor a change of the file system or of the open
    archive between [s] and [s']. *)
Definition untouched {W} : relation (state W) := λ s s',
  world s' = world s ∧ members s' = members s ∧ calls s' = calls s.

(** The command line with another [image] argument. *)
Definition with_image (args : Args) (image : string) : Args :=
  mkArgs (arg_ignore_errors args) (arg_output args) (arg_layers args) (arg_list args)
         (arg_layer args) (arg_no_whiteouts args) (Some image).

(** The line that [--list] prints for one repository. *)
Definition repo_line (repo : string * dict string) : record :=
  Print (repo.1 +:+ ": " +:+ join " " (dict_keys repo.2)).

(** The call of the first loop for an object [m] of the archive. *)
Definition extract_call (errorlevel : Z) (path : string) (numeric_owner : bool)
    (m : TarInfo) : call :=
  TarExtract errorlevel (if isdir m then set_mode OWNER_READ_WRITE m else m) path
             (negb (isdir m)) numeric_owner.

(** The calls of the second loop for a directory recorded as [m], when
    none of them fails. *)
Definition attr_calls (path : string) (numeric_owner : bool) (m : TarInfo) : list call :=
  [TarChown m (path_join path (name m)) numeric_owner;
   TarUtime m (path_join path (name m));
   TarChmod (final m) (path_join path (name m))].

Module MoreExamples.

Import Posix.

(** A chain whose base layer has no metadata in the archive. *)
Definition broken_image : Image :=
  mkImage (Some [("app", [("v1", "L2")])])
    (list_to_map [("L2", Examples.layer (Some "L1"))])
    ∅.

(** A manifest with two repositories, the first with two tags. *)
Definition two_repos : Image :=
  mkImage (Some [("app", [("v1", "L3"); ("v2", "L2")]); ("db", [("latest", "L1")])])
    (list_to_map [("L3", Examples.layer (Some "L2")); ("L2", Examples.layer (Some "L1"));
                  ("L1", Examples.layer None)])
    (list_to_map [("L1", [dir "etc" 16877; reg "etc/foo" 420]);
                  ("L2", [dir "etc" 493; reg "etc/bar" 420]);
                  ("L3", [reg "etc/.wh.foo" 420])]).

(** A working directory that holds the target of the whiteout
    [etc/.wh.foo] and no marker. *)
Definition target_only : fs :=
  mkFs (list_to_map [("etc", Dir 493); ("etc/foo", File 420)]) [].

(** [undocker3.py] with no argument, and with [--list]. *)
Definition no_args : Args := mkArgs false "." false false None false None.
Definition list_args : Args := mkArgs false "." false true None false None.

End MoreExamples.

(** ** Vocabulary of the order of the calls and of the failures *)

(** The [extract] calls among [cs], in the order of the calls. *)
Definition extract_calls (cs : list call) : list call :=
  omap (λ c, match c with TarExtract _ _ _ _ _ => Some c | _ => None end) cs.

(** The [extract] calls that [main] makes for the layer [id]: one for
    each member of its archive, in the order of the archive. *)
Definition layer_extracts (args : Args) (img : Image) (id : string) : list call :=
  extract_call (errorlevel_of args) (arg_output args) false <$>
    default [] (img_layer_tar img !! id).

(** A program whose [extract] calls are those of [l], in the order of
    [l], as far as it gets, and all of them when it ends without an
    exception. *)
Definition extracts {W A} (m : M W A) (l : list call) : Prop :=
  ∀ s, (∃ l', l' `prefix_of` l ∧
              extract_calls (calls (m s).1) = extract_calls (calls s) ++ l') ∧
       (∀ a, (m s).2 = Ok a →
             extract_calls (calls (m s).1) = extract_calls (calls s) ++ l).

(** The command line with other [--layer] arguments. *)
Definition with_layer (args : Args) (l : list string) : Args :=
  mkArgs (arg_ignore_errors args) (arg_output args) (arg_layers args) (arg_list args)
         (Some l) (arg_no_whiteouts args) (arg_image args).

(** The entries of the archive that the second loop visits, in the
    order of its visits. *)
Definition deferred (ms : list TarInfo) : list TarInfo :=
  (λ r, ms !!! r) <$>
    reverse_sorted ms (filter (λ r, isdir (ms !!! r)) (seq 0 (length ms))).

(** The exception that a result holds. *)
Definition raised {A} (r : result A) : option exn :=
  match r with Ok _ => None | Raise e => Some e end.

(** The exceptions that the program does not raise itself: they come
    from the calls. *)
Definition external (e : exn) : Prop :=
  match e with OSError _ | ExtractError _ => True | _ => False end.

(** The answers of the environment to the calls [cs], made one after
    the other from the state [w] of the file system: every call with the
    exception that it raised, if any, and the state that the calls
    leave. *)
Fixpoint replay {W} `{!OS W} (cs : list call) (w : W) : W * list (call * option exn) :=
  match cs with
  | [] => (w, [])
  | c :: cs' =>
      let '(w1, r) := perform c w in
      let '(w2, l) := replay cs' w1 in
      (w2, (c, r) :: l)
  end.

(** [l] are the answers to the calls of a run that ends with [r].  An
    [unlink] that raised anything but [OSError] with [ENOENT] is the last
    call, and what it raised ends the run; and an exception from the
    environment that ends the run is the answer to the last call, which
    is not an [unlink] answered with [ENOENT]. *)
Definition unlink_policy (l : list (call * option exn)) (r : option exn) : Prop :=
  (∀ i p e, l !! i = Some (OsUnlink p, Some e) → e ≠ OSError ENOENT →
            S i = length l ∧ r = Some e) ∧
  (∀ e, r = Some e → external e →
        ∃ c, last l = Some (c, Some e) ∧ (is_unlink c → e ≠ OSError ENOENT)).

(** A run of [m] from [s] made the calls [cs], which the environment
    answered with [l]. *)
Definition answered {W A} `{!OS W} (m : M W A) (s : state W)
    (cs : list call) (l : list (call * option exn)) : Prop :=
  calls (m s).1 = calls s ++ cs ∧ replay cs (world s) = (world (m s).1, l).

(** Every run of [m] keeps to the policy. *)
Definition accounts {W A} `{!OS W} (m : M W A) : Prop :=
  ∀ s, ∃ cs l, answered m s cs l ∧ unlink_policy l (raised (m s).2).

(** A program that calls no [unlink], and that an exception from the
    environment leaves only as the answer to its last call. *)
Definition tar_only {W A} `{!OS W} (m : M W A) : Prop :=
  ∀ s, ∃ cs l, answered m s cs l ∧
    Forall (λ a, ¬ is_unlink a.1) l ∧
    (∀ e, raised (m s).2 = Some e → external e → ∃ c, last l = Some (c, Some e)).

(** A program that makes no call and raises no exception of the
    environment. *)
Definition internal {W A} (m : M W A) : Prop :=
  ∀ s, world (m s).1 = world s ∧ calls (m s).1 = calls s ∧
       ∀ e, (m s).2 = Raise e → ¬ external e.

Module Cases.

Import Posix.

(** An open layer archive with a directory, a directory below it, and a
    file in the latter. *)
Definition nested_layer : state fs :=
  mkState Examples.clean [dir "a" 16877; dir "a/b" 16877; reg "a/b/f" 420] [] [].

(** An open layer archive that names a directory and, in another
    spelling, a directory below it. *)
Definition respelled_layer : state fs :=
  mkState Examples.clean [dir "a" 16877; dir "./a/b" 16877] [] [].

(** [undocker3.py -l L3 app:v1]: the top layer only. *)
Definition top_only : Args :=
  mkArgs false "." false false (Some ["L3"]) false (Some "app:v1").

(** Empty working directories in which the target of the whiteout
    [etc/.wh.foo], or its marker, may not be removed once it is there. *)
Definition kept_target : fs := mkFs ∅ ["etc/foo"].
Definition kept_marker : fs := mkFs ∅ ["etc/.wh.foo"].

(** The answers of the file system [w] to the calls of the run of
    [main] on the image of the examples. *)
Definition answers (args : Args) (w : fs) : list (call * option exn) :=
  (replay (calls (main 10 args Examples.app_image (start w)).1) w).2.

End Cases.

(** ** Running programs *)

Section RunLemmas.
Context {W : Type} `{!OS W}.

Lemma run_bind {A B} (m : M W A) (k : A → M W B) s :
  (m ≫= k) s = match m s with
               | (s', Ok a) => k a s'
               | (s', Raise e) => (s', Raise e)
               end.
Proof. reflexivity. Qed.

End RunLemmas.

(** Unfolding the monad and its primitive operations. *)
Ltac mrun :=
  cbv beta iota zeta delta
    [mbind M_bind mret M_ret do deref assign_mode emit raise try_except
     getmembers open_members isdir_path];
  simpl.

(** Case analysis on the answer of the environment to the next call. *)
Ltac case_perform :=
  match goal with
  | |- context [perform ?c ?w] =>
      let w' := fresh "w" in
      let e := fresh "e" in
      destruct (perform c w) as [w' [e|]]; mrun
  end.

(** ** The chain walk *)

Section Walk.
Context {W : Type} `{!OS W}.

Lemma seq_log_key {A} k v (m : M W A) s : ∃ s', (log_key k v;; m) s = m s'.
Proof. destruct v; rewrite run_bind; simpl; eauto. Qed.

(** One level of the generator, once the metadata is read. *)
Lemma find_layers_step limit img id info (s : state W) :
  img_json img !! id = Some info →
  ∃ s1, find_layers (S limit) img id s =
        match parent info with
        | Some pid => (rest ← find_layers limit img pid; mret (id :: rest)) s1
        | None => (s1, Ok [id])
        end.
Proof.
  intros Hj. simpl. rewrite Hj, run_bind. simpl.
  edestruct (seq_log_key (A:=list string) "os") as [s1 ->].
  edestruct (seq_log_key (A:=list string) "architecture") as [s2 ->].
  edestruct (seq_log_key (A:=list string) "author") as [s3 ->].
  edestruct (seq_log_key (A:=list string) "created") as [s4 ->].
  exists s4. by destruct (parent info).
Qed.

(** Enough frames: the walk returns the chain. *)
Lemma find_layers_chain img top ids :
  chain img top ids →
  ∀ limit (s : state W), length ids ≤ limit →
    (find_layers limit img top s).2 = Ok ids.
Proof.
  induction 1 as [id info Hj Hp | id info pid rest Hj Hp Hc IH];
    intros [|limit] s Hl; simpl in Hl; try lia;
    destruct (find_layers_step limit img id info s Hj) as [s1 ->];
    rewrite Hp; [done|].
  rewrite run_bind. specialize (IH limit s1 ltac:(lia)).
  destruct (find_layers limit img pid s1) as [s2 r]. simpl in IH. by subst r.
Qed.

Lemma nth_parent_add img a b id :
  nth_parent img (a + b) id = nth_parent img a id ≫= nth_parent img b.
Proof.
  revert id. induction a as [|a IH]; intros id; simpl; [done|].
  destruct (img_json img !! id) as [info|]; [|done].
  destruct (parent info); [apply IH|done].
Qed.

Lemma nth_parent_loop img d x k :
  nth_parent img d x = Some x → nth_parent img (k * d) x = Some x.
Proof.
  intros Hd. induction k as [|k IH]; simpl; [done|].
  rewrite nth_parent_add, Hd. apply IH.
Qed.

(** A revisit makes the walk endless: every step has a next one. *)
Lemma revisits_endless img top :
  revisits img top → ∀ n, is_Some (nth_parent img n top).
Proof.
  intros (i & j & x & Hij & Hi & Hj) n.
  assert (Hd : nth_parent img (j - i) x = Some x).
  { replace j with (i + (j - i)) in Hj by lia.
    by rewrite nth_parent_add, Hi in Hj. }
  assert (He : nth_parent img (n + (i + n * (j - i) - n)) top = Some x).
  { replace (n + (i + n * (j - i) - n)) with (i + n * (j - i)) by nia.
    rewrite nth_parent_add, Hi. simpl. by apply nth_parent_loop. }
  rewrite nth_parent_add in He.
  destruct (nth_parent img n top); [eauto|done].
Qed.

(** An endless walk uses up every limit. *)
Lemma find_layers_endless img :
  ∀ limit top (s : state W),
    (∀ n, is_Some (nth_parent img n top)) →
    (find_layers limit img top s).2 = Raise RecursionError.
Proof.
  induction limit as [|limit IH]; intros top s Hn; [done|].
  destruct (Hn 1) as [y Hy]. simpl in Hy.
  destruct (img_json img !! top) as [info|] eqn:Hj; [|done].
  destruct (parent info) as [pid|] eqn:Hp; [|done].
  destruct (find_layers_step limit img top info s Hj) as [s1 ->].
  rewrite Hp, run_bind.
  assert (Hpid : ∀ n, is_Some (nth_parent img n pid)).
  { intros n. specialize (Hn (S n)). simpl in Hn. by rewrite Hj, Hp in Hn. }
  specialize (IH pid s1 Hpid).
  destruct (find_layers limit img pid s1) as [s2 r]. simpl in IH. by subst r.
Qed.

End Walk.

(** ** The second loop of extractall *)

Section PostPass.
Context {W : Type} `{!OS W}.
Implicit Types (s : state W) (ds : list nat).

Lemma final_name m : name (final m) = name m.
Proof. unfold final. by case_decide. Qed.

Lemma lookup_total_alter_self (f : TarInfo → TarInfo) (ms : list TarInfo) (r : nat) :
  dirbit (ms !!! r) → alter f r ms !!! r = f (ms !!! r).
Proof.
  intros Hd. destruct (decide (r < length ms)) as [Hr|Hr].
  - by apply list_lookup_total_alter_eq.
  - exfalso. apply Hd. rewrite list_lookup_total_alt, lookup_ge_None_2 by lia. done.
Qed.

Lemma attr_chmod_eq path numeric_owner m t :
  t = final m →
  attr_call path numeric_owner m (TarChmod t (path_join path (name m))).
Proof. intros ->. constructor. Qed.

(** The body of the [try] for one directory: the calls made, and what
    happens to the objects. *)
Lemma set_attrs_body_run path numeric_owner r s s1 res :
  set_attrs_body path numeric_owner r s = (s1, res) →
  let m := members s !!! r in
  records s1 = records s ∧
  (∃ cs, calls s1 = calls s ++ cs ∧ Forall (attr_call path numeric_owner m) cs) ∧
  (members s1 = members s ∨
   (dirbit m ∧ members s1 = alter (set_mode (Z.lor (mode m) OWNER_WRITE)) r (members s))).
Proof.
  unfold set_attrs_body. mrun.
  case_perform.
  { intros [= <- <-]. simpl. split_and!; [done| |by left].
    eexists [_]. split; [done|]. repeat constructor. }
  case_perform.
  { intros [= <- <-]. simpl. split_and!; [done| |by left].
    eexists [_; _]. rewrite <-(assoc_L (++)). split; [done|]. repeat constructor. }
  case_bool_decide as Hd; mrun.
  - rewrite lookup_total_alter_self by done.
    case_perform; intros [= <- <-]; simpl; (split_and!; [done| |by right]);
      eexists [_; _; _]; rewrite <-!(assoc_L (++)); (split; [done|]);
      repeat (apply Forall_cons; split; [try constructor|]); try done.
    all: apply attr_chmod_eq; unfold final; by rewrite decide_True.
  - case_perform; intros [= <- <-]; simpl; (split_and!; [done| |by left]);
      eexists [_; _; _]; rewrite <-!(assoc_L (++)); (split; [done|]);
      repeat (apply Forall_cons; split; [try constructor|]); try done.
    all: apply attr_chmod_eq; unfold final; rewrite decide_False; [done|by intros Hn; apply Hn].
Qed.

Lemma set_attrs_handler_run errorlevel e s s1 res :
  set_attrs_handler errorlevel e s = (s1, res) →
  calls s1 = calls s ∧ members s1 = members s ∧ world s1 = world s.
Proof.
  unfold set_attrs_handler, raise, emit.
  destruct e; try case_bool_decide; intros [= <- <-]; done.
Qed.

(** One directory, with the handler. *)
Lemma set_attrs_one errorlevel path numeric_owner r s s1 res :
  try_except (set_attrs_body path numeric_owner r)
             (set_attrs_handler errorlevel) s = (s1, res) →
  let m := members s !!! r in
  (∃ cs, calls s1 = calls s ++ cs ∧ Forall (attr_call path numeric_owner m) cs) ∧
  (members s1 = members s ∨
   (dirbit m ∧ members s1 = alter (set_mode (Z.lor (mode m) OWNER_WRITE)) r (members s))).
Proof.
  unfold try_except.
  destruct (set_attrs_body path numeric_owner r s) as [s0 [[]|e]] eqn:Hb;
    apply set_attrs_body_run in Hb as (_ & Hc & Hm).
  - by intros [= <- <-].
  - intros (Hc' & Hm' & _)%set_attrs_handler_run. by rewrite Hc', Hm'.
Qed.

Lemma set_attrs_one_frame errorlevel path numeric_owner r s s1 res r' :
  try_except (set_attrs_body path numeric_owner r)
             (set_attrs_handler errorlevel) s = (s1, res) →
  r' ≠ r → members s1 !!! r' = members s !!! r'.
Proof.
  intros [_ [->|[_ ->]]]%set_attrs_one Hne; [done|].
  by apply list_lookup_total_alter_ne.
Qed.

Lemma attr_call_name path numeric_owner m c :
  attr_call path numeric_owner m c → call_name c = name m.
Proof. destruct 1; simpl; auto using final_name. Qed.

(** The whole loop: every call comes from a directory of the list, for
    the object as it was recorded; and a list in descending order of
    names gives calls in descending order of names. *)
Lemma set_directory_attrs_calls errorlevel path numeric_owner ds :
  NoDup ds → ∀ s,
  ∃ cs, calls (set_directory_attrs errorlevel path numeric_owner ds s).1 = calls s ++ cs ∧
    Forall (λ c, ∃ r, r ∈ ds ∧ attr_call path numeric_owner (members s !!! r) c) cs ∧
    (StronglySorted (λ a b, String.le (name (members s !!! b)) (name (members s !!! a))) ds →
     StronglySorted (λ c1 c2, String.le (call_name c2) (call_name c1)) cs).
Proof.
  induction 1 as [|r ds Hr Hnd IH]; intros s; simpl.
  { exists []. rewrite (right_id_L [] (++)). split_and!; [done|constructor|constructor]. }
  rewrite run_bind.
  destruct (try_except _ _ s) as [s1 res] eqn:H1.
  pose proof (set_attrs_one _ _ _ _ _ _ _ H1) as [(cs1 & Hc1 & Hf1) _].
  assert (Hblock : Forall (λ c, ∃ r0, r0 ∈ r :: ds ∧
            attr_call path numeric_owner (members s !!! r0) c) cs1).
  { eapply Forall_impl; [exact Hf1|]. intros c Hc. exists r. split; [left|done]. }
  assert (Hsame : StronglySorted (λ c1 c2, String.le (call_name c2) (call_name c1)) cs1).
  { clear -Hf1. induction Hf1 as [|c cs Hc Hcs IHcs]; constructor; [done|].
    eapply Forall_impl; [exact Hcs|]. intros c' Hc'. simpl.
    by rewrite (attr_call_name _ _ _ _ Hc), (attr_call_name _ _ _ _ Hc'). }
  destruct res as [[]|e]; simpl.
  2:{ exists cs1. by split_and!. }
  destruct (IH s1) as (cs2 & Hc2 & Hf2 & Hs2).
  assert (Hfr : ∀ r', r' ∈ ds → members s1 !!! r' = members s !!! r').
  { intros r' Hin. eapply set_attrs_one_frame; [done|]. intros ->. done. }
  exists (cs1 ++ cs2). split_and!.
  - by rewrite Hc2, Hc1, (assoc_L (++)).
  - apply Forall_app. split; [done|].
    eapply Forall_impl; [exact Hf2|]. intros c (r' & Hin & Hc).
    exists r'. split; [by right|]. by rewrite <-Hfr.
  - intros [Hall Hds]%StronglySorted_cons. apply StronglySorted_app. split_and!; [|done|].
    + intros c1 c2 Hin1 Hin2.
      destruct (proj1 (Forall_forall _ _) Hf2 _ Hin2) as (r' & Hr' & Hc').
      rewrite (attr_call_name _ _ _ _ (proj1 (Forall_forall _ _) Hf1 _ Hin1)).
      rewrite (attr_call_name _ _ _ _ Hc'), Hfr by done.
      by apply (proj1 (Forall_forall _ _) Hall).
    + apply Hs2. clear -Hds Hfr.
      induction Hds as [|a l Hl IHl Ha]; constructor.
      * apply IHl. intros r' Hin. apply Hfr. by right.
      * apply Forall_forall. intros b Hb.
        rewrite !Hfr by (by repeat constructor).
        by apply (proj1 (Forall_forall _ _) Ha).
Qed.

End PostPass.

(** ** The first loop and the sort *)

Section Extractall.
Context {W : Type} `{!OS W}.
Implicit Types (s : state W) (ds : list nat) (ms : list TarInfo).

(** The first loop works on copies: the objects stay as they are, and
    the positions of the directories are collected in order. *)
Lemma extract_members_run errorlevel path numeric_owner refs :
  ∀ ds s s1 res,
    extract_members errorlevel path numeric_owner refs ds s = (s1, res) →
    members s1 = members s ∧ records s1 = records s ∧
    (∃ cs, calls s1 = calls s ++ cs ∧ Forall is_extract cs) ∧
    (∀ ds', res = Ok ds' →
       ds' = ds ++ filter (λ r, isdir (members s !!! r)) refs).
Proof.
  induction refs as [|r refs IH]; intros ds s s1 res; simpl.
  { intros [= <- <-]. split_and!; [done..| |].
    - exists []. by rewrite (right_id_L [] (++)).
    - intros ds' [= <-]. by rewrite filter_nil, (right_id_L [] (++)). }
  mrun. rewrite filter_cons.
  destruct (isdir (members s !!! r)) eqn:Hd; mrun.
  - case_perform.
    + intros [= <- <-]. simpl. split_and!; [done..| |done].
      eexists [_]. split; [done|]. by repeat constructor.
    + intros (Hm & Hr & (cs & Hc & Hf) & Hds)%IH. simpl in *.
      split_and!; [done..| |].
      * eexists (_ :: cs). rewrite Hc, <-(assoc_L (++)). split; [done|].
        by constructor.
      * intros ds' ->%Hds. by rewrite <-(assoc_L (++)).
  - case_perform.
    + intros [= <- <-]. simpl. split_and!; [done..| |done].
      eexists [_]. split; [done|]. by repeat constructor.
    + intros (Hm & Hr & (cs & Hc & Hf) & Hds)%IH. simpl in *.
      split_and!; [done..| |].
      * eexists (_ :: cs). rewrite Hc, <-(assoc_L (++)). split; [done|].
        by constructor.
      * intros ds' ->%Hds. done.
Qed.

Lemma insert_by_name_perm ms r l : insert_by_name ms r l ≡ₚ r :: l.
Proof.
  induction l as [|r' l IH]; simpl; [done|].
  destruct (String.leb _ _); [done|]. by rewrite IH, Permutation_swap.
Qed.

Lemma sort_by_name_perm ms l : sort_by_name ms l ≡ₚ l.
Proof.
  induction l as [|r l IH]; simpl; [done|].
  by rewrite insert_by_name_perm, IH.
Qed.

Lemma insert_by_name_sorted ms r l :
  StronglySorted (flip (name_desc ms)) l →
  StronglySorted (flip (name_desc ms)) (insert_by_name ms r l).
Proof.
  induction 1 as [|r' l Hl IH Hr']; simpl; [by repeat constructor|].
  destruct (String.leb (name (ms !!! r)) (name (ms !!! r'))) eqn:Hle.
  - constructor; [by constructor|]. constructor.
    + unfold flip, name_desc, String.le. by rewrite Hle.
    + eapply Forall_impl; [exact Hr'|]. intros b Hb.
      unfold flip, name_desc in *. etrans; [|exact Hb].
      unfold String.le. by rewrite Hle.
  - constructor; [done|].
    rewrite insert_by_name_perm. constructor; [|done].
    unfold flip, name_desc.
    destruct (total String.le (name (ms !!! r)) (name (ms !!! r'))) as [H1|H1]; [|done].
    unfold String.le in H1. by rewrite Hle in H1.
Qed.

Lemma sort_by_name_sorted ms l : StronglySorted (flip (name_desc ms)) (sort_by_name ms l).
Proof.
  induction l as [|r l IH]; simpl; [constructor|]. by apply insert_by_name_sorted.
Qed.

Lemma StronglySorted_reverse_flip {A} (R : relation A) (l : list A) :
  StronglySorted (flip R) l → StronglySorted R (reverse l).
Proof.
  induction 1 as [|x l Hl IH Hx]; [constructor|].
  rewrite reverse_cons. apply StronglySorted_app. split_and!; [|done|by repeat constructor].
  intros a b Ha ->%list_elem_of_singleton.
  apply (proj1 (elem_of_reverse _ _)) in Ha.
  exact (proj1 (Forall_forall (flip R x) l) Hx a Ha).
Qed.

(** Lines 52-54: the same directories, in descending order of names. *)
Lemma reverse_sorted_perm ms ds : reverse_sorted ms ds ≡ₚ ds.
Proof. unfold reverse_sorted. by rewrite reverse_Permutation, sort_by_name_perm. Qed.

Lemma reverse_sorted_desc ms ds : StronglySorted (name_desc ms) (reverse_sorted ms ds).
Proof. apply StronglySorted_reverse_flip, sort_by_name_sorted. Qed.

(** What the second loop does to the objects. *)
Lemma set_directory_attrs_members errorlevel path numeric_owner ds :
  NoDup ds → ∀ s i m,
    members s !! i = Some m →
    ∃ m', members (set_directory_attrs errorlevel path numeric_owner ds s).1 !! i = Some m' ∧
      (m' = m ∨
       (i ∈ ds ∧ dirbit m ∧ m' = set_mode (Z.lor (mode m) OWNER_WRITE) m)).
Proof.
  induction 1 as [|r ds Hr Hnd IH]; intros s i m Hi; simpl; [by eauto|].
  rewrite run_bind.
  destruct (try_except _ _ s) as [s1 res] eqn:H1.
  pose proof (set_attrs_one _ _ _ _ _ _ _ H1) as [_ Hm].
  assert (Hi1 : members s1 !! i = Some m ∨
            (i = r ∧ dirbit m ∧
             members s1 !! i = Some (set_mode (Z.lor (mode m) OWNER_WRITE) m))).
  { destruct Hm as [->|[Hd ->]]; [by left|].
    destruct (decide (i = r)) as [->|Hne].
    - right. rewrite (list_lookup_total_correct _ _ _ Hi) in Hd |- *.
      split_and!; [done..|]. by rewrite list_lookup_alter_eq, Hi.
    - left. by rewrite list_lookup_alter_ne. }
  destruct res as [[]|e]; simpl.
  - destruct Hi1 as [Hi1|(-> & Hd & Hi1)].
    + destruct (IH s1 i m Hi1) as (m' & Hm' & [->|(Hin & Hd & ->)]);
        eexists; (split; [done|]); [by left|].
      right. split_and!; [by right|done..].
    + destruct (IH s1 r _ Hi1) as (m' & Hm' & [->|(Hin & _)]); [|done].
      eexists. split; [done|]. right. split_and!; [by left|done..].
  - destruct Hi1 as [Hi1|(-> & Hd & Hi1)]; eexists; (split; [done|]); [by left|].
    right. split_and!; [by left|done..].
Qed.

End Extractall.

(** ** extractall as a whole *)

Section ExtractallWhole.
Context {W : Type} `{!OS W}.
Implicit Types (s : state W) (ds : list nat) (ms : list TarInfo).

(** The directories that reach the second loop. *)
Lemma deferred_spec s r :
  r ∈ filter (λ r, isdir (members s !!! r)) (seq 0 (length (members s))) →
  ∃ m, members s !! r = Some m ∧ members s !!! r = m ∧ isdir m.
Proof.
  intros [Hd Hr]%list_elem_of_filter. apply elem_of_seq in Hr as [_ Hr].
  destruct (lookup_lt_is_Some_2 (members s) r) as [m Hm]; [simpl in *; lia|].
  exists m. rewrite (list_lookup_total_correct _ _ _ Hm) in Hd |- *. done.
Qed.

Lemma deferred_NoDup s ms :
  NoDup (reverse_sorted ms
           (filter (λ r, isdir (members s !!! r)) (seq 0 (length (members s))))).
Proof. rewrite reverse_sorted_perm. apply NoDup_filter, NoDup_seq. Qed.

(** The calls of [extractall]: those of the first loop, then those of
    the second, each for a recorded directory and in descending order
    of names. *)
Lemma extractall_calls errorlevel path numeric_owner s :
  ∃ cs1 cs2,
    calls (extractall errorlevel path numeric_owner s).1 = calls s ++ cs1 ++ cs2 ∧
    Forall is_extract cs1 ∧
    Forall (λ c, ∃ r m, members s !! r = Some m ∧ isdir m ∧
                        attr_call path numeric_owner m c) cs2 ∧
    StronglySorted call_desc cs2.
Proof.
  unfold extractall. mrun.
  destruct (extract_members _ _ _ _ _ s) as [s1 res] eqn:H1.
  apply extract_members_run in H1 as (Hm & Hr & (cs1 & Hc1 & Hf1) & Hds).
  destruct res as [ds|e]; simpl.
  2:{ exists cs1, []. rewrite (right_id_L [] (++)). split_and!; [done..|constructor|constructor]. }
  rewrite (Hds ds eq_refl). simpl. rewrite Hm.
  destruct (set_directory_attrs_calls errorlevel path numeric_owner _
              (deferred_NoDup s (members s)) s1) as (cs2 & Hc2 & Hf2 & Hs2).
  exists cs1, cs2. split_and!; [|done| |].
  - by rewrite Hc2, Hc1, (assoc_L (++)).
  - eapply Forall_impl; [exact Hf2|]. intros c (r & Hin & Hc).
    rewrite reverse_sorted_perm in Hin.
    destruct (deferred_spec s r Hin) as (m & Hl & Ht & Hd).
    exists r, m. rewrite Hm, Ht in Hc. done.
  - apply Hs2. rewrite Hm. apply reverse_sorted_desc.
Qed.

(** The objects after [extractall]. *)
Lemma extractall_members errorlevel path numeric_owner s i m :
  members s !! i = Some m →
  ∃ m', members (extractall errorlevel path numeric_owner s).1 !! i = Some m' ∧
        evolved m m'.
Proof.
  intros Hi. unfold extractall. mrun.
  destruct (extract_members _ _ _ _ _ s) as [s1 res] eqn:H1.
  apply extract_members_run in H1 as (Hm & Hr & _ & Hds).
  destruct res as [ds|e]; simpl.
  2:{ exists m. rewrite Hm. split; [done|by left]. }
  rewrite (Hds ds eq_refl). simpl. rewrite Hm.
  rewrite <-Hm in Hi.
  destruct (set_directory_attrs_members errorlevel path numeric_owner _
              (deferred_NoDup s (members s)) s1 i m Hi) as (m' & Hm' & Hev).
  exists m'. split; [done|].
  destruct Hev as [->|(Hin & Hd & ->)]; [by left|]. right.
  rewrite reverse_sorted_perm in Hin.
  destruct (deferred_spec s i Hin) as (m0 & Hl & _ & Hdir).
  rewrite Hm in Hi. by simplify_eq.
Qed.

End ExtractallWhole.

(** ** The order of extraction *)

Create HintDb quiet.

Section Order.
Context {W : Type} `{!OS W}.
Implicit Types (s : state W).

Lemma layers_extracted_snoc rs r :
  layers_extracted (rs ++ [r]) =
  layers_extracted rs ++ match announced r with Some id => [id] | None => [] end.
Proof.
  unfold layers_extracted. rewrite omap_app. simpl. by destruct (announced r).
Qed.

Lemma quiet_ret {A} (a : A) : quiet (W:=W) (mret a).
Proof. done. Qed.

Lemma quiet_raise {A} e : quiet (W:=W) (A:=A) (raise e).
Proof. done. Qed.

Lemma quiet_bind {A B} (m : M W A) (k : A → M W B) :
  quiet m → (∀ a, quiet (k a)) → quiet (m ≫= k).
Proof.
  intros Hm Hk s. rewrite run_bind. specialize (Hm s).
  destruct (m s) as [s1 [a|e]]; simpl in *; [|done].
  by rewrite Hk.
Qed.

Lemma quiet_try {A} (m : M W A) h :
  quiet m → (∀ e, quiet (h e)) → quiet (try_except m h).
Proof.
  intros Hm Hh s. unfold try_except. specialize (Hm s).
  destruct (m s) as [s1 [a|e]]; simpl in *; [done|].
  by rewrite Hh.
Qed.

Lemma quiet_emit r : announced r = None → quiet (W:=W) (emit r).
Proof.
  intros Hr s. unfold emit. cbn [fst records].
  by rewrite layers_extracted_snoc, Hr, (right_id_L [] (++)).
Qed.

Lemma quiet_do c : quiet (do c).
Proof. intros s. unfold do. by destruct (perform c (world s)). Qed.

Lemma quiet_deref r : quiet (W:=W) (deref r).
Proof. done. Qed.

Lemma quiet_assign_mode r m : quiet (W:=W) (assign_mode r m).
Proof. done. Qed.

Lemma quiet_getmembers : quiet (W:=W) getmembers.
Proof. done. Qed.

Lemma quiet_open_members l : quiet (W:=W) (open_members l).
Proof. done. Qed.

Lemma quiet_if {A} (b : bool) (m1 m2 : M W A) :
  quiet m1 → quiet m2 → quiet (if b then m1 else m2).
Proof. by destruct b. Qed.

Local Hint Resolve quiet_ret quiet_raise quiet_emit quiet_do quiet_deref
  quiet_assign_mode quiet_getmembers quiet_open_members : quiet.

Ltac quiet_tac :=
  repeat first
    [ solve [eauto with quiet]
    | apply quiet_bind; [|intros ?]
    | apply quiet_try; [|intros ?]
    | apply quiet_if ].

Lemma quiet_extract_members errorlevel path numeric_owner refs :
  ∀ ds, quiet (extract_members errorlevel path numeric_owner refs ds).
Proof.
  induction refs as [|r refs IH]; intros ds; simpl; quiet_tac; apply IH.
Qed.

Lemma quiet_set_directory_attrs errorlevel path numeric_owner ds :
  quiet (set_directory_attrs errorlevel path numeric_owner ds).
Proof.
  induction ds as [|r ds IH]; simpl; [apply quiet_ret|].
  apply quiet_bind; [|by intros].
  apply quiet_try; [unfold set_attrs_body; quiet_tac|].
  intros e. unfold set_attrs_handler. destruct e; quiet_tac.
Qed.

Local Hint Resolve quiet_extract_members quiet_set_directory_attrs : quiet.

Lemma quiet_extractall errorlevel path numeric_owner :
  quiet (extractall errorlevel path numeric_owner).
Proof.
  unfold extractall. quiet_tac.
Qed.

Lemma quiet_process_whiteouts ms : quiet (process_whiteouts ms).
Proof.
  induction ms as [|member ms IH]; simpl; [apply quiet_ret|].
  apply quiet_bind; [|by intros].
  unfold whiteout. destruct (is_whiteout _); quiet_tac.
  destruct e; quiet_tac.
Qed.

Local Hint Resolve quiet_extractall quiet_process_whiteouts : quiet.

Lemma announced_extracting id : announced (LogInfo ("extracting layer " +:+ id)) = Some id.
Proof. by destruct id. Qed.

(** A selected layer is announced once, before anything is done to it. *)
Lemma extract_layer_log args img id s :
  layers_extracted (records (extract_layer args img id s).1) =
  layers_extracted (records s) ++ [id].
Proof.
  unfold extract_layer. rewrite run_bind. unfold emit at 1.
  set (s1 := mkState _ _ _ _).
  assert (H1 : layers_extracted (records s1) = layers_extracted (records s) ++ [id]).
  { unfold s1. cbn [records].
    by rewrite layers_extracted_snoc, announced_extracting. }
  rewrite <-H1. clearbody s1.
  destruct (img_layer_tar img !! id) as [entries|]; [|done].
  assert (Hq : quiet (W:=W) (open_members entries;;
                 extractall (errorlevel_of args) (arg_output args) false;;
                 if arg_no_whiteouts args then mret ()
                 else emit (LogInfo "processing whiteouts");;
                      ms ← getmembers; process_whiteouts ms)).
  { quiet_tac. }
  apply Hq.
Qed.

(** The loop of [main] announces the selected layers of its list, in
    the order of the list, as far as it gets; all of them when it ends
    without an exception. *)
Lemma extract_layers_log args img ids :
  ∀ s, let r := extract_layers args img ids s in
    (∃ k, layers_extracted (records r.1) =
          layers_extracted (records s) ++ take k (selected args ids)) ∧
    (r.2 = Ok tt →
       layers_extracted (records r.1) =
       layers_extracted (records s) ++ selected args ids).
Proof.
  induction ids as [|id ids IH]; intros s; simpl.
  { unfold selected. rewrite filter_nil.
    split; [exists 0|intros _]; simpl; by rewrite (right_id_L [] (++)). }
  unfold selected. rewrite filter_cons. rewrite run_bind.
  destruct (skipped args id) eqn:Hs; simpl.
  - apply IH.
  - pose proof (extract_layer_log args img id s) as Hl.
    destruct (extract_layer args img id s) as [s1 [[]|e]]; simpl in *.
    + destruct (IH s1) as [[k Hk] Hok]. split.
      * exists (S k). rewrite Hk, Hl, <-(assoc_L (++)). done.
      * intros Hr. rewrite (Hok Hr), Hl, <-(assoc_L (++)). done.
    + split; [|done]. exists 1. by rewrite Hl.
Qed.

Lemma selected_all args ids : arg_layer args = None → selected args ids = ids.
Proof.
  intros Hn. unfold selected, skipped. rewrite Hn.
  induction ids as [|id ids IH]; [done|].
  by rewrite filter_cons, decide_True, IH.
Qed.

End Order.

(** ** Names and their order *)

Lemma compare_app_gt a c rest : String.compare (a +:+ String c rest) a = Gt.
Proof.
  induction a as [|x a IH]; [done|].
  change (String.compare (String x (a +:+ String c rest)) (String x a) = Gt).
  simpl. unfold Ascii.compare. by rewrite N.compare_refl.
Qed.

(** A directory is smaller than every path below it. *)
Lemma ancestor_not_le a d : is_ancestor a d → ¬ String.le d a.
Proof.
  intros [rest ->]. unfold String.le, String.leb.
  change (a +:+ "/" +:+ rest) with (a +:+ String "/"%char rest).
  rewrite compare_app_gt. by intros [].
Qed.

Lemma StronglySorted_lookup_lt {A} (R : relation A) l i j x y :
  StronglySorted R l → i < j → l !! i = Some x → l !! j = Some y → R x y.
Proof.
  intros Hl. revert i j. induction Hl as [|a l Hl IH Ha]; intros i j Hij Hi Hj; [done|].
  destruct i as [|i], j as [|j]; simpl in *; try lia.
  - simplify_eq. apply (proj1 (Forall_forall _ _) Ha). by eapply list_elem_of_lookup_2.
  - apply (IH i j); [lia|done..].
Qed.

(** ** Whiteouts and failures *)

Section Failures.
Context {W : Type} `{!OS W}.
Implicit Types (s : state W).

(** An exception of one step of a loop ends the loop. *)
Lemma process_whiteouts_raise member ms s s' e :
  whiteout member s = (s', Raise e) →
  process_whiteouts (member :: ms) s = (s', Raise e).
Proof. intros E. simpl. by rewrite run_bind, E. Qed.

Lemma process_whiteouts_ok member ms s s' :
  whiteout member s = (s', Ok tt) →
  process_whiteouts (member :: ms) s = process_whiteouts ms s'.
Proof. intros E. simpl. by rewrite run_bind, E. Qed.

(** What one whiteout does, by the answers to its [unlink] calls. *)
Lemma whiteout_run member s :
  is_whiteout (name member) = true →
  let path := name member in
  let newpath := newpath_of path in
  let keep (e : exn) : result unit :=
    if decide (e = OSError ENOENT) then Ok tt else Raise e in
  whiteout member s =
    match perform (OsUnlink path) (world s) with
    | (w1, Some e) => (unlinked member s w1 [OsUnlink path], keep e)
    | (w1, None) =>
        match perform (OsUnlink newpath) w1 with
        | (w2, Some e) =>
            (unlinked member s w2 [OsUnlink path; OsUnlink newpath], keep e)
        | (w2, None) =>
            (unlinked member s w2 [OsUnlink path; OsUnlink newpath], Ok tt)
        end
    end.
Proof.
  intros Hw. unfold whiteout, unlinked. rewrite Hw. mrun.
  destruct (perform (OsUnlink (name member)) (world s)) as [w1 [e1|]]; mrun.
  { destruct e1; try done. case_bool_decide; case_decide; simplify_eq; done. }
  destruct (perform (OsUnlink (newpath_of (name member))) w1) as [w2 [e2|]]; mrun;
    rewrite <-(assoc_L (++)); [|done].
  destruct e2; try done. case_bool_decide; case_decide; simplify_eq; done.
Qed.

(** One directory of the second loop whose attributes could not be
    set, under a given [errorlevel]. *)
Lemma set_directory_attrs_swallow errorlevel path numeric_owner r ds s s1 msg :
  set_attrs_body path numeric_owner r s = (s1, Raise (ExtractError msg)) →
  (errorlevel ≤ 1)%Z →
  set_directory_attrs errorlevel path numeric_owner (r :: ds) s =
  set_directory_attrs errorlevel path numeric_owner ds
    (mkState (world s1) (members s1) (calls s1)
             (records s1 ++ [TarDbg 1 ("tarfile: " +:+ msg)])).
Proof.
  intros E Hl. simpl. rewrite run_bind. unfold try_except. rewrite E. simpl.
  rewrite bool_decide_false by lia. done.
Qed.

Lemma set_directory_attrs_propagate errorlevel path numeric_owner r ds s s1 msg :
  set_attrs_body path numeric_owner r s = (s1, Raise (ExtractError msg)) →
  (errorlevel > 1)%Z →
  set_directory_attrs errorlevel path numeric_owner (r :: ds) s =
  (s1, Raise (ExtractError msg)).
Proof.
  intros E Hl. simpl. rewrite run_bind. unfold try_except. rewrite E. simpl.
  rewrite bool_decide_true by lia. done.
Qed.

(** [extractall] ends with what its second loop ends with. *)
Lemma extractall_result errorlevel path numeric_owner s s1 ds :
  extract_members errorlevel path numeric_owner (seq 0 (length (members s))) [] s
    = (s1, Ok ds) →
  extractall errorlevel path numeric_owner s =
  set_directory_attrs errorlevel path numeric_owner
    (reverse_sorted (members s1) ds) s1.
Proof. intros E. unfold extractall. mrun. by rewrite E. Qed.

Lemma errorlevel_of_relaxed args : (errorlevel_of args ≤ 1)%Z.
Proof. unfold errorlevel_of. destruct (arg_ignore_errors args); lia. Qed.

End Failures.

(** ** Resolving the image *)

Section Resolve.
Context {W : Type} `{!OS W}.
Implicit Types (s : state W).

(** Lines 163-169: a pair that the manifest does not hold is reported
    and ends the process with status 1. *)
Lemma lookup_top_absent repos name tag s :
  dict_get repos name ≫= (λ tags, dict_get tags tag) = None →
  lookup_top repos name tag s =
    (mkState (world s) (members s) (calls s)
       (records s ++
        [LogError ("failed to find image " +:+ name +:+ " with tag " +:+ tag)]),
     Raise (SystemExit 1)).
Proof. intros E. unfold lookup_top. by rewrite E. Qed.

Lemma lookup_top_present repos name tag tags top s :
  dict_get repos name = Some tags → dict_get tags tag = Some top →
  lookup_top repos name tag s = (s, Ok top).
Proof. intros E1 E2. unfold lookup_top. rewrite E1. simpl. by rewrite E2. Qed.

(** A reference with a colon is split at the first one. *)
Lemma split_reference_tagged repos image name tag s :
  split_colon image = Some (name, tag) →
  split_reference repos image s = (s, Ok (name, tag)).
Proof. intros E. unfold split_reference. by rewrite E. Qed.

(** A reference without a colon is looked up outside the [try] of
    line 163: an unknown name is an uncaught [KeyError]. *)
Lemma split_reference_untagged_unknown repos image s :
  split_colon image = None → dict_get repos image = None →
  split_reference repos image s = (s, Raise (KeyError image)).
Proof. intros E1 E2. unfold split_reference. by rewrite E1, E2. Qed.

End Resolve.

(** ** Calls and modes of the second loop *)

Section Modes.
Context {W : Type} `{!OS W}.
Implicit Types (s : state W).

Lemma calls_of_app {A} (m : M W A) s cs :
  calls (m s).1 = calls s ++ cs → calls_of m s = cs.
Proof. intros E. unfold calls_of. by rewrite E, drop_app_length. Qed.

(** Every [chmod] of [extractall] is the one of the second loop for a
    directory of the archive. *)
Lemma extractall_chmod errorlevel path numeric_owner s t p :
  TarChmod t p ∈ calls_of (extractall errorlevel path numeric_owner) s →
  ∃ r m, members s !! r = Some m ∧ isdir m ∧
         t = final m ∧ p = path_join path (name m).
Proof.
  destruct (extractall_calls errorlevel path numeric_owner s)
    as (cs1 & cs2 & Hc & H1 & H2 & _).
  rewrite (calls_of_app _ _ _ Hc).
  intros [Hin|Hin]%elem_of_app.
  - by destruct (proj1 (Forall_forall _ _) H1 _ Hin).
  - destruct (proj1 (Forall_forall _ _) H2 _ Hin) as (r & m & Hm & Hd & Ha).
    exists r, m. by inversion Ha.
Qed.

Lemma final_dirbit m : dirbit m → mode (final m) = Z.lor (mode m) OWNER_WRITE.
Proof. intros Hd. unfold final. by rewrite decide_True. Qed.

Lemma final_no_dirbit m : ¬ dirbit m → final m = m.
Proof. intros Hd. unfold final. by rewrite decide_False. Qed.

Lemma lor_OWNER_WRITE_bit x n :
  (n = 1 ∨ n = 7)%Z → Z.testbit (Z.lor x OWNER_WRITE) n = true.
Proof. intros [-> | ->]; rewrite Z.lor_spec; apply orb_true_r. Qed.

Lemma lor_OWNER_WRITE_other x n :
  n ≠ 1%Z → n ≠ 7%Z → Z.testbit (Z.lor x OWNER_WRITE) n = Z.testbit x n.
Proof.
  intros H1 H7. rewrite Z.lor_spec.
  assert (Z.testbit OWNER_WRITE n = false) as ->; [|apply orb_false_r].
  destruct n as [|n|n]; [done| |done].
  unfold OWNER_WRITE.
  do 8 (destruct n as [n|n|]; try done).
Qed.

End Modes.

(** ** What [main] announces *)

Section Announce.
Context {W : Type} `{!OS W}.
Implicit Types (s : state W).

Lemma quiet_log_key k v : quiet (W:=W) (log_key k v).
Proof. destruct v; [by apply quiet_emit|apply quiet_ret]. Qed.

Lemma quiet_find_layers limit img : ∀ id, quiet (W:=W) (find_layers limit img id).
Proof.
  induction limit as [|limit IH]; intros id; simpl; [apply quiet_raise|].
  destruct (img_json img !! id) as [info|]; [|apply quiet_raise].
  repeat (apply quiet_bind; [first [by apply quiet_emit|apply quiet_log_key]|intros _]).
  destruct (parent info); [|apply quiet_ret].
  apply quiet_bind; [apply IH|intros; apply quiet_ret].
Qed.

Lemma quiet_select_image args repos : quiet (W:=W) (select_image args repos).
Proof.
  unfold select_image.
  assert (Hk : quiet (W:=W) (A:=string) match dict_keys repos with
               | [k] => mret k
               | _ => emit (LogError "No image name specified and multiple images contained in archive");;
                      raise (SystemExit 1)
               end).
  { destruct (dict_keys repos) as [|k [|k' l]];
      try apply quiet_ret;
      (apply quiet_bind; [by apply quiet_emit|intros; apply quiet_raise]). }
  destruct (arg_image args) as [[|c i]|]; [done|apply quiet_ret|done].
Qed.

Lemma quiet_split_reference repos image : quiet (W:=W) (split_reference repos image).
Proof.
  unfold split_reference. destruct (split_colon image) as [[n t]|]; [apply quiet_ret|].
  destruct (dict_get repos image) as [tags|]; [|apply quiet_raise].
  destruct (dict_keys tags); [apply quiet_raise|apply quiet_ret].
Qed.

Lemma quiet_lookup_top repos n t : quiet (W:=W) (lookup_top repos n t).
Proof.
  unfold lookup_top. destruct (_ ≫= _); [apply quiet_ret|].
  apply quiet_bind; [by apply quiet_emit|intros; apply quiet_raise].
Qed.

Lemma announced_image n top :
  announced (LogInfo ("extracting image " +:+ n +:+ " (" +:+ top +:+ ")")) = None.
Proof. done. Qed.

Lemma announces_quiet_bind {A B} (m : M W A) (k : A → M W B) l :
  quiet m →
  (∀ s s' a, m s = (s', Ok a) → announces (k a) l) →
  announces (m ≫= k) l.
Proof.
  intros Hm Hk s. rewrite run_bind. specialize (Hm s).
  destruct (m s) as [s1 [a|e]] eqn:E; simpl in *.
  - rewrite <-Hm. apply (Hk s s1 a E).
  - split; [|done]. exists 0. by rewrite Hm, take_0, (right_id_L [] (++)).
Qed.

Lemma extract_layers_announces args img ids :
  announces (extract_layers args img ids) (selected args ids).
Proof.
  intros s. destruct (extract_layers_log args img ids s) as [Hk Hok].
  split; [done|]. by intros [].
Qed.

(** [main] hands to its loop the reversed result of the walk, and
    announces nothing else. *)
Lemma main_announces limit args img repos top :
  img_repositories img = Some repos →
  arg_list args = false → arg_layers args = false →
  (∀ s s' image n t, select_image args repos s = (s', Ok image) →
     ∀ s1 s1', split_reference repos image s1 = (s1', Ok (n, t)) →
     ∀ s2 s2' top', lookup_top repos n t s2 = (s2', Ok top') → top' = top) →
  ∀ ids, (∀ s s' l, find_layers limit img top s = (s', Ok l) → l = ids) →
  announces (main limit args img) (selected args (reverse ids)).
Proof.
  intros Hrepos Hlist Hlayers Htop ids Hids. unfold main.
  rewrite Hrepos, Hlist, Hlayers.
  apply announces_quiet_bind; [apply quiet_ret|intros _ _ repos' [= _ <-]].
  apply announces_quiet_bind; [apply quiet_ret|intros _ _ _ _].
  apply announces_quiet_bind; [apply quiet_select_image|intros s0 s0' image Hi].
  apply announces_quiet_bind; [apply quiet_split_reference|intros s1 s1' [n t] Hs].
  apply announces_quiet_bind; [apply quiet_lookup_top|intros s2 s2' top' Ht].
  rewrite (Htop _ _ _ _ _ Hi _ _ Hs _ _ _ Ht).
  apply announces_quiet_bind; [apply quiet_emit, announced_image|intros _ _ _ _].
  apply announces_quiet_bind; [apply quiet_find_layers|intros s3 s3' l Hl].
  rewrite (Hids _ _ _ Hl).
  apply announces_quiet_bind; [apply quiet_ret|intros _ _ _ _].
  apply announces_quiet_bind; [done|intros _ _ d _].
  apply announces_quiet_bind; [destruct d; [apply quiet_ret|apply quiet_do]|intros _ _ _ _].
  apply extract_layers_announces.
Qed.

(** A reference [name:tag] that the manifest holds resolves to its id. *)
Lemma resolve_tagged args repos image n t tags top :
  arg_image args = Some image → split_colon image = Some (n, t) →
  dict_get repos n = Some tags → dict_get tags t = Some top →
  ∀ s s' image' n' t', select_image args repos s = (s', Ok image') →
    ∀ s1 s1', split_reference repos image' s1 = (s1', Ok (n', t')) →
    ∀ s2 s2' top', lookup_top repos n' t' s2 = (s2', Ok top') → top' = top.
Proof.
  intros Hi Hs Hn Ht s s' image' n' t'. unfold select_image. rewrite Hi.
  destruct image as [|c i]; [done|]. intros [= _ <-] s1 s1'.
  rewrite (split_reference_tagged repos _ n t s1 Hs). intros [= _ <- <-] s2 s2' top'.
  rewrite (lookup_top_present repos n t tags top s2 Hn Ht). by intros [= _ <-].
Qed.

End Announce.

(** ** Frames *)

Section Frames.
Context {W : Type} `{!OS W}.
Implicit Types (s : state W) (R : relation (state W)).

Global Instance logs_debug_preorder : PreOrder (logs_debug (W:=W)).
Proof.
  split.
  - intros s. split_and!; [done..|]. exists []. by rewrite (right_id_L [] (++)).
  - intros s1 s2 s3 (Hw1 & Hm1 & Hc1 & rs1 & Hr1 & Hd1) (Hw2 & Hm2 & Hc2 & rs2 & Hr2 & Hd2).
    split_and!; [congruence..|]. exists (rs1 ++ rs2).
    split; [by rewrite Hr2, Hr1, (assoc_L (++))|by apply Forall_app].
Qed.

Global Instance same_on_preorder {X} (f : list call → X) : PreOrder (same_on (W:=W) f).
Proof. split; [done|]. intros s1 s2 s3 H1 H2. unfold same_on in *. congruence. Qed.

Global Instance same_names_preorder : PreOrder (same_names (W:=W)).
Proof. split; [done|]. intros s1 s2 s3 H1 H2. unfold same_names in *. congruence. Qed.

Global Instance unlinks_only_preorder P : PreOrder (unlinks_only (W:=W) P).
Proof.
  split.
  - intros s. exists []. by rewrite (right_id_L [] (++)).
  - intros s1 s2 s3 (ps1 & H1 & Hp1) (ps2 & H2 & Hp2). exists (ps1 ++ ps2).
    split; [by rewrite H2, H1, (assoc_L (++))|by apply Forall_app].
Qed.

Global Instance untouched_preorder : PreOrder (untouched (W:=W)).
Proof.
  split; [done|]. intros s1 s2 s3 (?&?&?) (?&?&?). unfold untouched. split_and!; congruence.
Qed.

Lemma ensures_ret R `{!Reflexive R} {A} (a : A) : ensures R (mret a).
Proof. intros s. simpl. reflexivity. Qed.

Lemma ensures_raise R `{!Reflexive R} {A} e : ensures R (raise (A:=A) e).
Proof. intros s. simpl. reflexivity. Qed.

(** A first part that keeps [R0] before a second part that ensures [R]. *)
Lemma ensures_bind_frame R0 R {A B} (m : M W A) (k : A → M W B) :
  (∀ s s1, R0 s s1 → R s s1) →
  (∀ s s1 s2, R0 s s1 → R s1 s2 → R s s2) →
  ensures R0 m → (∀ a, ensures R (k a)) → ensures R (m ≫= k).
Proof.
  intros Hsub Hcomp Hm Hk s. rewrite run_bind. specialize (Hm s).
  destruct (m s) as [s1 [a|e]]; simpl in *; [|by apply Hsub].
  eapply Hcomp; [done|apply Hk].
Qed.

Lemma ensures_bind R `{!PreOrder R} {A B} (m : M W A) (k : A → M W B) :
  ensures R m → (∀ a, ensures R (k a)) → ensures R (m ≫= k).
Proof.
  apply ensures_bind_frame; [done|]. intros s s1 s2 H1 H2. by etrans.
Qed.

Lemma ensures_try R `{!PreOrder R} {A} (m : M W A) h :
  ensures R m → (∀ e, ensures R (h e)) → ensures R (try_except m h).
Proof.
  intros Hm Hh s. unfold try_except. specialize (Hm s).
  destruct (m s) as [s1 [a|e]]; simpl in *; [done|].
  etrans; [done|apply Hh].
Qed.

Lemma ensures_if R {A} (b : bool) (m1 m2 : M W A) :
  ensures R m1 → ensures R m2 → ensures R (if b then m1 else m2).
Proof. by destruct b. Qed.

Lemma ensures_weaken R0 R {A} (m : M W A) :
  (∀ s s1, R0 s s1 → R s s1) → ensures R0 m → ensures R m.
Proof. intros Hsub Hm s. apply Hsub, Hm. Qed.

End Frames.

(** ** More on the chain walk *)

Section WalkMore.
Context {W : Type} `{!OS W}.
Implicit Types (s : state W).

Lemma logs_debug_emit msg s : logs_debug s (emit (LogDebug msg) s).1.
Proof. split_and!; [done..|]. exists [LogDebug msg]. split; [done|]. by repeat constructor. Qed.

Lemma ensures_log_key k v : ensures (W:=W) logs_debug (log_key k v).
Proof.
  destruct v as [x|]; simpl; [intros s; apply logs_debug_emit|by apply ensures_ret, _].
Qed.

Lemma find_layers_logs_debug limit img :
  ∀ id, ensures (W:=W) logs_debug (find_layers limit img id).
Proof.
  induction limit as [|limit IH]; intros id; simpl; [by apply ensures_raise, _|].
  destruct (img_json img !! id) as [info|]; [|by apply ensures_raise, _].
  apply (ensures_bind _); [intros s; apply logs_debug_emit|intros _].
  do 4 (apply (ensures_bind _); [apply ensures_log_key|intros _]).
  destruct (parent info); [|by apply ensures_ret, _].
  apply (ensures_bind _); [apply IH|intros; by apply ensures_ret, _].
Qed.

End WalkMore.

(** ** The calls of the program *)

Section Untouched.
Context {W : Type} `{!OS W}.
Implicit Types (s : state W).

Lemma logs_debug_untouched s s1 : logs_debug s s1 → untouched s s1.
Proof. by intros (? & ? & ? & _). Qed.

Lemma untouched_emit r : ensures (W:=W) untouched (emit r).
Proof. done. Qed.

Lemma untouched_isdir_path p : ensures (W:=W) untouched (isdir_path p).
Proof. done. Qed.

Lemma untouched_getmembers : ensures (W:=W) untouched getmembers.
Proof. done. Qed.

Lemma untouched_find_layers limit img id : ensures (W:=W) untouched (find_layers limit img id).
Proof.
  eapply ensures_weaken; [apply logs_debug_untouched|apply find_layers_logs_debug].
Qed.

Lemma untouched_print_repos repos : ensures (W:=W) untouched (print_repos repos).
Proof.
  induction repos as [|[n tags] repos IH]; simpl; [by apply ensures_ret, _|].
  apply ensures_bind; [apply _|apply untouched_emit|by intros].
Qed.

Lemma untouched_select_image args repos : ensures (W:=W) untouched (select_image args repos).
Proof.
  unfold select_image.
  assert (Hk : ensures (W:=W) (A:=string) untouched match dict_keys repos with
               | [k] => mret k
               | _ => emit (LogError "No image name specified and multiple images contained in archive");;
                      raise (SystemExit 1)
               end).
  { destruct (dict_keys repos) as [|k [|k' l]]; try (by apply ensures_ret, _);
      (apply ensures_bind; [apply _|apply untouched_emit|intros; by apply ensures_raise, _]). }
  destruct (arg_image args) as [[|c i]|]; [done|by apply ensures_ret, _|done].
Qed.

Lemma untouched_split_reference repos image :
  ensures (W:=W) untouched (split_reference repos image).
Proof.
  unfold split_reference.
  destruct (split_colon image) as [[n t]|]; [by apply ensures_ret, _|].
  destruct (dict_get repos image) as [tags|]; [|by apply ensures_raise, _].
  destruct (dict_keys tags); [by apply ensures_raise, _|by apply ensures_ret, _].
Qed.

Lemma untouched_lookup_top repos n t : ensures (W:=W) untouched (lookup_top repos n t).
Proof.
  unfold lookup_top. destruct (_ ≫= _); [by apply ensures_ret, _|].
  apply ensures_bind; [apply _|apply untouched_emit|intros; by apply ensures_raise, _].
Qed.

(** [main] up to line 177 makes no call; what its last three lines
    ensure after an untouched start, [main] ensures. *)
Lemma main_ensures (R : relation (state W)) limit args img :
  (∀ s s1, untouched s s1 → R s s1) →
  (∀ s s1 s2, untouched s s1 → R s1 s2 → R s s2) →
  (∀ layers,
     ensures R (d ← isdir_path (arg_output args);
                (if d : bool then mret tt else do (OsMkdir (arg_output args)));;
                extract_layers args img (reverse layers))) →
  ensures R (main limit args img).
Proof.
  intros Hsub Hcomp Htail. unfold main.
  apply (ensures_bind_frame untouched); [done..| |intros repos].
  { destruct (img_repositories img); [by apply ensures_ret, _|by apply ensures_raise, _]. }
  apply (ensures_bind_frame untouched); [done..| |intros _].
  { destruct (arg_list args); [|by apply ensures_ret, _].
    apply ensures_bind; [apply _|apply untouched_print_repos|].
    intros; by apply ensures_raise, _. }
  apply (ensures_bind_frame untouched); [done..|apply untouched_select_image|intros image].
  apply (ensures_bind_frame untouched); [done..|apply untouched_split_reference|intros [n t]].
  apply (ensures_bind_frame untouched); [done..|apply untouched_lookup_top|intros top].
  apply (ensures_bind_frame untouched); [done..|apply untouched_emit|intros _].
  apply (ensures_bind_frame untouched); [done..|apply untouched_find_layers|intros layers].
  apply (ensures_bind_frame untouched); [done..| |intros _; apply Htail].
  destruct (arg_layers args); [|by apply ensures_ret, _].
  apply ensures_bind; [apply _|apply untouched_emit|intros; by apply ensures_raise, _].
Qed.

End Untouched.

Section CallFrames.
Context {W : Type} `{!OS W} {X : Type} (f : list call → X).
Implicit Types (s : state W).

Lemma untouched_same_on s s1 : untouched s s1 → same_on f s s1.
Proof. intros (_ & _ & Hc). unfold same_on. by rewrite Hc. Qed.

Lemma same_on_emit r : ensures (W:=W) (same_on f) (emit r).
Proof. done. Qed.

Lemma same_on_deref r : ensures (W:=W) (same_on f) (deref r).
Proof. done. Qed.

Lemma same_on_assign_mode r m : ensures (W:=W) (same_on f) (assign_mode r m).
Proof. done. Qed.

Lemma same_on_getmembers : ensures (W:=W) (same_on f) getmembers.
Proof. done. Qed.

Lemma same_on_open_members l : ensures (W:=W) (same_on f) (open_members l).
Proof. done. Qed.

Lemma same_on_do c : (∀ cs, f (cs ++ [c]) = f cs) → ensures (same_on f) (do c).
Proof.
  intros Hc s. unfold same_on, do. destruct (perform c (world s)); simpl. apply Hc.
Qed.

Hypothesis tar_neutral : ∀ cs c, is_tar c → f (cs ++ [c]) = f cs.

Lemma same_on_extract_members errorlevel path numeric_owner refs :
  ∀ ds, ensures (same_on f) (extract_members errorlevel path numeric_owner refs ds).
Proof.
  induction refs as [|r refs IH]; intros ds; simpl; [by apply ensures_ret, _|].
  apply ensures_bind; [apply _|apply same_on_deref|intros t].
  destruct (isdir t);
    (apply ensures_bind; [apply _|apply same_on_do; intros; by apply tar_neutral|intros _]);
    apply IH.
Qed.

Lemma same_on_set_attrs_body path numeric_owner r :
  ensures (same_on f) (set_attrs_body path numeric_owner r).
Proof.
  unfold set_attrs_body.
  apply ensures_bind; [apply _|apply same_on_deref|intros t].
  apply ensures_bind; [apply _|apply same_on_do; intros; by apply tar_neutral|intros _].
  apply ensures_bind; [apply _|apply same_on_do; intros; by apply tar_neutral|intros _].
  apply ensures_bind; [apply _| |intros _].
  { case_bool_decide; [apply same_on_assign_mode|by apply ensures_ret, _]. }
  apply ensures_bind; [apply _|apply same_on_deref|intros t'].
  apply same_on_do; intros; by apply tar_neutral.
Qed.

Lemma same_on_set_directory_attrs errorlevel path numeric_owner ds :
  ensures (same_on f) (set_directory_attrs errorlevel path numeric_owner ds).
Proof.
  induction ds as [|r ds IH]; simpl; [by apply ensures_ret, _|].
  apply ensures_bind; [apply _| |by intros].
  apply ensures_try; [apply _|apply same_on_set_attrs_body|].
  intros e. unfold set_attrs_handler.
  destruct e; try (by apply ensures_raise, _).
  case_bool_decide; [by apply ensures_raise, _|apply same_on_emit].
Qed.

Lemma same_on_extractall errorlevel path numeric_owner :
  ensures (same_on f) (extractall errorlevel path numeric_owner).
Proof.
  unfold extractall.
  apply ensures_bind; [apply _|apply same_on_getmembers|intros ms].
  apply ensures_bind; [apply _|apply same_on_extract_members|intros ds].
  apply ensures_bind; [apply _|apply same_on_getmembers|intros ms'].
  apply same_on_set_directory_attrs.
Qed.

(** A layer whose whiteouts do not show under [f], or are not processed. *)
Lemma same_on_extract_layers args img ids :
  (arg_no_whiteouts args = true ∨ ∀ cs p, f (cs ++ [OsUnlink p]) = f cs) →
  ensures (same_on f) (extract_layers args img ids).
Proof.
  intros Hwh. induction ids as [|id ids IH]; simpl; [by apply ensures_ret, _|].
  apply ensures_bind; [apply _| |by intros].
  apply ensures_if; [by apply ensures_ret, _|]. unfold extract_layer.
  apply ensures_bind; [apply _|apply same_on_emit|intros _].
  destruct (img_layer_tar img !! id) as [entries|]; [|by apply ensures_raise, _].
  apply ensures_bind; [apply _|apply same_on_open_members|intros _].
  apply ensures_bind; [apply _|apply same_on_extractall|intros _].
  destruct (arg_no_whiteouts args) eqn:Hno; [by apply ensures_ret, _|].
  destruct Hwh as [?|Hun]; [done|].
  apply ensures_bind; [apply _|apply same_on_emit|intros _].
  apply ensures_bind; [apply _|apply same_on_getmembers|intros ms].
  clear -Hun. induction ms as [|member ms IHms]; simpl; [by apply ensures_ret, _|].
  apply ensures_bind; [apply _| |by intros].
  unfold whiteout. destruct (is_whiteout _); [|by apply ensures_ret, _].
  apply ensures_try; [apply _| |].
  - apply ensures_bind; [apply _|apply same_on_emit|intros _].
    apply ensures_bind; [apply _|by apply same_on_do|intros _].
    by apply same_on_do.
  - intros e. destruct e; try (by apply ensures_raise, _).
    case_bool_decide; [by apply ensures_raise, _|by apply ensures_ret, _].
Qed.

End CallFrames.

Section Paths.
Context {W : Type} `{!OS W}.
Implicit Types (s : state W).

Lemma unlinked_paths_snoc cs c :
  unlinked_paths (cs ++ [c]) =
  unlinked_paths cs ++ match c with OsUnlink p => [p] | _ => [] end.
Proof. unfold unlinked_paths. rewrite omap_app. by destruct c. Qed.

Lemma mkdir_paths_snoc cs c :
  mkdir_paths (cs ++ [c]) =
  mkdir_paths cs ++ match c with OsMkdir p => [p] | _ => [] end.
Proof. unfold mkdir_paths. rewrite omap_app. by destruct c. Qed.

Lemma unlinked_paths_tar cs c : is_tar c → unlinked_paths (cs ++ [c]) = unlinked_paths cs.
Proof.
  intros Hc. rewrite unlinked_paths_snoc. destruct c; try done;
    by rewrite (right_id_L [] (++)).
Qed.

Lemma mkdir_paths_tar cs c : is_tar c → mkdir_paths (cs ++ [c]) = mkdir_paths cs.
Proof.
  intros Hc. rewrite mkdir_paths_snoc. destruct c; try done;
    by rewrite (right_id_L [] (++)).
Qed.

Lemma unlinked_paths_mkdir cs p : unlinked_paths (cs ++ [OsMkdir p]) = unlinked_paths cs.
Proof. by rewrite unlinked_paths_snoc, (right_id_L [] (++)). Qed.

Lemma mkdir_paths_unlink cs p : mkdir_paths (cs ++ [OsUnlink p]) = mkdir_paths cs.
Proof. by rewrite mkdir_paths_snoc, (right_id_L [] (++)). Qed.

End Paths.

(** ** What is unlinked, and what is created *)

Section Unlinks.
Context {W : Type} `{!OS W}.
Implicit Types (s : state W).

Lemma fmap_name_alter_mode x r (ms : list TarInfo) :
  name <$> alter (set_mode x) r ms = name <$> ms.
Proof.
  rewrite (list_fmap_alter name (set_mode x) id); [by rewrite list_alter_id|].
  by apply Forall_forall.
Qed.

Lemma same_names_set_directory_attrs errorlevel path numeric_owner ds :
  ensures (same_names (W:=W)) (set_directory_attrs errorlevel path numeric_owner ds).
Proof.
  induction ds as [|r ds IH]; simpl; [by apply ensures_ret, _|].
  apply ensures_bind; [apply _| |by intros].
  intros s. destruct (try_except _ _ s) as [s1 res] eqn:E.
  apply set_attrs_one in E as [_ [Hm|[_ Hm]]]; unfold same_names; simpl; rewrite Hm; [done|].
  apply fmap_name_alter_mode.
Qed.

Lemma same_names_extractall errorlevel path numeric_owner :
  ensures (same_names (W:=W)) (extractall errorlevel path numeric_owner).
Proof.
  unfold extractall.
  apply ensures_bind; [apply _|done|intros ms].
  apply ensures_bind; [apply _| |intros ds].
  { intros s. destruct (extract_members _ _ _ _ _ s) as [s1 res] eqn:E.
    apply extract_members_run in E as [Hm _]. unfold same_names. simpl. by rewrite Hm. }
  apply ensures_bind; [apply _|done|intros ms'].
  apply same_names_set_directory_attrs.
Qed.

(** A whiteout entry is known by its name. *)
Lemma whiteout_path_names ms ms' p :
  name <$> ms = name <$> ms' → whiteout_path ms p → whiteout_path ms' p.
Proof.
  intros Hn (m & Hin & Hw & Hp).
  assert (Hm : name m ∈ name <$> ms') by (rewrite <-Hn; by apply list_elem_of_fmap_2).
  apply list_elem_of_fmap in Hm as (m' & Hnm & Hin').
  exists m'. rewrite <-Hnm. done.
Qed.

Lemma whiteout_unlinks member ms :
  member ∈ ms → ensures (unlinks_only (W:=W) (whiteout_path ms)) (whiteout member).
Proof.
  intros Hin s. destruct (is_whiteout (name member)) eqn:Hw.
  2:{ unfold whiteout. rewrite Hw. simpl. reflexivity. }
  assert (H1 : whiteout_path ms (name member)) by (exists member; auto).
  assert (H2 : whiteout_path ms (newpath_of (name member))) by (exists member; auto).
  rewrite (whiteout_run member s Hw). cbv zeta. unfold unlinks_only.
  destruct (perform (OsUnlink (name member)) (world s)) as [w1 [e1|]];
    cbn [fst unlinked calls].
  { eexists [_]. split; [unfold unlinked_paths; by rewrite omap_app|].
    by repeat (apply Forall_cons; split; [done|]). }
  destruct (perform (OsUnlink (newpath_of (name member))) w1) as [w2 [e2|]];
    cbn [fst unlinked calls];
    (eexists [_; _]; split;
       [unfold unlinked_paths; by rewrite omap_app|]);
    by repeat (apply Forall_cons; split; [done|]).
Qed.

Lemma process_whiteouts_unlinks all ms :
  ms ⊆ all → ensures (unlinks_only (W:=W) (whiteout_path all)) (process_whiteouts ms).
Proof.
  induction ms as [|member ms IH]; intros Hsub; simpl; [by apply ensures_ret, _|].
  apply ensures_bind; [apply _| |intros _].
  - apply whiteout_unlinks, Hsub. by left.
  - apply IH. intros x Hx. apply Hsub. by right.
Qed.

Lemma same_on_unlinks_only P s s1 :
  same_on unlinked_paths s s1 → unlinks_only P s s1.
Proof. intros Hc. exists []. by rewrite (right_id_L [] (++)). Qed.

(** One layer: [unlink] is called for whiteout entries of its archive only. *)
Lemma extract_layer_unlinks args img id :
  ensures (unlinks_only (W:=W) (image_whiteout_path img)) (extract_layer args img id).
Proof.
  unfold extract_layer.
  apply ensures_bind; [apply _| |intros _].
  { intros s. by apply same_on_unlinks_only. }
  destruct (img_layer_tar img !! id) as [entries|] eqn:Hid; [|by apply ensures_raise, _].
  intros s. rewrite run_bind. simpl.
  set (s1 := mkState (world s) entries (calls s) (records s)).
  rewrite run_bind.
  pose proof (same_on_extractall unlinked_paths unlinked_paths_tar
                (errorlevel_of args) (arg_output args) false s1) as Hc.
  pose proof (same_names_extractall (errorlevel_of args) (arg_output args) false s1) as Hn.
  destruct (extractall _ _ _ s1) as [s2 [[]|e]]; simpl in *;
    [|by apply same_on_unlinks_only].
  destruct (arg_no_whiteouts args); [by apply same_on_unlinks_only|].
  rewrite run_bind. simpl. rewrite run_bind. simpl.
  set (s3 := mkState _ _ _ _).
  pose proof (process_whiteouts_unlinks (members s2) (members s2) (reflexivity _) s3)
    as (ps & Hps & Hall).
  exists ps. split; [rewrite Hps; f_equal; exact Hc|].
  eapply Forall_impl; [exact Hall|]. intros p Hp.
  exists id, entries. split; [done|]. by apply (whiteout_path_names (members s2)).
Qed.

Lemma extract_layers_unlinks args img ids :
  ensures (unlinks_only (W:=W) (image_whiteout_path img)) (extract_layers args img ids).
Proof.
  induction ids as [|id ids IH]; simpl; [by apply ensures_ret, _|].
  apply ensures_bind; [apply _| |by intros].
  apply ensures_if; [by apply ensures_ret, _|apply extract_layer_unlinks].
Qed.

Lemma tail_unlinks_only args img layers :
  ensures (unlinks_only (W:=W) (image_whiteout_path img))
    (d ← isdir_path (arg_output args);
     (if d : bool then mret tt else do (OsMkdir (arg_output args)));;
     extract_layers args img (reverse layers)).
Proof.
  apply ensures_bind; [apply _| |intros d].
  { intros s. by apply same_on_unlinks_only. }
  apply ensures_bind; [apply _| |intros _; apply extract_layers_unlinks].
  destruct d; [by apply ensures_ret, _|].
  intros s. apply same_on_unlinks_only.
  apply (same_on_do unlinked_paths). intros cs. apply unlinked_paths_mkdir.
Qed.

Lemma tail_same_unlinks args img layers :
  arg_no_whiteouts args = true →
  ensures (same_on (W:=W) unlinked_paths)
    (d ← isdir_path (arg_output args);
     (if d : bool then mret tt else do (OsMkdir (arg_output args)));;
     extract_layers args img (reverse layers)).
Proof.
  intros Hno.
  apply ensures_bind; [apply _|done|intros d].
  apply ensures_bind; [apply _| |intros _].
  - destruct d; [by apply ensures_ret, _|].
    apply same_on_do. intros cs. apply unlinked_paths_mkdir.
  - apply same_on_extract_layers; [apply unlinked_paths_tar|by left].
Qed.

End Unlinks.

(** ** Runs of [main] that differ in the arguments *)

Section Congruence.
Context {W : Type} `{!OS W}.
Implicit Types (s : state W).

Lemma bind_ext {A B} (m : M W A) (k k' : A → M W B) s :
  (∀ a s', k a s' = k' a s') → (m ≫= k) s = (m ≫= k') s.
Proof. intros Hk. rewrite !run_bind. destruct (m s) as [s' [a|e]]; auto. Qed.

Lemma bind_assoc {A B C} (m : M W A) (f : A → M W B) (g : B → M W C) s :
  ((m ≫= f) ≫= g) s = (m ≫= λ a, f a ≫= g) s.
Proof. rewrite !run_bind. by destruct (m s) as [s' [a|e]]. Qed.

Lemma bind_ext_l {A B} (m m' : M W A) (k : A → M W B) s :
  m s = m' s → (m ≫= k) s = (m' ≫= k) s.
Proof. intros Hm. by rewrite !run_bind, Hm. Qed.

(** The loop reads the arguments other than [image]. *)
Lemma extract_layers_congr a o ls li l nw i i' img ids s :
  extract_layers (mkArgs a o ls li l nw i) img ids s =
  extract_layers (mkArgs a o ls li l nw i') img ids s.
Proof.
  revert s. induction ids as [|id ids IH]; intros s; [done|].
  simpl. apply bind_ext. intros _ s'. apply IH.
Qed.

(** Two command lines that differ in [image] only and resolve to the
    same name and tag give the same run. *)
Lemma main_congr limit args image' img repos :
  img_repositories img = Some repos →
  (∀ s (k : string * string → M W unit),
     (image ← select_image args repos; split_reference repos image ≫= k) s =
     (image ← select_image (with_image args image') repos;
      split_reference repos image ≫= k) s) →
  ∀ s, main limit args img s = main limit (with_image args image') img s.
Proof.
  intros Hrepos Hsel s. destruct args as [a o ls li l nw i]. unfold with_image in *.
  cbn [arg_ignore_errors arg_output arg_layers arg_list arg_layer arg_no_whiteouts
       arg_image] in *.
  unfold main. rewrite Hrepos.
  cbn [arg_ignore_errors arg_output arg_layers arg_list arg_layer arg_no_whiteouts
       arg_image].
  rewrite !(run_bind (mret repos)). cbn [mret M_ret].
  apply bind_ext. intros _ s2.
  etrans; [apply Hsel|].
  apply bind_ext. intros image s3. apply bind_ext. intros [n t] s4.
  apply bind_ext. intros top s5. apply bind_ext. intros _ s6.
  apply bind_ext. intros layers s7. apply bind_ext. intros _ s8.
  apply bind_ext. intros d s9. apply bind_ext. intros _ s10.
  apply extract_layers_congr.
Qed.

(** [main] from line 171 on, for a reference [name:tag] of the manifest. *)
Lemma main_resolved limit args img repos image n t tags top s :
  img_repositories img = Some repos → arg_list args = false →
  arg_image args = Some image → split_colon image = Some (n, t) →
  dict_get repos n = Some tags → dict_get tags t = Some top →
  main limit args img s =
    (layers ← find_layers limit img top;
     (if arg_layers args
      then emit (Print (join nl (reverse layers)));; raise (SystemExit 0)
      else mret tt);;
     d ← isdir_path (arg_output args);
     (if d : bool then mret tt else do (OsMkdir (arg_output args)));;
     extract_layers args img (reverse layers))
    (emit (LogInfo ("extracting image " +:+ n +:+ " (" +:+ top +:+ ")")) s).1.
Proof.
  intros Hrepos Hlist Hi Hs Hn Ht.
  assert (Hsel : select_image (W:=W) args repos = mret image).
  { unfold select_image. rewrite Hi. destruct image; [done|done]. }
  unfold main. rewrite Hrepos, Hlist.
  do 2 (rewrite run_bind; cbn [mret M_ret]).
  rewrite Hsel, run_bind. cbn [mret M_ret].
  rewrite run_bind, (split_reference_tagged repos image n t s Hs).
  rewrite run_bind, (lookup_top_present repos n t tags top s Hn Ht).
  by rewrite run_bind.
Qed.

Lemma split_colon_app image tag :
  split_colon image = None → split_colon (image +:+ ":" +:+ tag) = Some (image, tag).
Proof.
  induction image as [|c image IH]; [done|].
  simpl. case_bool_decide; [done|].
  destruct (split_colon image) as [[a b]|]; [done|]. intros _. by rewrite IH.
Qed.

Lemma print_repos_run repos s :
  print_repos repos s =
    (mkState (world s) (members s) (calls s) (records s ++ (repo_line <$> repos)), Ok tt).
Proof.
  revert s. induction repos as [|[n tags] repos IH]; intros s; simpl.
  { rewrite (right_id_L [] (++)). by destruct s. }
  rewrite run_bind. simpl. rewrite IH. simpl. by rewrite <-(assoc_L (++)).
Qed.

Lemma selected_some args l ids :
  arg_layer args = Some l → l ≠ [] →
  selected args ids = filter (λ id, id ∈ l) ids.
Proof.
  intros Hl Hne. unfold selected, skipped. rewrite Hl.
  destruct l as [|x l]; [done|].
  induction ids as [|id ids IH]; [done|].
  rewrite !filter_cons, IH.
  destruct (decide (id ∈ x :: l)) as [Hin|Hin].
  - by rewrite bool_decide_true, decide_True.
  - by rewrite bool_decide_false, decide_False.
Qed.

End Congruence.

(** ** The calls of extractall, one by one *)

Section Calls.
Context {W : Type} `{!OS W}.
Implicit Types (s : state W) (ds : list nat) (ms : list TarInfo).

Lemma fmap_lookup_total_seq {B} (f : TarInfo → B) ms :
  (λ r, f (ms !!! r)) <$> seq 0 (length ms) = f <$> ms.
Proof.
  apply list_eq. intros i. rewrite !list_lookup_fmap.
  destruct (decide (i < length ms)) as [Hi|Hi].
  - rewrite lookup_seq_lt by done. simpl.
    destruct (lookup_lt_is_Some_2 ms i Hi) as [m Hm].
    by rewrite Hm, (list_lookup_total_correct _ _ _ Hm).
  - rewrite lookup_seq_ge by lia. by rewrite lookup_ge_None_2 by lia.
Qed.

(** The first loop, when no [extract] raises. *)
Lemma extract_members_calls errorlevel path numeric_owner refs :
  ∀ ds s s1 ds',
    extract_members errorlevel path numeric_owner refs ds s = (s1, Ok ds') →
    calls s1 =
      calls s ++ ((λ r, extract_call errorlevel path numeric_owner (members s !!! r)) <$> refs).
Proof.
  induction refs as [|r refs IH]; intros ds s s1 ds'; simpl.
  { intros [= <- _]. by rewrite (right_id_L [] (++)). }
  mrun. unfold extract_call at 1.
  change (isdir (set_mode OWNER_READ_WRITE (members s !!! r)))
    with (isdir (members s !!! r)).
  destruct (isdir (members s !!! r)) eqn:Hd; mrun.
  - case_perform; [intros ?; simplify_eq|]. intros E%IH. simpl in E.
    by rewrite E, <-(assoc_L (++)).
  - case_perform; [intros ?; simplify_eq|]. intros E%IH. simpl in E.
    by rewrite E, <-(assoc_L (++)).
Qed.

(** An exception of the first loop is the one of [extractall]. *)
Lemma extractall_first_raise errorlevel path numeric_owner s s1 e :
  extract_members errorlevel path numeric_owner (seq 0 (length (members s))) [] s
    = (s1, Raise e) →
  extractall errorlevel path numeric_owner s = (s1, Raise e).
Proof. intros E. unfold extractall. mrun. by rewrite E. Qed.

(** The body of the second loop, when none of its calls raises. *)
Lemma set_attrs_body_ok path numeric_owner r s s1 :
  set_attrs_body path numeric_owner r s = (s1, Ok tt) →
  calls s1 = calls s ++ attr_calls path numeric_owner (members s !!! r) ∧
  records s1 = records s.
Proof.
  unfold set_attrs_body, attr_calls. mrun.
  case_perform; [intros ?; simplify_eq|]. case_perform; [intros ?; simplify_eq|].
  case_bool_decide as Hd; mrun.
  - rewrite lookup_total_alter_self by done.
    case_perform; [intros ?; simplify_eq|]. intros [= <-]. simpl.
    rewrite <-!(assoc_L (++)). split; [|done]. do 4 f_equal.
    unfold final. by rewrite decide_True.
  - case_perform; [intros ?; simplify_eq|]. intros [= <-]. simpl.
    rewrite <-!(assoc_L (++)). split; [|done]. do 4 f_equal.
    unfold final. rewrite decide_False; [done|by intros Hn; apply Hn].
Qed.

Lemma records_grow_one errorlevel path numeric_owner r s s1 res :
  try_except (set_attrs_body path numeric_owner r)
             (set_attrs_handler errorlevel) s = (s1, res) →
  ∃ rs, records s1 = records s ++ rs.
Proof.
  unfold try_except.
  destruct (set_attrs_body path numeric_owner r s) as [s0 [[]|e]] eqn:Hb;
    apply set_attrs_body_run in Hb as (Hr & _ & _).
  - intros [= <- _]. exists []. by rewrite (right_id_L [] (++)).
  - unfold set_attrs_handler, raise, emit.
    destruct e; try case_bool_decide; intros [= <- _]; simpl; rewrite Hr;
      first [by exists []; rewrite (right_id_L [] (++)) | by eexists [_]].
Qed.

Lemma records_grow errorlevel path numeric_owner ds :
  ∀ s, ∃ rs, records (set_directory_attrs errorlevel path numeric_owner ds s).1
             = records s ++ rs.
Proof.
  induction ds as [|r ds IH]; intros s; simpl.
  { exists []. by rewrite (right_id_L [] (++)). }
  rewrite run_bind. destruct (try_except _ _ s) as [s1 res] eqn:E.
  apply records_grow_one in E as [rs1 Hr1].
  destruct res as [[]|e]; simpl; [|by exists rs1].
  destruct (IH s1) as [rs2 Hr2]. exists (rs1 ++ rs2). by rewrite Hr2, Hr1, (assoc_L (++)).
Qed.

(** One directory whose three calls went through: nothing for [_dbg]. *)
Lemma set_attrs_one_silent errorlevel path numeric_owner r s s1 :
  try_except (set_attrs_body path numeric_owner r)
             (set_attrs_handler errorlevel) s = (s1, Ok tt) →
  records s1 = records s →
  set_attrs_body path numeric_owner r s = (s1, Ok tt).
Proof.
  unfold try_except.
  destruct (set_attrs_body path numeric_owner r s) as [s0 [[]|e]] eqn:Hb; [done|].
  apply set_attrs_body_run in Hb as (Hr & _ & _).
  unfold set_attrs_handler, raise, emit.
  destruct e; try case_bool_decide; try done.
  intros [= <-]. simpl. rewrite Hr. intros Heq.
  apply (f_equal length) in Heq. rewrite length_app in Heq. simpl in Heq. lia.
Qed.

(** The second loop, when it ends without an exception and without a
    message for [_dbg]. *)
Lemma set_directory_attrs_silent errorlevel path numeric_owner ds :
  NoDup ds → ∀ s s',
    set_directory_attrs errorlevel path numeric_owner ds s = (s', Ok tt) →
    records s' = records s →
    calls s' = calls s ++
      concat ((λ r, attr_calls path numeric_owner (members s !!! r)) <$> ds).
Proof.
  induction 1 as [|r ds Hr Hnd IH]; intros s s'; simpl.
  { intros [= <-] _. by rewrite (right_id_L [] (++)). }
  rewrite run_bind. destruct (try_except _ _ s) as [s1 res] eqn:E.
  destruct res as [[]|e]; [|done]. intros E2 Hrec.
  destruct (records_grow_one _ _ _ _ _ _ _ E) as [rs1 Hr1].
  destruct (records_grow errorlevel path numeric_owner ds s1) as [rs2 Hr2].
  rewrite E2 in Hr2. simpl in Hr2.
  assert (rs1 = [] ∧ rs2 = []) as [-> ->].
  { rewrite Hr2, Hr1, <-(assoc_L (++)) in Hrec.
    apply (f_equal length) in Hrec. rewrite !length_app in Hrec.
    split; apply nil_length_inv; lia. }
  rewrite (right_id_L [] (++)) in Hr1, Hr2.
  pose proof (set_attrs_one_silent _ _ _ _ _ _ E Hr1) as Hb.
  apply set_attrs_body_ok in Hb as [Hc1 _].
  assert (Hfm : (λ r, attr_calls path numeric_owner (members s1 !!! r)) <$> ds =
                (λ r, attr_calls path numeric_owner (members s !!! r)) <$> ds).
  { apply list_fmap_ext. intros i r' Hi. f_equal.
    eapply set_attrs_one_frame; [done|]. intros ->.
    apply Hr. by eapply list_elem_of_lookup_2. }
  by rewrite (IH s1 s' E2 Hr2), Hc1, <-(assoc_L (++)), Hfm.
Qed.

End Calls.

(** ** The path that a whiteout names *)

Section WhiteoutPath.

Local Open Scope string_scope.

Lemma contains_cons p c s :
  contains p (String c s) = false →
  String.prefix p (String c s) = false ∧ contains p s = false.
Proof. simpl. by intros [? ?]%orb_false_elim. Qed.

(** An occurrence of the marker does not start in a path without one
    and end in a marker that follows it: the marker holds its
    separator at the start only. *)
Lemma prefix_marker_straddle c d x :
  contains "/.wh." (String c d) = false →
  String.prefix "/.wh." (String c d +:+ "/.wh." +:+ x) = false.
Proof.
  intros [Hp _]%contains_cons. revert Hp.
  change (String c d +:+ "/.wh." +:+ x) with (String c (d +:+ "/.wh." +:+ x)).
  cbn [String.prefix]. destruct (ascii_dec "/" c) as [_|]; [|done].
  destruct d as [|c1 d]; [done|].
  change (String c1 d +:+ "/.wh." +:+ x) with (String c1 (d +:+ "/.wh." +:+ x)).
  cbn [String.prefix]. destruct (ascii_dec "." c1) as [_|]; [|done].
  destruct d as [|c2 d]; [done|].
  change (String c2 d +:+ "/.wh." +:+ x) with (String c2 (d +:+ "/.wh." +:+ x)).
  cbn [String.prefix]. destruct (ascii_dec "w" c2) as [_|]; [|done].
  destruct d as [|c3 d]; [done|].
  change (String c3 d +:+ "/.wh." +:+ x) with (String c3 (d +:+ "/.wh." +:+ x)).
  cbn [String.prefix]. destruct (ascii_dec "h" c3) as [_|]; [|done].
  destruct d as [|c4 d]; [done|].
  change (String c4 d +:+ "/.wh." +:+ x) with (String c4 (d +:+ "/.wh." +:+ x)).
  cbn [String.prefix]. destruct (ascii_dec "." c4) as [_|]; [|done].
  by destruct d.
Qed.

Lemma startswith_marker_app d x :
  startswith ".wh." d = false → startswith ".wh." (d +:+ "/.wh." +:+ x) = false.
Proof.
  unfold startswith.
  destruct d as [|c1 d]; [done|].
  change (String c1 d +:+ "/.wh." +:+ x) with (String c1 (d +:+ "/.wh." +:+ x)).
  cbn [String.prefix]. destruct (ascii_dec "." c1) as [_|]; [|done].
  destruct d as [|c2 d]; [done|].
  change (String c2 d +:+ "/.wh." +:+ x) with (String c2 (d +:+ "/.wh." +:+ x)).
  cbn [String.prefix]. destruct (ascii_dec "w" c2) as [_|]; [|done].
  destruct d as [|c3 d]; [done|].
  change (String c3 d +:+ "/.wh." +:+ x) with (String c3 (d +:+ "/.wh." +:+ x)).
  cbn [String.prefix]. destruct (ascii_dec "h" c3) as [_|]; [|done].
  destruct d as [|c4 d]; [done|].
  change (String c4 d +:+ "/.wh." +:+ x) with (String c4 (d +:+ "/.wh." +:+ x)).
  cbn [String.prefix]. destruct (ascii_dec "." c4) as [_|]; [|done].
  by destruct d.
Qed.

Lemma contains_marker_app d x : contains "/.wh." (d +:+ "/.wh." +:+ x) = true.
Proof.
  induction d as [|c d IH]; [simpl; by destruct x|].
  change (String c d +:+ "/.wh." +:+ x) with (String c (d +:+ "/.wh." +:+ x)).
  cbn [contains]. rewrite IH. apply orb_true_r.
Qed.

Lemma replace_from_none old new x :
  contains old x = false → replace_from 0 old new x = x.
Proof.
  induction x as [|c x IH]; [done|].
  intros [Hp Hc]%contains_cons. cbn [replace_from]. rewrite Hp. by rewrite IH.
Qed.

Lemma replace_marker_app d x :
  contains "/.wh." d = false → contains "/.wh." x = false →
  replace "/.wh." "/" (d +:+ "/.wh." +:+ x) = d +:+ "/" +:+ x.
Proof.
  intros Hd Hx. unfold replace. induction d as [|c d IH].
  { pose proof (replace_from_none "/.wh." "/" x Hx) as Hx'.
    simpl. change ("" +:+ x) with x. rewrite Hx'. by destruct x. }
  pose proof (prefix_marker_straddle c d x Hd) as Hp.
  apply contains_cons in Hd as [_ Hd].
  change (String c d +:+ "/.wh." +:+ x) with (String c (d +:+ "/.wh." +:+ x)) in Hp |- *.
  cbn [replace_from]. rewrite Hp. by rewrite (IH Hd).
Qed.

End WhiteoutPath.

(** ** The shape of the calls *)

Section Shapes.
Context {W : Type} `{!OS W} (P : call → Prop).
Implicit Types (s : state W).

Global Instance calls_only_preorder : PreOrder (calls_only (W:=W) P).
Proof.
  split.
  - intros s. exists []. by rewrite (right_id_L [] (++)).
  - intros s1 s2 s3 (cs1 & H1 & Hp1) (cs2 & H2 & Hp2). exists (cs1 ++ cs2).
    split; [by rewrite H2, H1, (assoc_L (++))|by apply Forall_app].
Qed.

Lemma untouched_calls_only s s1 : untouched s s1 → calls_only P s s1.
Proof. intros (_ & _ & Hc). exists []. by rewrite Hc, (right_id_L [] (++)). Qed.

Lemma calls_only_quiet {A} (m : M W A) :
  (∀ s, calls (m s).1 = calls s) → ensures (calls_only P) m.
Proof. intros Hm s. exists []. by rewrite Hm, (right_id_L [] (++)). Qed.

Lemma calls_only_do c : P c → ensures (calls_only P) (do c).
Proof.
  intros Hc s. exists [c]. unfold do. destruct (perform c (world s)); simpl.
  split; [done|by repeat constructor].
Qed.

Lemma calls_only_extract_members errorlevel path numeric_owner refs :
  (∀ t set_attrs, P (TarExtract errorlevel t path set_attrs numeric_owner)) →
  ∀ ds, ensures (calls_only P) (extract_members errorlevel path numeric_owner refs ds).
Proof.
  intros HP. induction refs as [|r refs IH]; intros ds; simpl; [by apply ensures_ret, _|].
  apply ensures_bind; [apply _|by apply calls_only_quiet|intros t].
  destruct (isdir t);
    (apply ensures_bind; [apply _|apply calls_only_do, HP|intros _; apply IH]).
Qed.

Lemma calls_only_set_directory_attrs errorlevel path numeric_owner ds :
  (∀ m c, attr_call path numeric_owner m c → P c) →
  ensures (calls_only P) (set_directory_attrs errorlevel path numeric_owner ds).
Proof.
  intros HP. induction ds as [|r ds IH]; simpl; [by apply ensures_ret, _|].
  apply ensures_bind; [apply _| |by intros].
  intros s. destruct (try_except _ _ s) as [s1 res] eqn:E.
  apply set_attrs_one in E as [(cs & Hc & Hf) _]. exists cs. split; [done|].
  eapply Forall_impl; [exact Hf|]. intros c. apply HP.
Qed.

Lemma calls_only_extractall errorlevel path numeric_owner :
  (∀ t set_attrs, P (TarExtract errorlevel t path set_attrs numeric_owner)) →
  (∀ m c, attr_call path numeric_owner m c → P c) →
  ensures (calls_only P) (extractall errorlevel path numeric_owner).
Proof.
  intros HP1 HP2. unfold extractall.
  apply ensures_bind; [apply _|by apply calls_only_quiet|intros ms].
  apply ensures_bind; [apply _|by apply calls_only_extract_members|intros ds].
  apply ensures_bind; [apply _|by apply calls_only_quiet|intros ms'].
  by apply calls_only_set_directory_attrs.
Qed.

Lemma calls_only_process_whiteouts ms :
  (∀ p, P (OsUnlink p)) → ensures (calls_only P) (process_whiteouts ms).
Proof.
  intros HP. induction ms as [|member ms IH]; simpl; [by apply ensures_ret, _|].
  apply ensures_bind; [apply _| |by intros].
  unfold whiteout. destruct (is_whiteout _); [|by apply ensures_ret, _].
  apply ensures_try; [apply _| |].
  - apply ensures_bind; [apply _|by apply calls_only_quiet|intros _].
    apply ensures_bind; [apply _|apply calls_only_do, HP|intros _].
    apply calls_only_do, HP.
  - intros e. destruct e; try (by apply ensures_raise, _).
    case_bool_decide; [by apply ensures_raise, _|by apply ensures_ret, _].
Qed.

End Shapes.

Section OutputCalls.
Context {W : Type} `{!OS W}.
Implicit Types (s : state W).

Lemma output_call_attr args m c :
  attr_call (arg_output args) false m c → output_call args c.
Proof. destruct 1; simpl; by rewrite ?final_name. Qed.

Lemma output_call_extract_layers args img ids :
  ensures (calls_only (W:=W) (output_call args)) (extract_layers args img ids).
Proof.
  induction ids as [|id ids IH]; simpl; [by apply ensures_ret, _|].
  apply ensures_bind; [apply _| |by intros].
  apply ensures_if; [by apply ensures_ret, _|]. unfold extract_layer.
  apply ensures_bind; [apply _|by apply calls_only_quiet|intros _].
  destruct (img_layer_tar img !! id) as [entries|]; [|by apply ensures_raise, _].
  apply ensures_bind; [apply _|by apply calls_only_quiet|intros _].
  apply ensures_bind; [apply _| |intros _].
  { apply calls_only_extractall; [done|apply output_call_attr]. }
  destruct (arg_no_whiteouts args); [by apply ensures_ret, _|].
  apply ensures_bind; [apply _|by apply calls_only_quiet|intros _].
  apply ensures_bind; [apply _|by apply calls_only_quiet|intros ms].
  by apply calls_only_process_whiteouts.
Qed.

End OutputCalls.

(** ** The extract calls of a run *)

Section Extracts.
Context {W : Type} `{!OS W}.
Implicit Types (s : state W).

Lemma extract_calls_app cs1 cs2 :
  extract_calls (cs1 ++ cs2) = extract_calls cs1 ++ extract_calls cs2.
Proof. apply omap_app. Qed.

Lemma extract_calls_id cs : Forall is_extract cs → extract_calls cs = cs.
Proof.
  induction 1 as [|c cs Hc Hcs IH]; [done|].
  destruct c; try done.
  change (extract_calls (TarExtract errorlevel t path set_attrs numeric_owner :: cs))
    with (TarExtract errorlevel t path set_attrs numeric_owner :: extract_calls cs).
  by rewrite IH.
Qed.

Lemma extract_calls_other cs : Forall (λ c, ¬ is_extract c) cs → extract_calls cs = [].
Proof.
  induction 1 as [|c cs Hc Hcs IH]; [done|].
  destruct c; try (by exfalso; apply Hc); apply IH.
Qed.

Lemma is_extract_fmap errorlevel path numeric_owner (ms : list TarInfo) :
  Forall is_extract (extract_call errorlevel path numeric_owner <$> ms).
Proof. apply Forall_fmap, Forall_forall. by intros m _. Qed.

(** Calls other than [extract] do not show. *)
Lemma still_calls_only s s1 :
  calls_only (λ c, ¬ is_extract c) s s1 → same_on extract_calls s s1.
Proof.
  intros (cs & Hc & Hf). unfold same_on.
  by rewrite Hc, extract_calls_app, (extract_calls_other cs Hf), (right_id_L [] (++)).
Qed.

(** The first loop, as far as it gets. *)
Lemma extract_members_prefix errorlevel path numeric_owner refs :
  ∀ ds s, ∃ l',
    l' `prefix_of`
      ((λ r, extract_call errorlevel path numeric_owner (members s !!! r)) <$> refs) ∧
    calls (extract_members errorlevel path numeric_owner refs ds s).1 = calls s ++ l'.
Proof.
  induction refs as [|r refs IH]; intros ds s; simpl.
  { exists []. by rewrite (right_id_L [] (++)). }
  mrun. unfold extract_call at 1.
  change (isdir (set_mode OWNER_READ_WRITE (members s !!! r)))
    with (isdir (members s !!! r)).
  destruct (isdir (members s !!! r)) eqn:Hd; mrun.
  - case_perform.
    + eexists [_]. split; [|done]. apply prefix_cons, prefix_nil.
    + edestruct IH as (l' & Hp & Hc). rewrite Hc. simpl.
      eexists (_ :: l'). rewrite <-(assoc_L (++)). split; [|done]. by apply prefix_cons.
  - case_perform.
    + eexists [_]. split; [|done]. apply prefix_cons, prefix_nil.
    + edestruct IH as (l' & Hp & Hc). rewrite Hc. simpl.
      eexists (_ :: l'). rewrite <-(assoc_L (++)). split; [|done]. by apply prefix_cons.
Qed.

(** The [extract] calls of [extractall]: one for each object of the
    archive, in the order of the archive. *)
Lemma extractall_extracts errorlevel path numeric_owner s :
  (∃ l', l' `prefix_of` (extract_call errorlevel path numeric_owner <$> members s) ∧
     extract_calls (calls (extractall errorlevel path numeric_owner s).1) =
     extract_calls (calls s) ++ l') ∧
  ((extractall errorlevel path numeric_owner s).2 = Ok tt →
     extract_calls (calls (extractall errorlevel path numeric_owner s).1) =
     extract_calls (calls s) ++ (extract_call errorlevel path numeric_owner <$> members s)).
Proof.
  pose proof (is_extract_fmap errorlevel path numeric_owner (members s)) as Hall.
  destruct (extract_members errorlevel path numeric_owner (seq 0 (length (members s))) [] s)
    as [s1 [ds|e]] eqn:E1.
  - pose proof (extract_members_calls _ _ _ _ _ _ _ _ E1) as Hc1.
    rewrite fmap_lookup_total_seq in Hc1.
    pose proof (extract_members_run _ _ _ _ _ _ _ _ E1) as (Hm & _ & _ & Hds).
    rewrite (extractall_result _ _ _ _ _ _ E1).
    pose proof (calls_only_set_directory_attrs (λ c, ¬ is_extract c) errorlevel path
                  numeric_owner (reverse_sorted (members s1) ds)
                  ltac:(by destruct 1; intros []) s1) as Hs%still_calls_only.
    unfold same_on in Hs. rewrite Hs, Hc1, extract_calls_app, (extract_calls_id _ Hall).
    split; [by eexists|done].
  - rewrite (extractall_first_raise _ _ _ _ _ _ E1). simpl.
    destruct (extract_members_prefix errorlevel path numeric_owner
                (seq 0 (length (members s))) [] s) as (l' & Hp & Hc).
    rewrite E1, fmap_lookup_total_seq in *. simpl in Hc.
    split; [|done]. exists l'. split; [done|].
    rewrite Hc, extract_calls_app. f_equal. apply extract_calls_id.
    destruct Hp as [k Hk]. rewrite Hk in Hall. by apply Forall_app in Hall as [? _].
Qed.

Lemma extracts_still {A} (m : M W A) :
  ensures (same_on extract_calls) m → extracts m [].
Proof.
  intros Hm s. specialize (Hm s). unfold same_on in Hm.
  rewrite Hm, (right_id_L [] (++)). split; [|done].
  exists []. by rewrite (right_id_L [] (++)).
Qed.

Lemma extracts_bind {A B} (m : M W A) (k : A → M W B) l1 l2 :
  extracts m l1 → (∀ a, extracts (k a) l2) → extracts (m ≫= k) (l1 ++ l2).
Proof.
  intros Hm Hk s. rewrite run_bind. destruct (Hm s) as [(l1' & Hp1 & H1) Hok1].
  destruct (m s) as [s1 [a|e]]; simpl in *.
  - destruct (Hk a s1) as [(l2' & Hp2 & H2) Hok2]. rewrite (Hok1 a eq_refl) in *. split.
    + exists (l1 ++ l2'). split; [by apply prefix_app|].
      by rewrite H2, <-(assoc_L (++)).
    + intros b Hb. by rewrite (Hok2 b Hb), <-(assoc_L (++)).
  - split; [|done]. exists l1'. split; [by apply prefix_app_r|done].
Qed.

(** A first part without [extract] calls, whose result the second part
    may depend on. *)
Lemma extracts_still_bind {A B} (m : M W A) (k : A → M W B) l :
  ensures (same_on extract_calls) m →
  (∀ s s' a, m s = (s', Ok a) → extracts (k a) l) →
  extracts (m ≫= k) l.
Proof.
  intros Hm Hk s. rewrite run_bind. specialize (Hm s). unfold same_on in Hm.
  destruct (m s) as [s1 [a|e]] eqn:E; simpl in *.
  - rewrite <-Hm. apply (Hk s s1 a E).
  - split; [|done]. exists []. split; [apply prefix_nil|].
    by rewrite Hm, (right_id_L [] (++)).
Qed.

Lemma still_whiteouts args :
  ensures (W:=W) (same_on extract_calls)
    (if arg_no_whiteouts args then mret tt
     else emit (LogInfo "processing whiteouts");;
          ms ← getmembers; process_whiteouts ms).
Proof.
  destruct (arg_no_whiteouts args); [by apply ensures_ret, _|].
  apply ensures_bind; [apply _|apply same_on_emit|intros _].
  apply ensures_bind; [apply _|apply same_on_getmembers|intros ms].
  intros s. apply still_calls_only.
  apply (calls_only_process_whiteouts (λ c, ¬ is_extract c)). by intros p [].
Qed.

(** One layer: the members of its archive, in their order. *)
Lemma extract_layer_extracts args img id :
  extracts (extract_layer args img id) (layer_extracts args img id).
Proof.
  unfold extract_layer, layer_extracts.
  apply extracts_still_bind; [apply same_on_emit|intros _ _ _ _].
  destruct (img_layer_tar img !! id) as [entries|]; simpl;
    [|by apply extracts_still, ensures_raise, _].
  intros s. rewrite run_bind. simpl.
  set (s1 := mkState (world s) entries (calls s) (records s)).
  change (extract_calls (calls s)) with (extract_calls (calls s1)).
  assert (He : entries = members s1) by done.
  rewrite run_bind, He. clearbody s1.
  destruct (extractall_extracts (errorlevel_of args) (arg_output args) false s1)
    as [(l' & Hp & H1) Hok].
  destruct (extractall _ _ _ s1) as [s2 [[]|e]]; simpl in *.
  - pose proof (still_whiteouts args s2) as Hs. unfold same_on in Hs.
    rewrite Hs, (Hok eq_refl). split; [|done].
    eexists. split; [|reflexivity]. done.
  - split; [by exists l'|done].
Qed.

(** The loop of [main]: the selected layers of its list, in the order
    of the list. *)
Lemma extract_layers_extracts args img ids :
  extracts (extract_layers args img ids)
           (concat (layer_extracts args img <$> selected args ids)).
Proof.
  induction ids as [|id ids IH]; simpl.
  { by apply extracts_still, ensures_ret, _. }
  unfold selected. rewrite filter_cons.
  destruct (skipped args id) eqn:Hs; simpl.
  - apply extracts_still_bind; [by apply ensures_ret, _|intros _ _ _ _; apply IH].
  - apply extracts_bind; [apply extract_layer_extracts|intros _; apply IH].
Qed.

(** [main] hands to its loop the reversed result of the walk, and
    calls [extract] nowhere else. *)
Lemma main_extracts limit args img repos top :
  img_repositories img = Some repos →
  arg_list args = false → arg_layers args = false →
  (∀ s s' image n t, select_image args repos s = (s', Ok image) →
     ∀ s1 s1', split_reference repos image s1 = (s1', Ok (n, t)) →
     ∀ s2 s2' top', lookup_top repos n t s2 = (s2', Ok top') → top' = top) →
  ∀ ids, (∀ s s' l, find_layers limit img top s = (s', Ok l) → l = ids) →
  extracts (main limit args img)
           (concat (layer_extracts args img <$> selected args (reverse ids))).
Proof.
  intros Hrepos Hlist Hlayers Htop ids Hids. unfold main.
  rewrite Hrepos, Hlist, Hlayers.
  assert (Hu : ∀ {A} (m : M W A), ensures untouched m → ensures (same_on extract_calls) m).
  { intros A m Hm. eapply ensures_weaken; [apply untouched_same_on|done]. }
  apply extracts_still_bind; [by apply ensures_ret, _|intros _ _ repos' [= _ <-]].
  apply extracts_still_bind; [by apply ensures_ret, _|intros _ _ _ _].
  apply extracts_still_bind; [apply Hu, untouched_select_image|intros s0 s0' image Hi].
  apply extracts_still_bind; [apply Hu, untouched_split_reference|intros s1 s1' [n t] Hs].
  apply extracts_still_bind; [apply Hu, untouched_lookup_top|intros s2 s2' top' Ht].
  rewrite (Htop _ _ _ _ _ Hi _ _ Hs _ _ _ Ht).
  apply extracts_still_bind; [apply same_on_emit|intros _ _ _ _].
  apply extracts_still_bind; [apply Hu, untouched_find_layers|intros s3 s3' l Hl].
  rewrite (Hids _ _ _ Hl).
  apply extracts_still_bind; [by apply ensures_ret, _|intros _ _ _ _].
  apply extracts_still_bind; [done|intros _ _ d _].
  apply extracts_still_bind; [|intros _ _ _ _; apply extract_layers_extracts].
  destruct d; [by apply ensures_ret, _|]. apply same_on_do.
  intros cs. rewrite extract_calls_app. apply (right_id_L [] (++)).
Qed.

End Extracts.

(** ** How the chain walk ends *)

Section WalkResult.
Context {W : Type} `{!OS W}.
Implicit Types (s : state W).

(** On a chain without cycle the walk returns the chain, unless the
    recursion limit ends it before. *)
Lemma find_layers_chain_cases img top ids :
  chain img top ids →
  ∀ limit s,
    (find_layers limit img top s).2 =
    if decide (length ids ≤ limit) then Ok ids else Raise RecursionError.
Proof.
  intros Hc limit s. case_decide as Hl; [by apply find_layers_chain|].
  assert (Hlt : limit < length ids) by lia. clear Hl. revert limit s Hlt.
  induction Hc as [id info Hj Hp | id info pid rest Hj Hp Hc IH];
    intros [|limit] s Hl; simpl in Hl; try done; try lia.
  destruct (find_layers_step limit img id info s Hj) as [s1 ->].
  rewrite Hp, run_bind. specialize (IH limit s1 ltac:(lia)).
  destruct (find_layers limit img pid s1) as [s2 r]. simpl in IH. by subst r.
Qed.

Lemma find_layers_chain_only img top ids :
  chain img top ids →
  ∀ limit s s' l, find_layers limit img top s = (s', Ok l) → l = ids.
Proof.
  intros Hc limit s s' l E.
  pose proof (find_layers_chain_cases img top ids Hc limit s) as Hr.
  rewrite E in Hr. simpl in Hr. case_decide; by simplify_eq.
Qed.

(** On links that lead to an id without metadata the walk ends with
    the [KeyError] of [extractfile], unless the recursion limit ends
    it before. *)
Lemma find_layers_missing img :
  ∀ limit n top id s,
    nth_parent img n top = Some id → img_json img !! id = None →
    (find_layers limit img top s).2 =
    if decide (n < limit) then Raise (not_found (id +:+ "/json")) else Raise RecursionError.
Proof.
  induction limit as [|limit IH]; intros n top id s Hn Hid.
  { by rewrite decide_False by lia. }
  destruct n as [|n]; simpl in Hn.
  { injection Hn as ->. rewrite decide_True by lia. simpl. by rewrite Hid. }
  destruct (img_json img !! top) as [info|] eqn:Hj; [|done].
  destruct (parent info) as [pid|] eqn:Hp; [|done].
  destruct (find_layers_step limit img top info s Hj) as [s1 ->].
  rewrite Hp, run_bind.
  specialize (IH n pid id s1 Hn Hid).
  destruct (find_layers limit img pid s1) as [s2 r]. simpl in IH. subst r.
  repeat case_decide; done || lia.
Qed.

End WalkResult.

(** ** Every directory is visited *)

Section Deferred.
Context {W : Type} `{!OS W}.
Implicit Types (s : state W) (ds : list nat) (ms : list TarInfo).

(** A directory of the archive is one of the deferred ones. *)
Lemma deferred_position ms r m :
  ms !! r = Some m → isdir m →
  r ∈ reverse_sorted ms (filter (λ r, isdir (ms !!! r)) (seq 0 (length ms))).
Proof.
  intros Hr Hd. rewrite reverse_sorted_perm. apply list_elem_of_filter. split.
  - by rewrite (list_lookup_total_correct _ _ _ Hr).
  - apply elem_of_seq. apply lookup_lt_Some in Hr. lia.
Qed.

Lemma deferred_elem ms r m : ms !! r = Some m → isdir m → m ∈ deferred ms.
Proof.
  intros Hr Hd. unfold deferred.
  rewrite <-(list_lookup_total_correct _ _ _ Hr).
  apply (list_elem_of_fmap_2 (λ r, ms !!! r)).
  by apply (deferred_position ms r m).
Qed.

(** The three calls of a directory among those of a list. *)
Lemma attr_calls_split path numeric_owner m ms :
  m ∈ ms →
  ∃ pre post,
    concat (attr_calls path numeric_owner <$> ms) =
    pre ++ attr_calls path numeric_owner m ++ post.
Proof.
  intros (d1 & d2 & ->)%list_elem_of_split.
  exists (concat (attr_calls path numeric_owner <$> d1)),
         (concat (attr_calls path numeric_owner <$> d2)).
  by rewrite fmap_app, fmap_cons, concat_app, concat_cons.
Qed.

Lemma attr_calls_other path numeric_owner ms :
  extract_calls (concat (attr_calls path numeric_owner <$> ms)) = [].
Proof.
  induction ms as [|m ms IH]; [done|].
  by rewrite fmap_cons, concat_cons, extract_calls_app, IH.
Qed.

(** The calls of [extractall] when it returns and nothing was handed
    to [_dbg]. *)
Lemma extractall_silent errorlevel path numeric_owner s :
  (extractall errorlevel path numeric_owner s).2 = Ok tt →
  records (extractall errorlevel path numeric_owner s).1 = records s →
  calls_of (extractall errorlevel path numeric_owner) s =
    (extract_call errorlevel path numeric_owner <$> members s) ++
    concat (attr_calls path numeric_owner <$> deferred (members s)).
Proof.
  intros Hok.
  destruct (extract_members errorlevel path numeric_owner (seq 0 (length (members s))) [] s)
    as [s1 [ds|e]] eqn:E1.
  2:{ by rewrite (extractall_first_raise _ _ _ _ _ _ E1) in Hok. }
  pose proof (extract_members_calls _ _ _ _ _ _ _ _ E1) as Hc1.
  rewrite fmap_lookup_total_seq in Hc1.
  pose proof (extract_members_run _ _ _ _ _ _ _ _ E1) as (Hm & Hr & _ & Hds).
  unfold calls_of, deferred. rewrite (extractall_result _ _ _ _ _ _ E1) in Hok |- *.
  rewrite (Hds ds eq_refl) in Hok |- *. simpl in Hok |- *. rewrite Hm in Hok |- *.
  destruct (set_directory_attrs _ _ _ _ s1) as [s2 res] eqn:E2. simpl in Hok |- *.
  subst res. intros Hrec.
  rewrite (set_directory_attrs_silent _ _ _ _ (deferred_NoDup s (members s)) s1 s2 E2)
    by congruence.
  by rewrite Hc1, Hm, <-(assoc_L (++)), drop_app_length, <-list_fmap_compose.
Qed.

(** The first call for a directory is made, whatever it leads to. *)
Lemma set_attrs_one_chown errorlevel path numeric_owner r s :
  ∃ cs, calls (try_except (set_attrs_body path numeric_owner r)
                          (set_attrs_handler errorlevel) s).1 =
        calls s ++ TarChown (members s !!! r)
                            (path_join path (name (members s !!! r))) numeric_owner :: cs.
Proof.
  unfold try_except.
  destruct (set_attrs_body path numeric_owner r s) as [s0 res] eqn:Hb.
  assert (Hc : ∃ cs, calls s0 = calls s ++
            TarChown (members s !!! r)
                     (path_join path (name (members s !!! r))) numeric_owner :: cs).
  { revert Hb. unfold set_attrs_body. mrun.
    case_perform; [intros [= <- _]; by exists []|].
    case_perform; [intros [= <- _]; simpl; eexists [_]; by rewrite <-(assoc_L (++))|].
    case_bool_decide; mrun; case_perform; intros [= <- _]; simpl;
      eexists [_; _]; by rewrite <-!(assoc_L (++)). }
  destruct res as [[]|e]; [done|].
  destruct (set_attrs_handler errorlevel e s0) as [s1 res1] eqn:Hh.
  apply set_attrs_handler_run in Hh as (Hc' & _ & _). simpl. by rewrite Hc'.
Qed.

Lemma calls_grow errorlevel path numeric_owner ds s :
  ∃ cs, calls (set_directory_attrs errorlevel path numeric_owner ds s).1 = calls s ++ cs.
Proof.
  destruct (calls_only_set_directory_attrs (λ _, True) errorlevel path numeric_owner ds
              ltac:(done) s) as (cs & Hc & _).
  by exists cs.
Qed.

(** A second loop that comes to its end has visited every directory
    of its list. *)
Lemma set_directory_attrs_visits errorlevel path numeric_owner ds :
  NoDup ds → ∀ s,
    (set_directory_attrs errorlevel path numeric_owner ds s).2 = Ok tt →
    ∀ r, r ∈ ds →
      TarChown (members s !!! r) (path_join path (name (members s !!! r))) numeric_owner
        ∈ drop (length (calls s))
               (calls (set_directory_attrs errorlevel path numeric_owner ds s).1).
Proof.
  induction 1 as [|r0 ds Hr Hnd IH]; intros s Hok r Hin; [by apply elem_of_nil in Hin|].
  revert Hok. simpl. rewrite run_bind.
  destruct (set_attrs_one_chown errorlevel path numeric_owner r0 s) as [cs1 Hc1].
  destruct (try_except _ _ s) as [s1 res] eqn:E. simpl in Hc1.
  destruct res as [[]|e]; [|done]. intros Hok.
  destruct (calls_grow errorlevel path numeric_owner ds s1) as [cs2 Hc2].
  apply elem_of_cons in Hin as [->|Hin].
  - rewrite Hc2, Hc1, <-(assoc_L (++)), drop_app_length. set_solver.
  - specialize (IH s1 Hok r Hin).
    rewrite (set_attrs_one_frame _ _ _ _ _ _ _ r E) in IH by (by intros ->).
    rewrite Hc2, drop_app_length in IH.
    rewrite Hc2, Hc1, <-!(assoc_L (++)), drop_app_length. set_solver.
Qed.

Lemma extractall_visits errorlevel path numeric_owner s r m :
  (extractall errorlevel path numeric_owner s).2 = Ok tt →
  members s !! r = Some m → isdir m →
  TarChown m (path_join path (name m)) numeric_owner
    ∈ calls_of (extractall errorlevel path numeric_owner) s.
Proof.
  intros Hok Hr Hd.
  destruct (extract_members errorlevel path numeric_owner (seq 0 (length (members s))) [] s)
    as [s1 [ds|e]] eqn:E1.
  2:{ by rewrite (extractall_first_raise _ _ _ _ _ _ E1) in Hok. }
  pose proof (extract_members_run _ _ _ _ _ _ _ _ E1) as (Hm & _ & (cs1 & Hc1 & _) & Hds).
  unfold calls_of. rewrite (extractall_result _ _ _ _ _ _ E1) in Hok |- *.
  rewrite (Hds ds eq_refl) in Hok |- *. simpl in Hok |- *. rewrite Hm in Hok |- *.
  pose proof (set_directory_attrs_visits errorlevel path numeric_owner _
                (deferred_NoDup s (members s)) s1 Hok r
                (deferred_position (members s) r m Hr Hd)) as Hv.
  rewrite Hm, (list_lookup_total_correct _ _ _ Hr) in Hv.
  destruct (calls_grow errorlevel path numeric_owner
              (reverse_sorted (members s)
                 (filter (λ r, isdir (members s !!! r)) (seq 0 (length (members s))))) s1)
    as [cs2 Hc2].
  rewrite Hc2, drop_app_length in Hv.
  rewrite Hc2, Hc1, <-(assoc_L (++)), drop_app_length. set_solver.
Qed.

End Deferred.

(** ** Failures of the calls, and what becomes of them *)

Section Answers.
Context {W : Type} `{!OS W}.
Implicit Types (s : state W).

Lemma raised_Some {A} (r : result A) e : raised r = Some e ↔ r = Raise e.
Proof. destruct r; simpl; naive_solver. Qed.

Lemma replay_app cs1 cs2 :
  ∀ w w1 l1 w2 l2,
    replay cs1 w = (w1, l1) → replay cs2 w1 = (w2, l2) →
    replay (cs1 ++ cs2) w = (w2, l1 ++ l2).
Proof.
  induction cs1 as [|c cs1 IH]; intros w w1 l1 w2 l2; simpl.
  { by intros [= <- <-]. }
  destruct (perform c w) as [w' r]. destruct (replay cs1 w') as [w'' l] eqn:E.
  intros [= <- <-] H2. by rewrite (IH _ _ _ _ _ E H2).
Qed.

Lemma answered_do c s : answered (do c) s [c] [(c, (perform c (world s)).2)].
Proof. unfold answered, do. simpl. by destruct (perform c (world s)) as [w r]. Qed.

Lemma answered_bind {A B} (m : M W A) (k : A → M W B) s s1 a cs1 l1 cs2 l2 :
  m s = (s1, Ok a) → answered m s cs1 l1 → answered (k a) s1 cs2 l2 →
  answered (m ≫= k) s (cs1 ++ cs2) (l1 ++ l2).
Proof.
  intros E. unfold answered. rewrite run_bind, E. simpl.
  intros [Hc1 Hr1] [Hc2 Hr2]. split.
  - by rewrite Hc2, Hc1, (assoc_L (++)).
  - by apply (replay_app cs1 cs2 _ (world s1)).
Qed.

Lemma answered_raise {A B} (m : M W A) (k : A → M W B) s s1 e cs l :
  m s = (s1, Raise e) → answered m s cs l → answered (m ≫= k) s cs l.
Proof. intros E. unfold answered. by rewrite run_bind, E. Qed.

(** *** Programs without calls *)

Lemma internal_ret {A} (a : A) : internal (W:=W) (mret a).
Proof. intros s. split_and!; [done..|]. by intros e [=]. Qed.

Lemma internal_raise {A} e : ¬ external e → internal (W:=W) (A:=A) (raise e).
Proof. intros He s. split_and!; [done..|]. by intros e' [= <-]. Qed.

Lemma internal_emit r : internal (W:=W) (emit r).
Proof. intros s. split_and!; [done..|]. by intros e [=]. Qed.

Lemma internal_bind {A B} (m : M W A) (k : A → M W B) :
  internal m → (∀ a, internal (k a)) → internal (m ≫= k).
Proof.
  intros Hm Hk s. rewrite run_bind. destruct (Hm s) as (Hw & Hc & He).
  destruct (m s) as [s1 [a|e]]; simpl in *.
  - destruct (Hk a s1) as (Hw' & Hc' & He'). split_and!; [congruence..|done].
  - split_and!; [done..|]. intros e' [= <-]. by apply He.
Qed.

Lemma internal_log_key k v : internal (W:=W) (log_key k v).
Proof. destruct v; [apply internal_emit|apply internal_ret]. Qed.

Lemma internal_find_layers limit img : ∀ id, internal (W:=W) (find_layers limit img id).
Proof.
  induction limit as [|limit IH]; intros id; simpl; [apply internal_raise; by intros []|].
  destruct (img_json img !! id) as [info|]; [|apply internal_raise; by intros []].
  repeat (apply internal_bind; [first [apply internal_emit|apply internal_log_key]|intros _]).
  destruct (parent info); [|apply internal_ret].
  apply internal_bind; [apply IH|intros; apply internal_ret].
Qed.

Lemma internal_print_repos repos : internal (W:=W) (print_repos repos).
Proof.
  induction repos as [|[n tags] repos IH]; simpl; [apply internal_ret|].
  apply internal_bind; [apply internal_emit|by intros].
Qed.

Lemma internal_select_image args repos : internal (W:=W) (select_image args repos).
Proof.
  unfold select_image.
  assert (Hk : internal (W:=W) (A:=string) match dict_keys repos with
               | [k] => mret k
               | _ => emit (LogError "No image name specified and multiple images contained in archive");;
                      raise (SystemExit 1)
               end).
  { destruct (dict_keys repos) as [|k [|k' l]];
      try apply internal_ret;
      (apply internal_bind; [apply internal_emit|intros; apply internal_raise; by intros []]). }
  destruct (arg_image args) as [[|c i]|]; [done|apply internal_ret|done].
Qed.

Lemma internal_split_reference repos image :
  internal (W:=W) (split_reference repos image).
Proof.
  unfold split_reference. destruct (split_colon image) as [[n t]|]; [apply internal_ret|].
  destruct (dict_get repos image) as [tags|]; [|apply internal_raise; by intros []].
  destruct (dict_keys tags); [apply internal_raise; by intros []|apply internal_ret].
Qed.

Lemma internal_lookup_top repos n t : internal (W:=W) (lookup_top repos n t).
Proof.
  unfold lookup_top. destruct (_ ≫= _); [apply internal_ret|].
  apply internal_bind; [apply internal_emit|intros; apply internal_raise; by intros []].
Qed.

(** *** Programs without [unlink] *)

Lemma tar_only_internal {A} (m : M W A) : internal m → tar_only m.
Proof.
  intros Hm s. destruct (Hm s) as (Hw & Hc & He). exists [], [].
  split_and!; [|constructor|].
  - split; [by rewrite Hc, (right_id_L [] (++))|by rewrite Hw].
  - intros e Hr%raised_Some Hx. by destruct (He e Hr).
Qed.

Lemma tar_only_do c : ¬ is_unlink c → tar_only (do c).
Proof.
  intros Hc s. exists [c], [(c, (perform c (world s)).2)].
  split_and!; [apply answered_do|by repeat constructor|].
  intros e He _. exists c. revert He. unfold do.
  destruct (perform c (world s)) as [w [e'|]]; simpl; [|done]. by intros [= ->].
Qed.

Lemma tar_only_bind {A B} (m : M W A) (k : A → M W B) :
  tar_only m → (∀ a, tar_only (k a)) → tar_only (m ≫= k).
Proof.
  intros Hm Hk s. destruct (Hm s) as (cs1 & l1 & H1 & F1 & L1).
  destruct (m s) as [s1 [a|e]] eqn:E; simpl in *.
  - destruct (Hk a s1) as (cs2 & l2 & H2 & F2 & L2).
    exists (cs1 ++ cs2), (l1 ++ l2). split_and!.
    + by apply (answered_bind m k s s1 a).
    + by apply Forall_app.
    + rewrite run_bind, E. intros e Hr Hx. destruct (L2 e Hr Hx) as [c Hc]. exists c.
      by rewrite last_app, Hc.
  - exists cs1, l1. split_and!; [by apply (answered_raise m k s s1 e)|done|].
    by rewrite run_bind, E.
Qed.

(** A handler that makes no call, and lets through what it does not
    handle. *)
Lemma tar_only_try {A} (m : M W A) h :
  tar_only m →
  (∀ e s, world (h e s).1 = world s ∧ calls (h e s).1 = calls s ∧
          ∀ e', (h e s).2 = Raise e' → e' = e) →
  tar_only (try_except m h).
Proof.
  intros Hm Hh s. unfold try_except, answered. destruct (Hm s) as (cs1 & l1 & H1 & F1 & L1).
  destruct H1 as [Hc1 Hr1].
  destruct (m s) as [s1 [a|e]]; simpl in *; [by exists cs1, l1|].
  destruct (Hh e s1) as (Hw & Hc & He). exists cs1, l1. rewrite Hw, Hc.
  split_and!; [done..|].
  intros e' Hr%raised_Some Hx. rewrite (He e' Hr) in *. by apply L1.
Qed.

Lemma tar_only_extract_members errorlevel path numeric_owner refs :
  ∀ ds, tar_only (extract_members errorlevel path numeric_owner refs ds).
Proof.
  induction refs as [|r refs IH]; intros ds; simpl;
    [apply tar_only_internal, internal_ret|].
  apply tar_only_bind; [by apply tar_only_internal|intros t].
  destruct (isdir t);
    (apply tar_only_bind; [apply tar_only_do; by intros []|intros _; apply IH]).
Qed.

Lemma tar_only_set_directory_attrs errorlevel path numeric_owner ds :
  tar_only (set_directory_attrs errorlevel path numeric_owner ds).
Proof.
  induction ds as [|r ds IH]; simpl; [apply tar_only_internal, internal_ret|].
  apply tar_only_bind; [|by intros].
  apply tar_only_try.
  - unfold set_attrs_body.
    apply tar_only_bind; [by apply tar_only_internal|intros t].
    apply tar_only_bind; [apply tar_only_do; by intros []|intros _].
    apply tar_only_bind; [apply tar_only_do; by intros []|intros _].
    apply tar_only_bind; [|intros _].
    { apply tar_only_internal. case_bool_decide; [done|apply internal_ret]. }
    apply tar_only_bind; [by apply tar_only_internal|intros t'].
    apply tar_only_do. by intros [].
  - intros e s. unfold set_attrs_handler.
    destruct e; try (split_and!; [done..|by intros e' [= <-]]).
    case_bool_decide; (split_and!; [done..|]); by intros e' [=].
Qed.

Lemma tar_only_extractall errorlevel path numeric_owner :
  tar_only (extractall errorlevel path numeric_owner).
Proof.
  unfold extractall.
  apply tar_only_bind; [by apply tar_only_internal|intros ms].
  apply tar_only_bind; [apply tar_only_extract_members|intros ds].
  apply tar_only_bind; [by apply tar_only_internal|intros ms'].
  apply tar_only_set_directory_attrs.
Qed.

(** *** The policy *)

Lemma accounts_tar_only {A} (m : M W A) : tar_only m → accounts m.
Proof.
  intros Hm s. destruct (Hm s) as (cs & l & Hl & Hf & Hlast). exists cs, l.
  split; [done|]. split.
  - intros i p e Hi _. apply list_elem_of_lookup_2 in Hi.
    by destruct (proj1 (Forall_forall _ _) Hf _ Hi).
  - intros e Hr Hx. destruct (Hlast e Hr Hx) as [c Hc]. exists c. split; [done|].
    intros Hu. apply last_Some_elem_of in Hc.
    by destruct (proj1 (Forall_forall _ _) Hf _ Hc).
Qed.

Lemma accounts_internal {A} (m : M W A) : internal m → accounts m.
Proof. intros Hm. by apply accounts_tar_only, tar_only_internal. Qed.

Lemma accounts_bind {A B} (m : M W A) (k : A → M W B) :
  accounts m → (∀ a, accounts (k a)) → accounts (m ≫= k).
Proof.
  intros Hm Hk s. destruct (Hm s) as (cs1 & l1 & H1 & K1 & L1).
  destruct (m s) as [s1 [a|e]] eqn:E; simpl in *.
  2:{ exists cs1, l1. split; [by apply (answered_raise m k s s1 e)|].
      by rewrite run_bind, E. }
  destruct (Hk a s1) as (cs2 & l2 & H2 & K2 & L2).
  exists (cs1 ++ cs2), (l1 ++ l2).
  split; [by apply (answered_bind m k s s1 a)|]. rewrite run_bind, E. split.
  - intros i p e [Hi|[Hlen Hi]]%lookup_app_Some Hne.
    + by destruct (K1 i p e Hi Hne) as [_ ?].
    + destruct (K2 _ p e Hi Hne) as [Hlast ->]. split; [|done].
      rewrite length_app. lia.
  - intros e Hr Hx. destruct (L2 e Hr Hx) as (c & Hc & Hu). exists c.
    by rewrite last_app, Hc.
Qed.

Lemma accounts_whiteout member : accounts (whiteout member).
Proof.
  destruct (is_whiteout (name member)) eqn:Hw.
  2:{ unfold whiteout. rewrite Hw. apply accounts_internal, internal_ret. }
  intros s. unfold answered. rewrite (whiteout_run member s Hw). cbv zeta.
  destruct (perform (OsUnlink (name member)) (world s)) as [w1 [e1|]] eqn:H1.
  { eexists [_], [_]. split; [split; [done|simpl; by rewrite H1]|]. split.
    - intros [|i] p e Hi Hne; [|done]. simpl in Hi. simplify_eq.
      split; [done|]. simpl. by rewrite decide_False.
    - intros e. simpl. case_decide; [done|]. intros [= <-] _.
      eexists. split; [done|]. by intros _. }
  destruct (perform (OsUnlink (newpath_of (name member))) w1) as [w2 [e2|]] eqn:H2.
  - eexists [_; _], [_; _]. split; [split; [done|simpl; by rewrite H1, H2]|]. split.
    + intros [|[|i]] p e Hi Hne; simpl in Hi; simplify_eq.
      split; [done|]. simpl. by rewrite decide_False.
    + intros e. simpl. case_decide; [done|]. intros [= <-] _.
      eexists. split; [done|]. by intros _.
  - eexists [_; _], [_; _]. split; [split; [done|simpl; by rewrite H1, H2]|]. split.
    + intros [|[|i]] p e Hi Hne; simpl in Hi; simplify_eq.
    + by intros e.
Qed.

Lemma accounts_process_whiteouts ms : accounts (process_whiteouts ms).
Proof.
  induction ms as [|member ms IH]; simpl; [apply accounts_internal, internal_ret|].
  apply accounts_bind; [apply accounts_whiteout|by intros].
Qed.

Lemma accounts_extract_layers args img ids : accounts (extract_layers args img ids).
Proof.
  induction ids as [|id ids IH]; simpl; [apply accounts_internal, internal_ret|].
  apply accounts_bind; [|by intros].
  destruct (skipped args id); [apply accounts_internal, internal_ret|].
  unfold extract_layer.
  apply accounts_bind; [apply accounts_internal, internal_emit|intros _].
  destruct (img_layer_tar img !! id) as [entries|];
    [|apply accounts_internal, internal_raise; by intros []].
  apply accounts_bind; [by apply accounts_internal|intros _].
  apply accounts_bind; [apply accounts_tar_only, tar_only_extractall|intros _].
  destruct (arg_no_whiteouts args); [apply accounts_internal, internal_ret|].
  apply accounts_bind; [apply accounts_internal, internal_emit|intros _].
  apply accounts_bind; [by apply accounts_internal|intros ms].
  apply accounts_process_whiteouts.
Qed.

(** Every run of [main] keeps to the policy. *)
Lemma accounts_main limit args img : accounts (main limit args img).
Proof.
  unfold main.
  apply accounts_bind; [|intros repos].
  { destruct (img_repositories img);
      [apply accounts_internal, internal_ret
      |apply accounts_internal, internal_raise; by intros []]. }
  apply accounts_bind; [|intros _].
  { apply accounts_internal. destruct (arg_list args); [|apply internal_ret].
    apply internal_bind; [apply internal_print_repos|].
    intros; apply internal_raise; by intros []. }
  apply accounts_bind; [apply accounts_internal, internal_select_image|intros image].
  apply accounts_bind; [apply accounts_internal, internal_split_reference|intros [n t]].
  apply accounts_bind; [apply accounts_internal, internal_lookup_top|intros top].
  apply accounts_bind; [apply accounts_internal, internal_emit|intros _].
  apply accounts_bind; [apply accounts_internal, internal_find_layers|intros layers].
  apply accounts_bind; [|intros _].
  { apply accounts_internal. destruct (arg_layers args); [|apply internal_ret].
    apply internal_bind; [apply internal_emit|intros; apply internal_raise; by intros []]. }
  apply accounts_bind; [by apply accounts_internal|intros d].
  apply accounts_bind; [|intros _; apply accounts_extract_layers].
  destruct d; [apply accounts_internal, internal_ret|].
  apply accounts_tar_only, tar_only_do. by intros [].
Qed.

(** The calls of a run, replayed from its start, are answered as they
    were in the run. *)
Lemma main_answered limit args img s :
  ∃ l, replay (calls_of (main limit args img) s) (world s) =
         (world (main limit args img s).1, l) ∧
       unlink_policy l (raised (main limit args img s).2).
Proof.
  destruct (accounts_main limit args img s) as (cs & l & [Hc Hr] & Hp).
  exists l. split; [|done]. by rewrite (calls_of_app _ _ _ Hc).
Qed.

End Answers.

(** ** Runs of [main] that differ in the [--layer] arguments *)

Section Filter.
Context {W : Type} `{!OS W}.
Implicit Types (s : state W).

Lemma bind_ext_ok {A B} (m : M W A) (k k' : A → M W B) s :
  (∀ a s', m s = (s', Ok a) → k a s' = k' a s') → (m ≫= k) s = (m ≫= k') s.
Proof. intros Hk. rewrite !run_bind. destruct (m s) as [s' [a|e]]; auto. Qed.

Lemma skipped_some args l id :
  arg_layer args = Some l → l ≠ [] → skipped args id = negb (bool_decide (id ∈ l)).
Proof. intros Hl Hne. unfold skipped. rewrite Hl. by destruct l. Qed.

(** The loop reads of the [--layer] arguments which ids of its list
    they hold. *)
Lemma extract_layers_layer_congr args l' img ids :
  (∀ id, id ∈ ids → skipped (with_layer args l') id = skipped args id) →
  ∀ s, extract_layers (with_layer args l') img ids s = extract_layers args img ids s.
Proof.
  induction ids as [|id ids IH]; intros Hs s; [done|].
  assert (Hid : id ∈ id :: ids) by set_solver.
  change (extract_layers (with_layer args l') img (id :: ids)) with
    ((if skipped (with_layer args l') id then mret tt else extract_layer args img id);;
     extract_layers (with_layer args l') img ids).
  rewrite (Hs id Hid).
  apply bind_ext. intros _ s'. apply IH. intros id' Hin. apply Hs. by right.
Qed.

Lemma main_layer_congr limit args img repos image n t tags top ids l l' :
  chain img top ids →
  img_repositories img = Some repos → arg_list args = false →
  arg_image args = Some image → split_colon image = Some (n, t) →
  dict_get repos n = Some tags → dict_get tags t = Some top →
  arg_layer args = Some l → l ≠ [] → l' ≠ [] →
  (∀ id, id ∈ ids → id ∈ l ↔ id ∈ l') →
  ∀ s, main limit (with_layer args l') img s = main limit args img s.
Proof.
  intros Hc Hrepos Hlist Hi Hs Hn Ht Hl Hne Hne' Hiff s.
  rewrite (main_resolved limit args img repos image n t tags top s Hrepos Hlist Hi Hs Hn Ht).
  rewrite (main_resolved limit (with_layer args l') img repos image n t tags top s
             Hrepos Hlist Hi Hs Hn Ht).
  apply bind_ext_ok. intros layers s1 E.
  rewrite (find_layers_chain_only img top ids Hc _ _ _ _ E).
  change (arg_layers (with_layer args l')) with (arg_layers args).
  change (arg_output (with_layer args l')) with (arg_output args).
  apply bind_ext. intros _ s2. apply bind_ext. intros d s3.
  apply bind_ext. intros _ s4. apply extract_layers_layer_congr.
  intros id Hin. rewrite elem_of_reverse in Hin.
  rewrite (skipped_some args l id Hl Hne), (skipped_some (with_layer args l') l' id eq_refl Hne').
  f_equal. apply bool_decide_ext. specialize (Hiff id Hin). tauto.
Qed.

End Filter.

(** ** The properties of the specification *)

(** C1: a whiteout entry is to remove its marker and its target from the
    tree under the output directory.  The two [os.unlink] calls of [main]
    receive the member path as it is, not joined with [args.output], so
    with [-o out] they name paths of the working directory: on the chain
    L3, L2, L1 the run ends without an exception, the only path that an
    [unlink] names is [etc/.wh.foo], and both [out/etc/.wh.foo] and
    [out/etc/foo] are still in the tree.  With the output directory [.]
    the same image loses both. *)
Theorem whiteout_unlink_ignores_output :
  (Examples.app_run "out" "app:v1" Examples.clean).2 = Ok tt ∧
  unlinked_paths (calls (Examples.app_run "out" "app:v1" Examples.clean).1)
    = ["etc/.wh.foo"] ∧
  Posix.tree (world (Examples.app_run "out" "app:v1" Examples.clean).1) !! "out/etc/.wh.foo"
    = Some (Posix.File 420) ∧
  Posix.tree (world (Examples.app_run "out" "app:v1" Examples.clean).1) !! "out/etc/foo"
    = Some (Posix.File 420) ∧
  Posix.tree (world (Examples.app_run "." "app:v1" Examples.clean).1) !! "etc/.wh.foo" = None ∧
  Posix.tree (world (Examples.app_run "." "app:v1" Examples.clean).1) !! "etc/foo" = None.
Proof. by vm_compute. Qed.

(** C2: on a chain of parent links that ends in a layer without parent,
    the walk from the top id returns the ids top first: for every
    recursion limit it returns them or ends with [RecursionError], and
    it returns them when the limit leaves room for the chain.  [main]
    extracts the layers in the reverse of that order, base first: the
    layers it announces are the reversed chain, and its [extract] calls
    are those for the members of the base layer, in the order of its
    archive, then those of the next layer, and so on up to the top
    layer; both as far as the run gets, and all of them when the run
    ends without an exception. *)
Theorem chain_walk_and_extraction_order {W} `{!OS W}
    args img repos image n t tags top ids :
  chain img top ids →
  img_repositories img = Some repos →
  arg_list args = false → arg_layers args = false → arg_layer args = None →
  arg_image args = Some image → split_colon image = Some (n, t) →
  dict_get repos n = Some tags → dict_get tags t = Some top →
  (∃ depth, ∀ limit (s : state W), depth ≤ limit →
     (find_layers limit img top s).2 = Ok ids) ∧
  ∀ limit,
    (∀ s : state W, (find_layers limit img top s).2 = Ok ids ∨
                    (find_layers limit img top s).2 = Raise RecursionError) ∧
    announces (W:=W) (main limit args img) (reverse ids) ∧
    extracts (W:=W) (main limit args img)
             (concat (layer_extracts args img <$> reverse ids)).
Proof.
  intros Hc Hrepos Hlist Hlayers Hlayer Hi Hs Hn Ht. split.
  { exists (length ids). intros limit s Hl. by apply find_layers_chain. }
  intros limit. split_and!.
  - intros s. rewrite (find_layers_chain_cases img top ids Hc limit s).
    case_decide; auto.
  - rewrite <-(selected_all args (reverse ids) Hlayer).
    apply (main_announces limit args img repos top); [done..| |].
    + by apply (resolve_tagged args repos image n t tags top).
    + apply (find_layers_chain_only img top ids Hc).
  - rewrite <-(selected_all args (reverse ids) Hlayer).
    apply (main_extracts limit args img repos top); [done..| |].
    + by apply (resolve_tagged args repos image n t tags top).
    + apply (find_layers_chain_only img top ids Hc).
Qed.

Lemma chain_walk_and_extraction_order_app :
  ((∃ depth, ∀ limit (s : state Posix.fs), depth ≤ limit →
      (find_layers limit Examples.app_image "L3" s).2 = Ok ["L3"; "L2"; "L1"]) ∧
   ∀ limit,
     (∀ s : state Posix.fs,
        (find_layers limit Examples.app_image "L3" s).2 = Ok ["L3"; "L2"; "L1"] ∨
        (find_layers limit Examples.app_image "L3" s).2 = Raise RecursionError) ∧
     announces (W:=Posix.fs) (main limit (Examples.app_args "out" "app:v1") Examples.app_image)
               ["L1"; "L2"; "L3"] ∧
     extracts (W:=Posix.fs) (main limit (Examples.app_args "out" "app:v1") Examples.app_image)
       [TarExtract 1 (Posix.dir "etc" 448) "out" false false;
        TarExtract 1 (Posix.reg "etc/foo" 420) "out" true false;
        TarExtract 1 (Posix.dir "etc" 448) "out" false false;
        TarExtract 1 (Posix.reg "etc/bar" 420) "out" true false;
        TarExtract 1 (Posix.reg "etc/.wh.foo" 420) "out" true false]) ∧
  (Examples.app_run "out" "app:v1" Examples.clean).2 = Ok tt ∧
  calls (Examples.app_run "out" "app:v1" Examples.clean).1 =
    [OsMkdir "out";
     TarExtract 1 (Posix.dir "etc" 448) "out" false false;
     TarExtract 1 (Posix.reg "etc/foo" 420) "out" true false;
     TarChown (Posix.dir "etc" 16877) "out/etc" false;
     TarUtime (Posix.dir "etc" 16877) "out/etc";
     TarChmod (Posix.dir "etc" 16879) "out/etc";
     TarExtract 1 (Posix.dir "etc" 448) "out" false false;
     TarExtract 1 (Posix.reg "etc/bar" 420) "out" true false;
     TarChown (Posix.dir "etc" 493) "out/etc" false;
     TarUtime (Posix.dir "etc" 493) "out/etc";
     TarChmod (Posix.dir "etc" 493) "out/etc";
     TarExtract 1 (Posix.reg "etc/.wh.foo" 420) "out" true false;
     OsUnlink "etc/.wh.foo"].
Proof.
  split; [|by vm_compute].
  apply (chain_walk_and_extraction_order (W:=Posix.fs)
           (Examples.app_args "out" "app:v1") Examples.app_image
           [("app", [("v1", "L3")])] "app:v1" "app" "v1" [("v1", "L3")] "L3"
           ["L3"; "L2"; "L1"]);
    try reflexivity.
  eapply chain_step; [reflexivity..|].
  eapply chain_step; [reflexivity..|].
  eapply chain_base; reflexivity.
Defined.

(** C3, as the code has it: the walk keeps no set of visited ids.  When
    the parent links from the top id come back to an id already visited,
    the walk uses up the frames of the interpreter, whatever their
    number, and ends with [RecursionError]; it returns no chain, and no
    error of its own names the cycle. *)
Theorem cyclic_walk_exhausts_recursion {W} `{!OS W} img top :
  revisits img top →
  ∀ limit (s : state W), (find_layers limit img top s).2 = Raise RecursionError.
Proof. intros Hr limit s. by apply find_layers_endless, revisits_endless. Qed.

Lemma cyclic_walk_exhausts_recursion_loop :
  nth_parent Examples.cycle_image 2 "A" = Some "A" ∧
  ∀ limit (s : state Posix.fs),
    (find_layers limit Examples.cycle_image "A" s).2 = Raise RecursionError.
Proof.
  split; [reflexivity|].
  apply (cyclic_walk_exhausts_recursion (W:=Posix.fs) Examples.cycle_image "A").
  exists 0, 2, "A". split; [lia|]. split; reflexivity.
Defined.

(** C3, as the claim has it, fails on two layers that name each other as
    parent: the walk visits them in turn, as the log shows, and what
    ends it is the exhausted recursion. *)
Lemma cycle_is_not_detected :
  revisits Examples.cycle_image "A" ∧
  records (find_layers 4 Examples.cycle_image "A" (Posix.start Examples.clean)).1
    = [LogDebug "layer = A"; LogDebug "layer = B"; LogDebug "layer = A"; LogDebug "layer = B"] ∧
  (find_layers 4 Examples.cycle_image "A" (Posix.start Examples.clean)).2
    = Raise RecursionError ∧
  (find_layers 1000 Examples.cycle_image "A" (Posix.start Examples.clean)).2
    = Raise RecursionError.
Proof.
  split; [|by vm_compute].
  exists 0, 2, "A". split; [lia|]. split; reflexivity.
Qed.

(** C4: for every directory of the archive the second loop calls
    [chmod] with the object of the directory, when the [chown] and the
    [utime] before it did not fail; these are the only [chmod] calls.
    When the recorded mode has the kind bit, the mode of that object is
    the recorded mode with [OWNER_WRITE] set.  The constant holds the
    write bit of the owner (bit 7) and, against its name and its
    comment, the write bit of others (bit 1) as well: the mode applied
    is not the recorded mode with the write bit of the owner.  Every
    other bit is as recorded, and without the kind bit the object is
    passed as recorded. *)
Theorem deferred_directory_mode_owner_write {W} `{!OS W}
    errorlevel path numeric_owner (s : state W) :
  (∀ t p, TarChmod t p ∈ calls_of (extractall errorlevel path numeric_owner) s →
     ∃ r m, members s !! r = Some m ∧ isdir m ∧
            p = path_join path (name m) ∧ t = final m) ∧
  ((extractall errorlevel path numeric_owner s).2 = Ok tt →
   records (extractall errorlevel path numeric_owner s).1 = records s →
   ∀ r m, members s !! r = Some m → isdir m →
     TarChmod (final m) (path_join path (name m))
       ∈ calls_of (extractall errorlevel path numeric_owner) s) ∧
  (∀ m, dirbit m →
     mode (final m) = Z.lor (mode m) OWNER_WRITE ∧
     Z.testbit (mode (final m)) 7 = true ∧ Z.testbit (mode (final m)) 1 = true ∧
     ∀ n, n ≠ 1%Z → n ≠ 7%Z → Z.testbit (mode (final m)) n = Z.testbit (mode m) n) ∧
  (∀ m, ¬ dirbit m → final m = m).
Proof.
  split_and!.
  - intros t p (r & m & Hm & Hd & -> & ->)%extractall_chmod. by exists r, m.
  - intros Hok Hrec r m Hm Hd.
    rewrite (extractall_silent errorlevel path numeric_owner s Hok Hrec).
    destruct (attr_calls_split path numeric_owner m (deferred (members s))
                (deferred_elem (members s) r m Hm Hd)) as (pre & post & ->).
    unfold attr_calls. set_solver.
  - intros m Hb. rewrite (final_dirbit m Hb). split_and!; [done|..].
    + apply lor_OWNER_WRITE_bit. by right.
    + apply lor_OWNER_WRITE_bit. by left.
    + intros n. apply lor_OWNER_WRITE_other.
  - apply final_no_dirbit.
Qed.

Lemma deferred_directory_mode_owner_write_srv :
  TarChmod (Posix.dir "srv" 16834) "out/srv"
    ∈ calls_of (extractall 1 "out" false) Examples.srv_layer ∧
  Z.lor 16832 128 = 16832%Z ∧
  Posix.tree (world (extractall 1 "out" false Examples.srv_layer).1) !! "out/srv"
    = Some (Posix.Dir 450) ∧
  Z.land 450 2 = 2%Z.
Proof.
  split; [|by vm_compute].
  refine (proj1 (proj2 (deferred_directory_mode_owner_write (W:=Posix.fs) 1 "out" false
                          Examples.srv_layer)) _ _ 0 (Posix.dir "srv" 16832) _ _);
    by vm_compute.
Defined.

(** C5, as the code has it: the calls of [extractall] are those of the
    first loop followed by those of the second.  The calls of the second
    loop are about directories of the archive and come in descending
    order of the names as the archive spells them, so that a call about
    a directory whose name is [a] comes after every call about a name
    [a/rest].  A loop that comes to its end has called [chown] for every
    directory of the archive, and when nothing was handed to [_dbg] its
    calls are [chown], [utime] and [chmod] for every directory, in this
    order. *)
Theorem deferred_attrs_deepest_first {W} `{!OS W}
    errorlevel path numeric_owner (s : state W) :
  ∃ cs1 cs2,
    calls_of (extractall errorlevel path numeric_owner) s = cs1 ++ cs2 ∧
    Forall is_extract cs1 ∧
    Forall (λ c, ∃ r m, members s !! r = Some m ∧ isdir m ∧
                        attr_call path numeric_owner m c) cs2 ∧
    StronglySorted call_desc cs2 ∧
    (∀ i j c1 c2,
       cs2 !! i = Some c1 → cs2 !! j = Some c2 →
       is_ancestor (call_name c1) (call_name c2) → j < i) ∧
    ((extractall errorlevel path numeric_owner s).2 = Ok tt →
       (∀ r m, members s !! r = Some m → isdir m →
          TarChown m (path_join path (name m)) numeric_owner ∈ cs2) ∧
       (records (extractall errorlevel path numeric_owner s).1 = records s →
          cs2 = concat (attr_calls path numeric_owner <$> deferred (members s)) ∧
          ∀ r m, members s !! r = Some m → isdir m →
            ∃ pre post, cs2 = pre ++ attr_calls path numeric_owner m ++ post)).
Proof.
  destruct (extractall_calls errorlevel path numeric_owner s)
    as (cs1 & cs2 & Hc & H1 & H2 & Hs).
  assert (Hcs : calls_of (extractall errorlevel path numeric_owner) s = cs1 ++ cs2).
  { apply calls_of_app. by rewrite Hc, (assoc_L (++)). }
  exists cs1, cs2. split_and!; [done..| |].
  { intros i j c1 c2 Hi Hj Ha.
    destruct (decide (j < i)) as [|Hji]; [done|]. exfalso.
    apply (ancestor_not_le _ _ Ha).
    destruct (decide (i = j)) as [->|Hne].
    - rewrite Hi in Hj. by injection Hj as ->.
    - apply (StronglySorted_lookup_lt call_desc cs2 i j c1 c2); [done|lia|done..]. }
  intros Hok. split.
  - intros r m Hm Hd.
    pose proof (extractall_visits errorlevel path numeric_owner s r m Hok Hm Hd) as Hv.
    rewrite Hcs in Hv. apply elem_of_app in Hv as [Hv|Hv]; [|done].
    by destruct (proj1 (Forall_forall _ _) H1 _ Hv).
  - intros Hrec.
    pose proof (extractall_silent errorlevel path numeric_owner s Hok Hrec) as Hsil.
    assert (Hcs2 : cs2 = concat (attr_calls path numeric_owner <$> deferred (members s))).
    { rewrite Hcs in Hsil.
      assert (Hl : extract_calls (cs1 ++ cs2) = cs1).
      { rewrite extract_calls_app, (extract_calls_id cs1 H1), extract_calls_other.
        - apply (right_id_L [] (++)).
        - eapply Forall_impl; [exact H2|]. intros c (r & m & _ & _ & Ha).
          destruct Ha; by intros []. }
      rewrite Hsil, extract_calls_app, attr_calls_other, (right_id_L [] (++)) in Hl.
      rewrite (extract_calls_id _ (is_extract_fmap _ _ _ _)) in Hl.
      rewrite Hl in Hsil. by apply (inj (app _)) in Hsil. }
    split; [done|]. intros r m Hm Hd.
    rewrite Hcs2. apply attr_calls_split. by apply (deferred_elem (members s) r m).
Qed.

Lemma deferred_attrs_deepest_first_nested :
  ∃ cs1 cs2,
    calls_of (extractall 1 "out" false) Cases.nested_layer = cs1 ++ cs2 ∧
    Forall is_extract cs1 ∧
    cs2 = [TarChown (Posix.dir "a/b" 16877) "out/a/b" false;
           TarUtime (Posix.dir "a/b" 16877) "out/a/b";
           TarChmod (Posix.dir "a/b" 16879) "out/a/b";
           TarChown (Posix.dir "a" 16877) "out/a" false;
           TarUtime (Posix.dir "a" 16877) "out/a";
           TarChmod (Posix.dir "a" 16879) "out/a"].
Proof.
  destruct (deferred_attrs_deepest_first (W:=Posix.fs) 1 "out" false Cases.nested_layer)
    as (cs1 & cs2 & Hc & H1 & _ & _ & _ & Hex).
  exists cs1, cs2. split_and!; [done..|].
  destruct (Hex ltac:(by vm_compute)) as [_ Hs].
  destruct (Hs ltac:(by vm_compute)) as [-> _]. by vm_compute.
Defined.

(** C5, as the claim has it, fails on an archive that spells the name of
    a directory in two ways: of the directories [a] and [./a/b], the
    upper one comes first in descending order of the names, and gets its
    attributes before the directory below it. *)
Lemma ancestor_first_when_respelled :
  calls_of (extractall 1 "out" false) Cases.respelled_layer =
    [TarExtract 1 (Posix.dir "a" 448) "out" false false;
     TarExtract 1 (Posix.dir "./a/b" 448) "out" false false;
     TarChown (Posix.dir "a" 16877) "out/a" false;
     TarUtime (Posix.dir "a" 16877) "out/a";
     TarChmod (Posix.dir "a" 16879) "out/a";
     TarChown (Posix.dir "./a/b" 16877) "out/./a/b" false;
     TarUtime (Posix.dir "./a/b" 16877) "out/./a/b";
     TarChmod (Posix.dir "./a/b" 16879) "out/./a/b"] ∧
  Posix.norm "out/./a/b" = "out/a/b" ∧
  (extractall 1 "out" false Cases.respelled_layer).2 = Ok tt ∧
  records (extractall 1 "out" false Cases.respelled_layer).1 = [].
Proof. by vm_compute. Qed.



(** C7: the two [unlink] calls of a whiteout stand in one [try] whose
    handler lets pass [OSError] with [ENOENT] only.  A marker or a
    target that is not there leaves no exception, and the loop goes on
    with the next member; what an [unlink] raises otherwise leaves the
    loop.  Nothing between the loop and the end of [main] handles it: in
    every run, an [unlink] that raised anything but [ENOENT] is the last
    call and its exception is the one the run ends with, and an
    exception of the environment that ends a run is never the [ENOENT]
    of an [unlink].  The answers of the environment are those to the
    calls of the run, replayed from the state in which the run starts. *)
Theorem whiteout_missing_target_tolerated {W} `{!OS W} :
  (∀ member (s : state W), is_whiteout (name member) = true →
     whiteout member s =
       match perform (OsUnlink (name member)) (world s) with
       | (w1, Some e) =>
           (unlinked member s w1 [OsUnlink (name member)],
            if decide (e = OSError ENOENT) then Ok tt else Raise e)
       | (w1, None) =>
           match perform (OsUnlink (newpath_of (name member))) w1 with
           | (w2, Some e) =>
               (unlinked member s w2
                  [OsUnlink (name member); OsUnlink (newpath_of (name member))],
                if decide (e = OSError ENOENT) then Ok tt else Raise e)
           | (w2, None) =>
               (unlinked member s w2
                  [OsUnlink (name member); OsUnlink (newpath_of (name member))],
                Ok tt)
           end
       end) ∧
  (∀ member ms (s : state W),
     process_whiteouts (member :: ms) s =
       match whiteout member s with
       | (s', Ok _) => process_whiteouts ms s'
       | (s', Raise e) => (s', Raise e)
       end) ∧
  (∀ limit args img (s : state W),
     ∃ l, replay (calls_of (main limit args img) s) (world s) =
            (world (main limit args img s).1, l) ∧
       (∀ i p e, l !! i = Some (OsUnlink p, Some e) → e ≠ OSError ENOENT →
                 S i = length l ∧ (main limit args img s).2 = Raise e) ∧
       (∀ e, (main limit args img s).2 = Raise e → external e →
             ∃ c, last l = Some (c, Some e) ∧ (is_unlink c → e ≠ OSError ENOENT))).
Proof.
  split_and!.
  - intros member s Hw. apply (whiteout_run member s Hw).
  - intros member ms s. simpl. rewrite run_bind. by destruct (whiteout member s) as [s' [[]|e]].
  - intros limit args img s.
    destruct (main_answered limit args img s) as (l & Hl & H1 & H2).
    exists l. split_and!; [done| |].
    + intros i p e Hi Hne. destruct (H1 i p e Hi Hne) as [? ?%raised_Some]. done.
    + intros e He%raised_Some. by apply H2.
Qed.

Lemma whiteout_missing_target_tolerated_runs :
  (∃ l, replay (calls_of (main 10 (Examples.app_args "." "app:v1") Examples.app_image)
                         (Posix.start Cases.kept_target)) Cases.kept_target =
          (world (main 10 (Examples.app_args "." "app:v1") Examples.app_image
                       (Posix.start Cases.kept_target)).1, l) ∧
     (∀ i p e, l !! i = Some (OsUnlink p, Some e) → e ≠ OSError ENOENT →
        S i = length l ∧
        (main 10 (Examples.app_args "." "app:v1") Examples.app_image
              (Posix.start Cases.kept_target)).2 = Raise e) ∧
     (∀ e, (main 10 (Examples.app_args "." "app:v1") Examples.app_image
                 (Posix.start Cases.kept_target)).2 = Raise e →
        external e →
        ∃ c, last l = Some (c, Some e) ∧ (is_unlink c → e ≠ OSError ENOENT))) ∧
  (main 10 Cases.top_only Examples.app_image (Posix.start Examples.clean)).2 = Ok tt ∧
  Cases.answers Cases.top_only Examples.clean =
    [(TarExtract 1 (Posix.reg "etc/.wh.foo" 420) "." true false, None);
     (OsUnlink "etc/.wh.foo", None);
     (OsUnlink "etc/foo", Some (OSError ENOENT))] ∧
  (Examples.app_run "." "app:v1" Cases.kept_target).2 = Raise (OSError Posix.EPERM) ∧
  last (Cases.answers (Examples.app_args "." "app:v1") Cases.kept_target)
    = Some (OsUnlink "etc/foo", Some (OSError Posix.EPERM)) ∧
  (Examples.app_run "." "app:v1" Cases.kept_marker).2 = Raise (OSError Posix.EPERM) ∧
  last (Cases.answers (Examples.app_args "." "app:v1") Cases.kept_marker)
    = Some (OsUnlink "etc/.wh.foo", Some (OSError Posix.EPERM)) ∧
  (Examples.app_run "out" "app:v1" Examples.clean).2 = Ok tt ∧
  last (Cases.answers (Examples.app_args "out" "app:v1") Examples.clean)
    = Some (OsUnlink "etc/.wh.foo", Some (OSError ENOENT)).
Proof.
  split; [|by vm_compute].
  apply (proj2 (proj2 (whiteout_missing_target_tolerated (W:=Posix.fs)))
           10 (Examples.app_args "." "app:v1") Examples.app_image
           (Posix.start Cases.kept_target)).
Defined.

(** C8: a reference without a colon is looked up in the manifest at
    line 161, before the [try] of line 163.  For a name that the
    manifest does not hold, [main] ends with the [KeyError] of that
    lookup: nothing is logged, and the process does not leave through
    [sys.exit(1)]. *)
Theorem untagged_unknown_reference_key_error {W} `{!OS W}
    limit args img repos image (s : state W) :
  img_repositories img = Some repos → arg_list args = false →
  arg_image args = Some image → image ≠ "" →
  split_colon image = None → dict_get repos image = None →
  main limit args img s = (s, Raise (KeyError image)).
Proof.
  intros Hrepos Hlist Hi Hne Hs Hg.
  assert (Hsel : select_image (W:=W) args repos = mret image).
  { unfold select_image. rewrite Hi. by destruct image. }
  unfold main. rewrite Hrepos, Hlist.
  do 2 (rewrite run_bind; cbn [mret M_ret]).
  rewrite Hsel, run_bind. cbn [mret M_ret]. rewrite run_bind.
  by rewrite (split_reference_untagged_unknown repos _ s Hs Hg).
Qed.

Lemma untagged_unknown_reference_key_error_web :
  Examples.app_run "out" "web" Examples.clean =
    (Posix.start Examples.clean, Raise (KeyError "web")) ∧
  (Examples.app_run "out" "web:v1" Examples.clean).2 = Raise (SystemExit 1) ∧
  records (Examples.app_run "out" "web:v1" Examples.clean).1 =
    [LogError "failed to find image web with tag v1"].
Proof.
  split; [|by vm_compute].
  apply (untagged_unknown_reference_key_error (W:=Posix.fs) 10
           (Examples.app_args "out" "web") Examples.app_image
           [("app", [("v1", "L3")])] "web" (Posix.start Examples.clean));
    try reflexivity.
  by vm_compute.
Defined.

(** C9, as the code has it: the first loop works on a copy and leaves
    every object of the archive as it was read; the second loop assigns
    to [mode] of the object itself.  After [extractall] an object is as
    it was read, or it is a directory whose recorded mode has the kind
    bit and its [mode] is the recorded mode with [OWNER_WRITE] set; no
    other field changes. *)
Theorem extractall_entry_evolution {W} `{!OS W}
    errorlevel path numeric_owner (s : state W) i m :
  members s !! i = Some m →
  (∀ refs ds, members (extract_members errorlevel path numeric_owner refs ds s).1 = members s) ∧
  ∃ m', members (extractall errorlevel path numeric_owner s).1 !! i = Some m' ∧
        evolved m m'.
Proof.
  intros Hi. split; [|by apply extractall_members].
  intros refs ds.
  destruct (extract_members errorlevel path numeric_owner refs ds s) as [s1 res] eqn:E.
  by apply extract_members_run in E as [Hm _].
Qed.

Lemma extractall_entry_evolution_opt :
  (∀ refs ds, members (extract_members 1 "out" false refs ds Examples.srv_layer).1
              = members Examples.srv_layer) ∧
  ∃ m', members (extractall 1 "out" false Examples.srv_layer).1 !! 1 = Some m' ∧
        evolved (Posix.dir "opt" 493) m'.
Proof.
  apply (extractall_entry_evolution (W:=Posix.fs) 1 "out" false Examples.srv_layer 1
           (Posix.dir "opt" 493)).
  reflexivity.
Defined.

(** C9, as the claim has it, fails on a directory recorded with mode
    [0o40700]: after [extractall] the object of the archive holds
    [0o40702]. *)
Lemma extractall_mutates_directory_entry :
  members Examples.srv_layer !! 0 = Some (Posix.dir "srv" 16832) ∧
  members (extractall 1 "out" false Examples.srv_layer).1 !! 0
    = Some (Posix.dir "srv" 16834).
Proof. by vm_compute. Qed.

(** C10: for a directory whose recorded mode has the kind bit, the mode
    that [chmod] applies in the second loop is the recorded mode or
    [0o202]: besides the write bit of the owner (bit 7) it holds the
    write bit of others (bit 1), whatever the recorded mode grants to
    others. *)
Theorem deferred_directory_mode_other_write {W} `{!OS W}
    errorlevel path numeric_owner (s : state W) t p :
  TarChmod t p ∈ calls_of (extractall errorlevel path numeric_owner) s →
  OWNER_WRITE = 130%Z ∧
  ∃ r m, members s !! r = Some m ∧ isdir m ∧ p = path_join path (name m) ∧
    (dirbit m →
       mode t = Z.lor (mode m) 130 ∧
       Z.testbit (mode t) 1 = true ∧ Z.testbit (mode t) 7 = true).
Proof.
  intros (r & m & Hm & Hd & -> & ->)%extractall_chmod.
  split; [done|]. exists r, m. split_and!; [done..|].
  intros Hb. rewrite (final_dirbit m Hb). split_and!; [done|..];
    apply lor_OWNER_WRITE_bit; auto.
Qed.

Lemma deferred_directory_mode_other_write_srv :
  (OWNER_WRITE = 130%Z ∧
   ∃ r m, members Examples.srv_layer !! r = Some m ∧ isdir m ∧
     "out/srv" = path_join "out" (name m) ∧
     (dirbit m →
        mode (Posix.dir "srv" 16834) = Z.lor (mode m) 130 ∧
        Z.testbit (mode (Posix.dir "srv" 16834)) 1 = true ∧
        Z.testbit (mode (Posix.dir "srv" 16834)) 7 = true)) ∧
  Z.land 16832 7 = 0%Z ∧
  Posix.tree (world (extractall 1 "out" false Examples.srv_layer).1) !! "out/srv"
    = Some (Posix.Dir 450) ∧
  Z.testbit 450 1 = true.
Proof.
  split; [|by vm_compute].
  apply (deferred_directory_mode_other_write (W:=Posix.fs) 1 "out" false
           Examples.srv_layer (Posix.dir "srv" 16834) "out/srv").
  apply (bool_decide_unpack _). by vm_compute.
Defined.

(** ** Further properties of the code *)

(** X1: the chain walk reads metadata and writes debug records; it makes
    no call, and leaves the file system and the open archive as they
    are, whether it returns or raises. *)
Theorem find_layers_only_logs {W} `{!OS W} limit img top (s : state W) :
  world (find_layers limit img top s).1 = world s ∧
  members (find_layers limit img top s).1 = members s ∧
  calls (find_layers limit img top s).1 = calls s ∧
  ∃ rs, records (find_layers limit img top s).1 = records s ++ rs ∧ Forall is_debug rs.
Proof. apply (find_layers_logs_debug limit img top s). Qed.

(** X2: when the parent links from the top id lead to an id whose
    [json] member is not in the archive, the walk returns no chain: for
    every recursion limit it ends with the [KeyError] of [extractfile],
    whose message names the member, or with [RecursionError], and with
    the former when the limit leaves room for the links. *)
Theorem find_layers_missing_metadata {W} `{!OS W} img n top id :
  nth_parent img n top = Some id → img_json img !! id = None →
  (∃ depth, ∀ limit (s : state W), depth ≤ limit →
     (find_layers limit img top s).2 =
     Raise (KeyError ("filename " +:+ repr (id +:+ "/json") +:+ " not found"))) ∧
  (∀ limit (s : state W),
     (find_layers limit img top s).2 =
       Raise (KeyError ("filename " +:+ repr (id +:+ "/json") +:+ " not found")) ∨
     (find_layers limit img top s).2 = Raise RecursionError).
Proof.
  intros Hn Hid. split.
  - exists (S n). intros limit s Hl.
    rewrite (find_layers_missing img limit n top id s Hn Hid).
    by rewrite decide_True by lia.
  - intros limit s. rewrite (find_layers_missing img limit n top id s Hn Hid).
    case_decide; auto.
Qed.

Lemma find_layers_missing_metadata_broken :
  (∃ depth, ∀ limit (s : state Posix.fs), depth ≤ limit →
     (find_layers limit MoreExamples.broken_image "L2" s).2 =
     Raise (KeyError "filename 'L1/json' not found")) ∧
  (∀ limit (s : state Posix.fs),
     (find_layers limit MoreExamples.broken_image "L2" s).2 =
       Raise (KeyError "filename 'L1/json' not found") ∨
     (find_layers limit MoreExamples.broken_image "L2" s).2 = Raise RecursionError).
Proof.
  apply (find_layers_missing_metadata (W:=Posix.fs) MoreExamples.broken_image 1 "L2" "L1");
    reflexivity.
Defined.

(** X4: with [--no-whiteouts], a run never calls [os.unlink]. *)
Theorem no_whiteouts_never_unlinks {W} `{!OS W} limit args img (s : state W) :
  arg_no_whiteouts args = true →
  unlinked_paths (calls (main limit args img s).1) = unlinked_paths (calls s).
Proof.
  intros Hno. revert s.
  apply (main_ensures (same_on unlinked_paths)).
  - apply untouched_same_on.
  - intros s s1 s2 H1%(untouched_same_on unlinked_paths) H2. by etrans.
  - intros layers. by apply tail_same_unlinks.
Qed.

Lemma no_whiteouts_never_unlinks_app :
  unlinked_paths
    (calls (main 10 (mkArgs false "." false false None true (Some "app:v1"))
              Examples.app_image (Posix.start Examples.clean)).1) = [].
Proof.
  apply (no_whiteouts_never_unlinks (W:=Posix.fs) 10
           (mkArgs false "." false false None true (Some "app:v1"))
           Examples.app_image (Posix.start Examples.clean)).
  reflexivity.
Defined.

(** X5: whatever the arguments and the archive, the paths that a run
    hands to [os.unlink] are paths of whiteout entries of layer archives
    of the image, and the paths that lines 195-198 derive from them;
    nothing else is removed. *)
Theorem unlink_only_whiteout_paths {W} `{!OS W} limit args img (s : state W) :
  ∃ ps, unlinked_paths (calls (main limit args img s).1) = unlinked_paths (calls s) ++ ps ∧
        Forall (image_whiteout_path img) ps.
Proof.
  revert s. apply (main_ensures (unlinks_only (image_whiteout_path img))).
  - intros s s1 H1. by apply same_on_unlinks_only, untouched_same_on.
  - intros s s1 s2 H1 H2. etrans; [|exact H2].
    by apply same_on_unlinks_only, untouched_same_on.
  - intros layers. apply tail_unlinks_only.
Qed.

(** X6: a run calls [os.mkdir] at most once, with the output directory,
    and only when [os.path.isdir] denies at the start of the run that it
    is a directory. *)
Theorem mkdir_only_output {W} `{!OS W} limit args img (s : state W) :
  ∃ l, mkdir_paths (calls (main limit args img s).1) = mkdir_paths (calls s) ++ l ∧
       (l = [] ∨
        (l = [arg_output args] ∧ os_path_isdir (arg_output args) (world s) = false)).
Proof.
  revert s.
  apply (main_ensures (λ s s', ∃ l,
           mkdir_paths (calls s') = mkdir_paths (calls s) ++ l ∧
           (l = [] ∨
            (l = [arg_output args] ∧ os_path_isdir (arg_output args) (world s) = false)))).
  - intros s s1 (_ & _ & Hc). exists []. rewrite Hc, (right_id_L [] (++)). auto.
  - intros s s1 s2 (Hw & _ & Hc) (l & Hl & Hd). exists l.
    rewrite Hw in Hd. rewrite Hc in Hl. done.
  - intros layers s. rewrite run_bind. simpl.
    pose proof (same_on_extract_layers (W:=W) mkdir_paths mkdir_paths_tar args img
                  (reverse layers) (or_intror mkdir_paths_unlink)) as He.
    destruct (os_path_isdir (arg_output args) (world s)) eqn:Hd; rewrite run_bind.
    + simpl. exists []. rewrite (right_id_L [] (++)). split; [apply He|auto].
    + specialize (He (do (OsMkdir (arg_output args)) s).1). revert He.
      unfold do. destruct (perform _ (world s)) as [w [e|]]; simpl; intros He;
        exists [arg_output args]; (split; [|auto]).
      * apply mkdir_paths_snoc.
      * unfold same_on in He. simpl in He. rewrite He. apply mkdir_paths_snoc.
Qed.

(** X7: with [--list], [main] prints one line for each repository of the
    manifest, in the order of the manifest, with the name and the tags
    separated by blanks, and leaves through [sys.exit(0)]; it makes no
    call and looks at no layer, whatever the other arguments. *)
Theorem list_prints_repositories {W} `{!OS W} limit args img repos (s : state W) :
  img_repositories img = Some repos → arg_list args = true →
  main limit args img s =
    (mkState (world s) (members s) (calls s) (records s ++ (repo_line <$> repos)),
     Raise (SystemExit 0)).
Proof.
  intros Hrepos Hlist. unfold main. rewrite Hrepos, Hlist.
  rewrite run_bind. cbn [mret M_ret]. rewrite !run_bind.
  by rewrite print_repos_run.
Qed.

Lemma list_prints_repositories_two :
  main 10 MoreExamples.list_args MoreExamples.two_repos (Posix.start Examples.clean) =
    (mkState Examples.clean [] [] [Print "app: v1 v2"; Print "db: latest"],
     Raise (SystemExit 0)).
Proof.
  apply (list_prints_repositories (W:=Posix.fs) 10 MoreExamples.list_args
           MoreExamples.two_repos
           [("app", [("v1", "L3"); ("v2", "L2")]); ("db", [("latest", "L1")])]
           (Posix.start Examples.clean)); reflexivity.
Defined.

(** X8: without an image argument (or with an empty one), a manifest
    that does not hold exactly one repository, the empty manifest
    included, makes [main] log the error of line 155 and leave through
    [sys.exit(1)] before any layer is read. *)
Theorem no_image_needs_single_repository {W} `{!OS W} limit args img repos (s : state W) :
  img_repositories img = Some repos → arg_list args = false →
  (arg_image args = None ∨ arg_image args = Some "") → length repos ≠ 1 →
  main limit args img s =
    ((emit (LogError "No image name specified and multiple images contained in archive")
           s).1,
     Raise (SystemExit 1)).
Proof.
  intros Hrepos Hlist Hi Hlen. unfold main. rewrite Hrepos, Hlist.
  do 2 (rewrite run_bind; cbn [mret M_ret]). rewrite run_bind.
  unfold select_image.
  assert (Hk : ∀ k : string, dict_keys repos ≠ [k]).
  { intros k Hk. apply Hlen. unfold dict_keys in Hk.
    by rewrite <-(length_fmap fst repos), Hk. }
  destruct Hi as [-> | ->]; destruct (dict_keys repos) as [|k [|k' ks]] eqn:E;
    try done; by destruct (Hk k).
Qed.

Lemma no_image_needs_single_repository_two :
  main 10 MoreExamples.no_args MoreExamples.two_repos (Posix.start Examples.clean) =
    (mkState Examples.clean [] []
       [LogError "No image name specified and multiple images contained in archive"],
     Raise (SystemExit 1)).
Proof.
  apply (no_image_needs_single_repository (W:=Posix.fs) 10 MoreExamples.no_args
           MoreExamples.two_repos
           [("app", [("v1", "L3"); ("v2", "L2")]); ("db", [("latest", "L1")])]
           (Posix.start Examples.clean)); [reflexivity|reflexivity|by left|simpl; lia].
Defined.

(** X9: when the manifest holds one repository, a run without an image
    argument is the run with the name of that repository as the
    argument. *)
Theorem single_repository_is_default {W} `{!OS W} limit args img n tags (s : state W) :
  img_repositories img = Some [(n, tags)] →
  (arg_image args = None ∨ arg_image args = Some "") →
  main limit args img s = main limit (with_image args n) img s.
Proof.
  intros Hrepos Hi. apply (main_congr limit args n img [(n, tags)] Hrepos).
  intros s' k. apply bind_ext_l. unfold select_image, with_image. simpl.
  destruct Hi as [-> | ->]; by destruct n.
Qed.

Lemma single_repository_is_default_app :
  main 10 MoreExamples.no_args Examples.app_image (Posix.start Examples.clean) =
  main 10 (with_image MoreExamples.no_args "app") Examples.app_image
       (Posix.start Examples.clean).
Proof.
  apply (single_repository_is_default (W:=Posix.fs) 10 MoreExamples.no_args
           Examples.app_image "app" [("v1", "L3")] (Posix.start Examples.clean));
    [reflexivity|by left].
Defined.

(** X10: a reference without a colon that names a repository of the
    manifest stands for that repository with the first tag of its
    dictionary: the run is the run with [name:tag] for that tag. *)
Theorem untagged_reference_first_tag {W} `{!OS W}
    limit args img repos image tag top tags (s : state W) :
  img_repositories img = Some repos →
  arg_image args = Some image → image ≠ "" → split_colon image = None →
  dict_get repos image = Some ((tag, top) :: tags) →
  main limit args img s = main limit (with_image args (image +:+ ":" +:+ tag)) img s.
Proof.
  intros Hrepos Hi Hne Hs Hg. apply (main_congr limit args _ img repos Hrepos).
  intros s' k. unfold select_image, with_image. simpl. rewrite Hi.
  destruct image as [|c image]; [done|].
  rewrite !run_bind. cbn [mret M_ret].
  change (String c image +:+ ":" +:+ tag) with (String c (image +:+ ":" +:+ tag)).
  cbn [mret M_ret]. rewrite !run_bind.
  unfold split_reference at 1. rewrite Hs, Hg. simpl.
  unfold split_reference.
  change (String c (image +:+ ":" +:+ tag)) with (String c image +:+ ":" +:+ tag).
  by rewrite (split_colon_app _ tag Hs).
Qed.

Lemma untagged_reference_first_tag_app :
  main 10 (Examples.app_args "." "app") MoreExamples.two_repos (Posix.start Examples.clean) =
  main 10 (with_image (Examples.app_args "." "app") "app:v1") MoreExamples.two_repos
       (Posix.start Examples.clean).
Proof.
  apply (untagged_reference_first_tag (W:=Posix.fs) 10 (Examples.app_args "." "app")
           MoreExamples.two_repos
           [("app", [("v1", "L3"); ("v2", "L2")]); ("db", [("latest", "L1")])]
           "app" "v1" "L3" [("v2", "L2")] (Posix.start Examples.clean));
    [reflexivity|reflexivity|done|reflexivity|reflexivity].
Defined.

(** X11: with [--layers], for a reference [name:tag] of the manifest and
    a chain that the frames suffice for, [main] prints the ids of the
    chain base first, one per line, as one [print], and leaves through
    [sys.exit(0)]: besides the records of the walk it writes the
    announcement of the image, and it makes no call. *)
Theorem layers_lists_base_first {W} `{!OS W}
    limit args img repos image n t tags top ids (s : state W) :
  chain img top ids → length ids ≤ limit →
  img_repositories img = Some repos →
  arg_list args = false → arg_layers args = true →
  arg_image args = Some image → split_colon image = Some (n, t) →
  dict_get repos n = Some tags → dict_get tags t = Some top →
  ∃ rs, Forall is_debug rs ∧
    main limit args img s =
      (mkState (world s) (members s) (calls s)
         (records s ++ LogInfo ("extracting image " +:+ n +:+ " (" +:+ top +:+ ")") :: rs ++
          [Print (join nl (reverse ids))]),
       Raise (SystemExit 0)).
Proof.
  intros Hc Hl Hrepos Hlist Hlayers Hi Hs Hn Ht.
  set (s1 := (emit (LogInfo ("extracting image " +:+ n +:+ " (" +:+ top +:+ ")")) s).1).
  pose proof (find_layers_chain img top ids Hc limit s1 Hl) as Hr.
  destruct (find_layers_logs_debug limit img top s1) as (Hw & Hm & Hcs & rs & Hrs & Hd).
  exists rs. split; [done|].
  rewrite (main_resolved limit args img repos image n t tags top s Hrepos Hlist Hi Hs Hn Ht).
  fold s1. rewrite Hlayers, run_bind.
  destruct (find_layers limit img top s1) as [s2 r]. simpl in *. subst r.
  rewrite !run_bind. simpl. rewrite Hw, Hm, Hcs, Hrs. by rewrite <-!(assoc_L (++)).
Qed.

Lemma layers_lists_base_first_app :
  ∃ rs, Forall is_debug rs ∧
    main 10 (mkArgs false "." true false None false (Some "app:v1")) Examples.app_image
         (Posix.start Examples.clean) =
      (mkState Examples.clean [] []
         ([] ++ LogInfo "extracting image app (L3)" :: rs ++
          [Print (join nl ["L1"; "L2"; "L3"])]),
       Raise (SystemExit 0)).
Proof.
  apply (layers_lists_base_first (W:=Posix.fs) 10
           (mkArgs false "." true false None false (Some "app:v1")) Examples.app_image
           [("app", [("v1", "L3")])] "app:v1" "app" "v1" [("v1", "L3")] "L3"
           ["L3"; "L2"; "L1"] (Posix.start Examples.clean));
    try reflexivity; [|simpl; lia].
  eapply chain_step; [reflexivity..|].
  eapply chain_step; [reflexivity..|].
  eapply chain_base; reflexivity.
Defined.

(** X12: with [--layer] arguments, the layers that [main] extracts are
    the layers of the chain that are among the arguments, base first:
    those are the layers it announces and the layers whose members it
    hands to [extract], in the order of the chain.  The order and the
    repetitions of the arguments do not matter, and an argument that is
    no id of the chain changes nothing: two lists of arguments that hold
    the same ids of the chain give the same run. *)
Theorem layer_filter_keeps_chain_order {W} `{!OS W}
    args img repos image n t tags top ids l :
  chain img top ids →
  img_repositories img = Some repos →
  arg_list args = false → arg_layers args = false →
  arg_layer args = Some l → l ≠ [] →
  arg_image args = Some image → split_colon image = Some (n, t) →
  dict_get repos n = Some tags → dict_get tags t = Some top →
  ∀ limit,
    announces (W:=W) (main limit args img) (filter (λ id, id ∈ l) (reverse ids)) ∧
    extracts (W:=W) (main limit args img)
      (concat (layer_extracts args img <$> filter (λ id, id ∈ l) (reverse ids))) ∧
    ∀ l', l' ≠ [] → (∀ id, id ∈ ids → id ∈ l ↔ id ∈ l') →
      ∀ s : state W, main limit (with_layer args l') img s = main limit args img s.
Proof.
  intros Hc Hrepos Hlist Hlayers Hlayer Hne Hi Hs Hn Ht limit.
  rewrite <-(selected_some args l (reverse ids) Hlayer Hne). split_and!.
  - apply (main_announces limit args img repos top); [done..| |].
    + by apply (resolve_tagged args repos image n t tags top).
    + apply (find_layers_chain_only img top ids Hc).
  - apply (main_extracts limit args img repos top); [done..| |].
    + by apply (resolve_tagged args repos image n t tags top).
    + apply (find_layers_chain_only img top ids Hc).
  - intros l' Hne' Hiff.
    by apply (main_layer_congr limit args img repos image n t tags top ids l l').
Qed.

Lemma layer_filter_keeps_chain_order_app :
  (∀ limit,
     announces (W:=Posix.fs)
       (main limit (mkArgs false "." false false (Some ["L3"; "zz"; "L1"; "L3"]) false
                           (Some "app:v1")) Examples.app_image)
       ["L1"; "L3"] ∧
     extracts (W:=Posix.fs)
       (main limit (mkArgs false "." false false (Some ["L3"; "zz"; "L1"; "L3"]) false
                           (Some "app:v1")) Examples.app_image)
       [TarExtract 1 (Posix.dir "etc" 448) "." false false;
        TarExtract 1 (Posix.reg "etc/foo" 420) "." true false;
        TarExtract 1 (Posix.reg "etc/.wh.foo" 420) "." true false] ∧
     ∀ l', l' ≠ [] →
       (∀ id, id ∈ ["L3"; "L2"; "L1"] → id ∈ ["L3"; "zz"; "L1"; "L3"] ↔ id ∈ l') →
       ∀ s : state Posix.fs,
         main limit (with_layer (mkArgs false "." false false (Some ["L3"; "zz"; "L1"; "L3"])
                                        false (Some "app:v1")) l') Examples.app_image s =
         main limit (mkArgs false "." false false (Some ["L3"; "zz"; "L1"; "L3"]) false
                            (Some "app:v1")) Examples.app_image s) ∧
  (main 10 (mkArgs false "." false false (Some ["L3"; "zz"; "L1"; "L3"]) false
                   (Some "app:v1")) Examples.app_image (Posix.start Examples.clean)).2 = Ok tt ∧
  calls (main 10 (mkArgs false "." false false (Some ["L3"; "zz"; "L1"; "L3"]) false
                         (Some "app:v1")) Examples.app_image (Posix.start Examples.clean)).1 =
    [TarExtract 1 (Posix.dir "etc" 448) "." false false;
     TarExtract 1 (Posix.reg "etc/foo" 420) "." true false;
     TarChown (Posix.dir "etc" 16877) "./etc" false;
     TarUtime (Posix.dir "etc" 16877) "./etc";
     TarChmod (Posix.dir "etc" 16879) "./etc";
     TarExtract 1 (Posix.reg "etc/.wh.foo" 420) "." true false;
     OsUnlink "etc/.wh.foo";
     OsUnlink "etc/foo"] ∧
  main 10 (mkArgs false "." false false (Some ["L3"; "zz"; "L1"; "L3"]) false
                  (Some "app:v1")) Examples.app_image (Posix.start Examples.clean) =
    main 10 (mkArgs false "." false false (Some ["L1"; "L3"]) false
                    (Some "app:v1")) Examples.app_image (Posix.start Examples.clean).
Proof.
  split; [|by vm_compute].
  apply (layer_filter_keeps_chain_order (W:=Posix.fs)
           (mkArgs false "." false false (Some ["L3"; "zz"; "L1"; "L3"]) false
                   (Some "app:v1")) Examples.app_image
           [("app", [("v1", "L3")])] "app:v1" "app" "v1" [("v1", "L3")] "L3"
           ["L3"; "L2"; "L1"] ["L3"; "zz"; "L1"; "L3"]);
    try reflexivity; [|done].
  eapply chain_step; [reflexivity..|].
  eapply chain_step; [reflexivity..|].
  eapply chain_base; reflexivity.
Defined.

(** X13: when [extractall] returns, its first loop has called [extract]
    once for every member of the archive, in the order of the archive: a
    directory as a copy with mode [0o700] and without attributes, any
    other member as recorded and with its attributes; the calls that
    follow are none of [extract]. *)
Theorem first_loop_extracts_every_member {W} `{!OS W}
    errorlevel path numeric_owner (s : state W) :
  (extractall errorlevel path numeric_owner s).2 = Ok tt →
  ∃ cs2,
    calls_of (extractall errorlevel path numeric_owner) s =
      (extract_call errorlevel path numeric_owner <$> members s) ++ cs2 ∧
    Forall (λ c, ¬ is_extract c) cs2.
Proof.
  intros Hok.
  destruct (extract_members errorlevel path numeric_owner (seq 0 (length (members s))) [] s)
    as [s1 [ds|e]] eqn:E1.
  2:{ by rewrite (extractall_first_raise _ _ _ _ _ _ E1) in Hok. }
  pose proof (extract_members_calls _ _ _ _ _ _ _ _ E1) as Hc1.
  rewrite fmap_lookup_total_seq in Hc1.
  pose proof (extract_members_run _ _ _ _ _ _ _ _ E1) as (Hm & _ & _ & Hds).
  unfold calls_of. rewrite (extractall_result _ _ _ _ _ _ E1).
  rewrite (Hds ds eq_refl). simpl. rewrite Hm.
  destruct (set_directory_attrs_calls errorlevel path numeric_owner _
              (deferred_NoDup s (members s)) s1) as (cs2 & Hc2 & Hf2 & _).
  exists cs2. split.
  - by rewrite Hc2, Hc1, <-(assoc_L (++)), drop_app_length.
  - eapply Forall_impl; [exact Hf2|]. intros c (r & _ & Ha). destruct Ha; by intros [].
Qed.

Lemma first_loop_extracts_every_member_srv :
  ∃ cs2,
    calls_of (extractall 1 "out" false) Examples.srv_layer =
      [TarExtract 1 (Posix.dir "srv" 448) "out" false false;
       TarExtract 1 (Posix.dir "opt" 448) "out" false false] ++ cs2 ∧
    Forall (λ c, ¬ is_extract c) cs2.
Proof.
  apply (first_loop_extracts_every_member (W:=Posix.fs) 1 "out" false Examples.srv_layer).
  by vm_compute.
Defined.



(** X15: when the [unlink] of the marker of a whiteout fails with
    [ENOENT], the handler of line 204 takes it for the missing target:
    the [unlink] of the target is not called, and no exception is left. *)
Theorem whiteout_marker_missing_skips_target {W} `{!OS W} member (s : state W) w1 :
  is_whiteout (name member) = true →
  perform (OsUnlink (name member)) (world s) = (w1, Some (OSError ENOENT)) →
  whiteout member s = (unlinked member s w1 [OsUnlink (name member)], Ok tt).
Proof.
  intros Hw H1. pose proof (whiteout_run member s Hw) as Hr.
  simpl in Hr. rewrite H1 in Hr. rewrite Hr. by rewrite decide_True.
Qed.

Lemma whiteout_marker_missing_skips_target_foo :
  whiteout Examples.wh_foo (Posix.start MoreExamples.target_only) =
    (unlinked Examples.wh_foo (Posix.start MoreExamples.target_only)
       MoreExamples.target_only [OsUnlink "etc/.wh.foo"], Ok tt) ∧
  Posix.tree MoreExamples.target_only !! "etc/foo" = Some (Posix.File 420).
Proof.
  split; [|reflexivity].
  apply (whiteout_marker_missing_skips_target (W:=Posix.fs) Examples.wh_foo
           (Posix.start MoreExamples.target_only) MoreExamples.target_only);
    by vm_compute.
Defined.

(** X16: the whiteout loop does nothing for an archive that holds no
    whiteout entry: no call, no record, no exception. *)
Theorem no_whiteout_entries_no_effect {W} `{!OS W} ms (s : state W) :
  Forall (λ m, is_whiteout (name m) = false) ms →
  process_whiteouts ms s = (s, Ok tt).
Proof.
  induction 1 as [|m ms Hm Hms IH]; [done|].
  simpl. rewrite run_bind. unfold whiteout. rewrite Hm. simpl. apply IH.
Qed.

Lemma no_whiteout_entries_no_effect_base :
  process_whiteouts [Posix.dir "etc" 16877; Posix.reg "etc/foo" 420]
                    (Posix.start Examples.clean)
    = (Posix.start Examples.clean, Ok tt).
Proof.
  apply (no_whiteout_entries_no_effect (W:=Posix.fs)
           [Posix.dir "etc" 16877; Posix.reg "etc/foo" 420] (Posix.start Examples.clean)).
  repeat constructor.
Defined.

(** X17: a path with [.wh.] at the start of a segment is taken for a
    whiteout, in whatever segment it stands.  For a path whose first
    segment starts with the prefix the target is the rest of the path as
    it is; for a path [d/.wh.x] with the prefix nowhere else at the start
    of a segment, the target is [d/x], also when [x] holds further
    segments. *)
Theorem whiteout_target_path :
  (∀ x, is_whiteout (".wh." +:+ x) = true ∧ newpath_of (".wh." +:+ x) = x) ∧
  (∀ d x, startswith ".wh." d = false → contains "/.wh." d = false →
          contains "/.wh." x = false →
          is_whiteout (d +:+ "/.wh." +:+ x) = true ∧
          newpath_of (d +:+ "/.wh." +:+ x) = d +:+ "/" +:+ x).
Proof.
  split.
  - intros x. unfold is_whiteout, newpath_of, startswith.
    assert (String.prefix ".wh." (".wh." +:+ x) = true) as -> by (simpl; by destruct x).
    done.
  - intros d x Hs Hd Hx. unfold is_whiteout, newpath_of.
    rewrite (startswith_marker_app d x Hs), (contains_marker_app d x). split; [done|].
    by apply replace_marker_app.
Qed.

Lemma whiteout_target_path_foo :
  (is_whiteout "etc/.wh.foo" = true ∧ newpath_of "etc/.wh.foo" = "etc/foo") ∧
  (is_whiteout "a/.wh.b/c" = true ∧ newpath_of "a/.wh.b/c" = "a/b/c").
Proof.
  split.
  - apply (proj2 whiteout_target_path "etc" "foo"); reflexivity.
  - apply (proj2 whiteout_target_path "a" "b/c"); reflexivity.
Defined.

(** X18: whatever the archive, a run hands to [extract] the output
    directory as the path, [errorlevel] 0 under [--ignore-errors] and 1
    otherwise, and no [numeric_owner]; the paths of [chown], [utime] and
    [chmod] are [os.path.join] of the output directory and the name of
    the entry; and the one directory that [mkdir] may create is the
    output directory. *)
Theorem calls_name_output_directory {W} `{!OS W} limit args img (s : state W) :
  ∃ cs, calls (main limit args img s).1 = calls s ++ cs ∧ Forall (output_call args) cs.
Proof.
  revert s. apply (main_ensures (calls_only (output_call args))).
  - apply untouched_calls_only.
  - intros s s1 s2 H1%(untouched_calls_only (output_call args)) H2. by etrans.
  - intros layers.
    apply ensures_bind; [apply _|by apply calls_only_quiet|intros d].
    apply ensures_bind; [apply _| |intros _; apply output_call_extract_layers].
    destruct d; [by apply ensures_ret, _|by apply calls_only_do].
Qed.

(** X19: a reference [name:tag] whose name is no repository of the
    manifest, or whose tag is no tag of that repository, makes [main]
    log the error of line 166 with the name and the tag and leave
    through [sys.exit(1)]; no layer is read and no call is made. *)
Theorem tagged_reference_absent_exits {W} `{!OS W}
    limit args img repos image n t (s : state W) :
  img_repositories img = Some repos → arg_list args = false →
  arg_image args = Some image → split_colon image = Some (n, t) →
  dict_get repos n ≫= (λ tags, dict_get tags t) = None →
  main limit args img s =
    ((emit (LogError ("failed to find image " +:+ n +:+ " with tag " +:+ t)) s).1,
     Raise (SystemExit 1)).
Proof.
  intros Hrepos Hlist Hi Hs Hg.
  assert (Hsel : select_image (W:=W) args repos = mret image).
  { unfold select_image. rewrite Hi. destruct image; [done|done]. }
  unfold main. rewrite Hrepos, Hlist.
  do 2 (rewrite run_bind; cbn [mret M_ret]).
  rewrite Hsel, run_bind. cbn [mret M_ret].
  rewrite run_bind, (split_reference_tagged repos image n t s Hs).
  by rewrite run_bind, (lookup_top_absent repos n t s Hg).
Qed.

Lemma tagged_reference_absent_exits_app :
  Examples.app_run "out" "app:v2" Examples.clean =
    (mkState Examples.clean [] [] [LogError "failed to find image app with tag v2"],
     Raise (SystemExit 1)) ∧
  Examples.app_run "out" "web:v1" Examples.clean =
    (mkState Examples.clean [] [] [LogError "failed to find image web with tag v1"],
     Raise (SystemExit 1)).
Proof.
  split.
  - apply (tagged_reference_absent_exits (W:=Posix.fs) 10 (Examples.app_args "out" "app:v2")
             Examples.app_image [("app", [("v1", "L3")])] "app:v2" "app" "v2"
             (Posix.start Examples.clean)); reflexivity.
  - apply (tagged_reference_absent_exits (W:=Posix.fs) 10 (Examples.app_args "out" "web:v1")
             Examples.app_image [("app", [("v1", "L3")])] "web:v1" "web" "v1"
             (Posix.start Examples.clean)); reflexivity.
Defined.

(** X20: within one layer, the deletions follow the extraction: the
    calls of a layer are calls of [TarFile] methods followed by calls of
    [os.unlink], so that a whiteout of a layer acts on what this layer
    and the layers before it have written. *)
Theorem layer_unlinks_follow_extraction {W} `{!OS W} args img id (s : state W) :
  ∃ cs1 cs2,
    calls (extract_layer args img id s).1 = calls s ++ cs1 ++ cs2 ∧
    Forall is_tar cs1 ∧ Forall is_unlink cs2.
Proof.
  assert (Hnil : ∀ s1 : state W, calls s1 = calls s →
            ∃ cs1 cs2, calls s1 = calls s ++ cs1 ++ cs2 ∧
                       Forall is_tar cs1 ∧ Forall is_unlink cs2).
  { intros s1 Hc. exists [], []. rewrite Hc, !(right_id_L [] (++)).
    split_and!; [done|constructor..]. }
  unfold extract_layer. rewrite run_bind. simpl.
  destruct (img_layer_tar img !! id) as [entries|]; [|by apply Hnil].
  rewrite run_bind. simpl. rewrite run_bind.
  set (s1 := mkState (world s) entries (calls s) _).
  destruct (calls_only_extractall is_tar (errorlevel_of args) (arg_output args) false
              ltac:(done) ltac:(by destruct 1) s1) as (cs1 & Hc1 & Hf1).
  destruct (extractall _ _ _ s1) as [s2 [[]|e]]; subst s1; cbn [fst calls] in Hc1 |- *.
  2:{ exists cs1, []. rewrite (right_id_L [] (++)). split_and!; [done..|constructor]. }
  destruct (arg_no_whiteouts args).
  { exists cs1, []. rewrite (right_id_L [] (++)). split_and!; [done..|constructor]. }
  rewrite run_bind. simpl. rewrite run_bind. simpl.
  set (s3 := mkState _ _ _ _).
  destruct (calls_only_process_whiteouts is_unlink (members s2) ltac:(done) s3)
    as (cs2 & Hc2 & Hf2).
  exists cs1, cs2. split_and!; [|done..].
  rewrite Hc2. subst s3. cbn [calls]. by rewrite Hc1, (assoc_L (++)).
Qed.
